(** * Log viewer: the line parser, the payload splitter and the facet columns

    A shallow embedding of [src/utils/logParser.ts] and of the column
    generation of [src/utils/facets.ts], with the properties the
    specification states about them.

    Strings are JavaScript strings: sequences of UTF-16 code units, here
    [list N].  Indices are [nat]; a sentinel result [-1] of the source is
    [None]. *)

From Stdlib Require Import NArith ZArith Lia Bool String Ascii Decimal DecimalNat.
From stdpp Require Import list numbers.

Local Open Scope N_scope.
Local Open Scope nat_scope.

Abbreviation jsstring := (list N).

(** A string literal as code units (literals here are ASCII). *)
Definition js (s : string) : jsstring :=
  map N_of_ascii (list_ascii_of_string s).

(** ** The string primitives of the runtime that the parser uses *)

Module Js.

(** WhiteSpace and LineTerminator code units: what [trim], [trimEnd]
    and the class [\s] remove or match. *)
Definition isWhiteSpace (c : N) : bool :=
  ((9 <=? c) && (c <=? 13) || (c =? 32) || (c =? 160) || (c =? 5760)
   || (8192 <=? c) && (c <=? 8202)
   || (c =? 8232) || (c =? 8233) || (c =? 8239) || (c =? 8287)
   || (c =? 12288) || (c =? 65279))%N.

(** LineTerminator code units: what [.] refuses. *)
Definition isLineTerminator (c : N) : bool :=
  ((c =? 10) || (c =? 13) || (c =? 8232) || (c =? 8233))%N.

Definition isDigit (c : N) : bool := ((48 <=? c) && (c <=? 57))%N.
Definition isUpper (c : N) : bool := ((65 <=? c) && (c <=? 90))%N.
Definition isLower (c : N) : bool := ((97 <=? c) && (c <=? 122))%N.

(** [s[i] === c]; out of range [s[i]] is [undefined] and the test fails. *)
Definition charIs (s : jsstring) (i : nat) (c : N) : bool :=
  match s !! i with
  | Some d => (d =? c)%N
  | None => false
  end.

(** [s.slice(from, to)] and [s.slice(from)] for non-negative indices. *)
Definition slice (s : jsstring) (from to : nat) : jsstring :=
  take (to - from) (drop from s).
Definition sliceFrom (s : jsstring) (from : nat) : jsstring := drop from s.

Fixpoint trimStart (s : jsstring) : jsstring :=
  match s with
  | c :: s' => if isWhiteSpace c then trimStart s' else s
  | [] => []
  end.
Definition trimEnd (s : jsstring) : jsstring := rev (trimStart (rev s)).
Definition trim (s : jsstring) : jsstring := trimEnd (trimStart s).

(** [s.split(/\r?\n/)]: a break is a line feed, together with the
    carriage return right before it when there is one.  [cur] holds the
    current piece reversed; [cr] tells that a carriage return is pending,
    not yet known to belong to a break. *)
Fixpoint splitLines_go (s : jsstring) (cur : jsstring) (cr : bool)
  : list jsstring :=
  let flush (cur : jsstring) := if cr then 13%N :: cur else cur in
  match s with
  | [] => [rev (flush cur)]
  | c :: s' =>
      if (c =? 10)%N then rev cur :: splitLines_go s' [] false
      else if (c =? 13)%N then splitLines_go s' (flush cur) true
      else splitLines_go s' (c :: flush cur) false
  end.
Definition splitLines (s : jsstring) : list jsstring :=
  splitLines_go s [] false.

(** [s.lastIndexOf(c)] for a one-unit needle; [None] is [-1]. *)
Fixpoint lastIndexOf_go (s : jsstring) (c : N) (i : nat) (found : option nat)
  : option nat :=
  match s with
  | [] => found
  | d :: s' =>
      lastIndexOf_go s' c (S i) (if (d =? c)%N then Some i else found)
  end.
Definition lastIndexOf (s : jsstring) (c : N) : option nat :=
  lastIndexOf_go s c 0 None.

(** The length of the longest prefix of [s] whose units satisfy [p]. *)
Fixpoint runLength (p : N -> bool) (s : jsstring) : nat :=
  match s with
  | c :: s' => if p c then S (runLength p s') else 0
  | [] => 0
  end.

(** [while (index < s.length && p(s[index])) index++], as the final
    value of [index]. *)
Definition scanWhile (p : N -> bool) (s : jsstring) (index : nat) : nat :=
  index + runLength p (drop index s).

(** Number-to-string of a non-negative integer ([`${index}`]): its
    decimal digits. *)
Fixpoint digitsOfUint (u : Decimal.uint) : jsstring :=
  match u with
  | Nil => []
  | D0 u => 48%N :: digitsOfUint u
  | D1 u => 49%N :: digitsOfUint u
  | D2 u => 50%N :: digitsOfUint u
  | D3 u => 51%N :: digitsOfUint u
  | D4 u => 52%N :: digitsOfUint u
  | D5 u => 53%N :: digitsOfUint u
  | D6 u => 54%N :: digitsOfUint u
  | D7 u => 55%N :: digitsOfUint u
  | D8 u => 56%N :: digitsOfUint u
  | D9 u => 57%N :: digitsOfUint u
  end.
Definition decimal (n : nat) : jsstring := digitsOfUint (Nat.to_uint n).

(** ASCII case folding: [toLowerCase] on a string of ASCII units. *)
Definition lowerAscii (c : N) : N := if isUpper c then (c + 32)%N else c.

End Js.

(** ** Regular expressions

    The fragment the source uses: anchors, literals, and character classes
    under [{n}], [+] and [*] (all greedy), with capture groups.  A pattern
    is a flat list of items; a group is a pair of markers. *)

Module Regex.

Inductive item : Type :=
| Bol                               (* ^ *)
| Eol                               (* $ *)
| Lit (c : N)
| Rep (p : N -> bool) (n : nat)     (* class{n} *)
| Plus (p : N -> bool)              (* class+ *)
| Star (p : N -> bool)              (* class* *)
| Open (k : nat)                    (* ( of group k *)
| Close (k : nat).                  (* ) of group k *)

(** Backtracking over the lengths a greedy quantifier may take: the
    longest first, down to [lo]. *)
Fixpoint greedy {R} (try : nat -> option R) (lo n : nat) : option R :=
  if n <? lo then None
  else match try n with
       | Some r => Some r
       | None => match n with
                 | 0 => None
                 | S n' => greedy try lo n'
                 end
       end.

Definition startOf (k : nat) (opens : list (nat * nat)) : nat :=
  match list_find (fun o => o.1 = k) opens with
  | Some (_, (_, p)) => p
  | None => 0
  end.

(** The number of groups of a pattern. *)
Fixpoint groupCount (items : list item) : nat :=
  match items with
  | [] => 0
  | Close _ :: r => S (groupCount r)
  | _ :: r => groupCount r
  end.

(** Match [items] against [input] from [pos]; the result lists the
    captured substrings in the order their groups close. *)
Fixpoint run (items : list item) (input : jsstring) (pos : nat)
    (opens : list (nat * nat)) (caps : list jsstring)
  : option (list jsstring) :=
  match items with
  | [] => Some caps
  | Bol :: r => if pos =? 0 then run r input pos opens caps else None
  | Eol :: r =>
      if pos =? length input then run r input pos opens caps else None
  | Lit c :: r =>
      if Js.charIs input pos c then run r input (S pos) opens caps else None
  | Rep p n :: r =>
      if n <=? Js.runLength p (take n (drop pos input))
      then run r input (pos + n) opens caps else None
  | Plus p :: r =>
      greedy (fun k => run r input (pos + k) opens caps)
             1 (Js.runLength p (drop pos input))
  | Star p :: r =>
      greedy (fun k => run r input (pos + k) opens caps)
             0 (Js.runLength p (drop pos input))
  | Open k :: r => run r input pos ((k, pos) :: opens) caps
  | Close k :: r =>
      run r input pos opens
          (caps ++ [Js.slice input (startOf k opens) pos])
  end.

(** [input.match(re)] without the global flag: the first start position,
    from the left, at which the pattern matches. *)
Fixpoint firstMatch (items : list item) (input : jsstring)
    (starts : list nat) : option (list jsstring) :=
  match starts with
  | [] => None
  | p :: starts' =>
      match run items input p [] [] with
      | Some caps => Some caps
      | None => firstMatch items input starts'
      end
  end.
Definition exec (items : list item) (input : jsstring)
  : option (list jsstring) :=
  firstMatch items input (seq 0 (S (length input))).

End Regex.

(** ** Plain objects used as string-keyed records *)

Module JsObject.

(** Own properties in creation order. *)
Definition t (V : Type) : Type := list (jsstring * V).

Definition empty {V} : t V := [].

Definition has {V} (key : jsstring) (o : t V) : bool :=
  bool_decide (key ∈ o.*1).

Definition get {V} (key : jsstring) (o : t V) : option V :=
  snd <$> (snd <$> list_find (fun kv => kv.1 = key) o).

Fixpoint update {V} (key : jsstring) (v : V) (o : t V) : t V :=
  match o with
  | [] => []
  | (k, w) :: o' =>
      if decide (k = key) then (k, v) :: o' else (k, w) :: update key v o'
  end.

Definition protoKey : jsstring := js "__proto__".

(** [o[key] = v] on an object created by [{}], for a string [v].  An
    existing property keeps its place; a new one goes last.  The key
    [__proto__] reaches the inherited setter, which ignores a value that
    is not an object: no property is made. *)
Definition set {V} (key : jsstring) (v : V) (o : t V) : t V :=
  if decide (key = protoKey) then o
  else if has key o then update key v o
  else o ++ [(key, v)].

(** An array index: the canonical decimal numeral of an integer below
    [2^32 - 1]. *)
Fixpoint numeralValue (s : jsstring) (acc : N) : N :=
  match s with
  | [] => acc
  | c :: s' => numeralValue s' (10 * acc + (c - 48))%N
  end.
Definition isArrayIndex (key : jsstring) : bool :=
  match key with
  | [] => false
  | c :: rest =>
      forallb Js.isDigit key
      && ((c =? 48)%N && bool_decide (rest = []) || negb (c =? 48)%N)
      && (numeralValue key 0 <? 4294967295)%N
  end.

Fixpoint insertByIndex {V} (kv : jsstring * V) (o : t V) : t V :=
  match o with
  | [] => [kv]
  | kw :: o' =>
      if (numeralValue kv.1 0 <? numeralValue kw.1 0)%N
      then kv :: kw :: o'
      else kw :: insertByIndex kv o'
  end.

(** [Object.entries(o)]: array-index keys first, in ascending numeric
    order, then the other keys in creation order. *)
Definition entries {V} (o : t V) : list (jsstring * V) :=
  foldr insertByIndex [] (filter (fun kv => isArrayIndex kv.1 = true) o)
  ++ filter (fun kv => isArrayIndex kv.1 <> true) o.

End JsObject.

(** ** The log parser ([src/utils/logParser.ts]) *)

Record LogEntry {num : Type} : Type := mkLogEntry {
  id : jsstring;
  raw : jsstring;
  timestampRaw : jsstring;
  timestamp : option Z;          (* the time value of the Date, or null *)
  level : jsstring;
  sourceFile : jsstring;
  sourceLine : option num;
  message : jsstring;
  metadata : JsObject.t jsstring;
}.
Arguments LogEntry : clear implicits.

Record ParseResult {num : Type} : Type := mkParseResult {
  entries : list (LogEntry num);
  skipped : nat;
}.
Arguments ParseResult : clear implicits.

Definition notRBracket (c : N) : bool := negb (c =? 93)%N.
Definition notLineTerminator (c : N) : bool := negb (Js.isLineTerminator c).

Import Regex (item(..)).

(** The pattern, item by item:
    [^(\d{4}-\d{2}-\d{2}T\d{2}:\d{2}:\d{2}\.\d+Z)\s+\[([^\]]+)\]\s+\[([^\]]+)\]\s+]
    followed by the fourth group, any run of units other than line
    terminators (the dot, starred), and the end of the input. *)
Definition LOG_LINE_REGEX : list Regex.item :=
  let d := Js.isDigit in
  let s := Js.isWhiteSpace in
  [ Regex.Bol;
    Open 1; Rep d 4; Lit 45; Rep d 2; Lit 45; Rep d 2; Lit 84;
            Rep d 2; Lit 58; Rep d 2; Lit 58; Rep d 2; Lit 46; Plus d; Lit 90;
    Close 1;
    Plus s; Lit 91; Open 2; Plus notRBracket; Close 2; Lit 93;
    Plus s; Lit 91; Open 3; Plus notRBracket; Close 3; Lit 93;
    Plus s; Open 4; Star notLineTerminator; Close 4;
    Regex.Eol ]%N.

(** [/[A-Za-z0-9_.-]/] tested on one code unit. *)
Definition KEY_CHAR_REGEX (c : N) : bool :=
  (Js.isUpper c || Js.isLower c || Js.isDigit c
   || (c =? 95) || (c =? 46) || (c =? 45))%N.

Definition isSpace (c : N) : bool := (c =? 32)%N.

Definition isKeyAhead (block : jsstring) (start : nat) : bool :=
  let index := Js.scanWhile isSpace block start in
  let keyStart := index in
  let index := Js.scanWhile KEY_CHAR_REGEX block index in
  (keyStart <? length block) && (index <? length block)
  && Js.charIs block index 61.

(** The three depth counters of [readValue] after the unit [char]. *)
Definition bumpDepth (char : N) (depth : nat * nat * nat) : nat * nat * nat :=
  let '(depthParen, depthBracket, depthBrace) := depth in
  if (char =? 40)%N then (S depthParen, depthBracket, depthBrace)
  else if (char =? 41)%N && (0 <? depthParen)
       then (pred depthParen, depthBracket, depthBrace)
  else if (char =? 91)%N then (depthParen, S depthBracket, depthBrace)
  else if (char =? 93)%N && (0 <? depthBracket)
       then (depthParen, pred depthBracket, depthBrace)
  else if (char =? 123)%N then (depthParen, depthBracket, S depthBrace)
  else if (char =? 125)%N && (0 <? depthBrace)
       then (depthParen, depthBracket, pred depthBrace)
  else depth.

Definition depthZero (depth : nat * nat * nat) : bool :=
  let '(depthParen, depthBracket, depthBrace) := depth in
  (depthParen =? 0) && (depthBracket =? 0) && (depthBrace =? 0).

(** The loop of [readValue]: [rest] is the block from [index] on; the
    result is the index at which the loop ends. *)
Fixpoint readValue_loop (block rest : jsstring) (index : nat)
    (depth : nat * nat * nat) : nat :=
  match rest with
  | [] => index
  | char :: rest' =>
      let depth := bumpDepth char depth in
      if isSpace char && depthZero depth && isKeyAhead block (index + 1)
      then index
      else readValue_loop block rest' (index + 1) depth
  end.

Definition readValue (block : jsstring) (startIndex : nat)
  : jsstring * nat :=
  let index :=
    readValue_loop block (drop startIndex block) startIndex (0, 0, 0) in
  (Js.trimEnd (Js.slice block startIndex index), index).
Arguments readValue : simpl never.

(** The loop of [parseMetadata]; every round moves [index] forward, so
    [length block - index + 1] rounds of [fuel] let it run to its end. *)
Fixpoint parseMetadata_loop (fuel : nat) (block : jsstring) (index : nat)
    (metadata : JsObject.t jsstring) : JsObject.t jsstring :=
  match fuel with
  | 0 => metadata
  | S fuel' =>
      if length block <=? index then metadata
      else
        let index := Js.scanWhile isSpace block index in
        let keyStart := index in
        let index := Js.scanWhile KEY_CHAR_REGEX block index in
        if (length block <=? index) || negb (Js.charIs block index 61)
        then metadata
        else
          let key := Js.slice block keyStart index in
          let index := index + 1 in
          let '(value, nextIndex) := readValue block index in
          parseMetadata_loop fuel' block nextIndex
            (JsObject.set key (Js.trim value) metadata)
  end.

Definition parseMetadata (block : jsstring) : JsObject.t jsstring :=
  parseMetadata_loop (S (length block)) block 0 JsObject.empty.

(** A [for] loop over the indices [idxs] whose body either returns a value
    or goes on to the next index. *)
Fixpoint forReturn (idxs : list nat) (body : nat -> option nat) : option nat :=
  match idxs with
  | [] => None
  | i :: idxs' =>
      match body i with
      | Some r => Some r
      | None => forReturn idxs' body
      end
  end.

(** The body shared by the two loops of [findMetadataStart], after the
    test that lets the index through. *)
Definition boundaryAfter (payload : jsstring) (i : nat) : option nat :=
  let j := Js.scanWhile isSpace payload i in
  if isKeyAhead payload j then Some j else None.

Definition findMetadataStart (payload : jsstring) : option nat :=
  if isKeyAhead payload 0 then Some 0
  else
    match forReturn (seq 0 (length payload - 1)) (fun i =>
            if negb (Js.charIs payload i 32) || negb (Js.charIs payload (i + 1) 32)
            then None else boundaryAfter payload i) with
    | Some j => Some j
    | None =>
        forReturn (seq 0 (length payload)) (fun i =>
          if negb (Js.charIs payload i 32) then None
          else boundaryAfter payload i)
    end.

Definition splitPayload (payload : jsstring)
  : jsstring * JsObject.t jsstring :=
  match payload with
  | [] => ([], JsObject.empty)
  | _ =>
      match findMetadataStart payload with
      | None => (Js.trim payload, JsObject.empty)
      | Some metadataStart =>
          let message := Js.trimEnd (Js.slice payload 0 metadataStart) in
          let metadataBlock := Js.trim (Js.sliceFrom payload metadataStart) in
          (message, parseMetadata metadataBlock)
      end
  end.

Section Parser.

(** What the parser takes from the runtime without this development
    looking inside: the time value of [new Date(value)] ([None] when it
    is NaN), [toLowerCase], and [Number] on a string of digits. *)
Context {num : Type}.
Variable Date_parse : jsstring -> option Z.
Variable toLowerCase : jsstring -> jsstring.
Variable Number : jsstring -> num.

Definition parseTimestamp (value : jsstring) : option Z := Date_parse value.

Definition parseLocation (block : jsstring) : jsstring * option num :=
  match Js.lastIndexOf block 58 with
  | None => (Js.trim block, None)
  | Some colonIndex =>
      let filePart := Js.trim (Js.slice block 0 colonIndex) in
      let linePart :=
        List.filter Js.isDigit (Js.sliceFrom block (colonIndex + 1)) in
      (filePart, match linePart with [] => None | _ => Some (Number linePart) end)
  end.

Definition parseLine (line : jsstring) (index : nat)
  : option (LogEntry num) :=
  match Regex.exec LOG_LINE_REGEX line with
  | Some [timestampRaw; levelRaw; locationRaw; payload] =>
      let timestamp := parseTimestamp timestampRaw in
      let '(sourceFile, sourceLine) := parseLocation locationRaw in
      let '(message, metadata) := splitPayload payload in
      Some {| id := timestampRaw ++ 45%N :: Js.decimal index;
              raw := line;
              timestampRaw := timestampRaw;
              timestamp := timestamp;
              level := toLowerCase (Js.trim levelRaw);
              sourceFile := sourceFile;
              sourceLine := sourceLine;
              message := message;
              metadata := metadata |}
  | _ => None
  end.

(** The callback of [lines.forEach] in [parseLogText], as a function of
    the two accumulators. *)
Definition parseLogText_step (acc : list (LogEntry num) * nat)
    (line : jsstring) (index : nat) : list (LogEntry num) * nat :=
  let '(entries, skipped) := acc in
  let trimmed := Js.trim line in
  if bool_decide (trimmed = []) then acc
  else
    match parseLine trimmed index with
    | Some parsed => (entries ++ [parsed], skipped)
    | None => (entries, skipped + 1)
    end.

(** The line parser on a line with its index, as the callback calls it. *)
Definition parseNumbered (il : nat * jsstring) : option (LogEntry num) :=
  parseLine (Js.trim il.2) il.1.

(** [lines.forEach((line, index) => ...)] from index [index] on. *)
Fixpoint forEach {St} (f : St -> jsstring -> nat -> St)
    (lines : list jsstring) (index : nat) (acc : St) : St :=
  match lines with
  | [] => acc
  | line :: lines' => forEach f lines' (S index) (f acc line index)
  end.

Definition parseLogText (raw : jsstring) : ParseResult num :=
  let lines := Js.splitLines raw in
  let '(entries, skipped) := forEach parseLogText_step lines 0 ([], 0) in
  {| entries := entries; skipped := skipped |}.

End Parser.

(** ** The facet columns ([src/utils/facets.ts]) *)

(** A [Map] with string keys: [has], [get], [set] and [values], the
    entries kept in insertion order. *)
Module JsMap.

Definition t (V : Type) : Type := list (jsstring * V).

Definition has {V} (key : jsstring) (m : t V) : bool := JsObject.has key m.
Definition get {V} (key : jsstring) (m : t V) : option V := JsObject.get key m.
Definition set {V} (key : jsstring) (v : V) (m : t V) : t V :=
  if has key m then JsObject.update key v m else m ++ [(key, v)].
Definition values {V} (m : t V) : list V := m.*2.

End JsMap.

Inductive ColumnSource : Type := core | fromMetadata.

Record FacetColumn : Type := mkFacetColumn {
  name : jsstring;
  label : jsstring;
  source : ColumnSource;
  originalKey : option jsstring;
  description : option jsstring;
}.

Definition coreColumn (name description : string) : FacetColumn :=
  {| name := js name; label := js name; source := core;
     originalKey := None; description := Some (js description) |}.

Definition CORE_COLUMNS : list FacetColumn :=
  [ coreColumn "id" "Unique log line id (timestamp-index).";
    coreColumn "timestamp" "Original ISO8601 timestamp string.";
    coreColumn "timestamp_ms" "Timestamp as milliseconds since epoch.";
    coreColumn "level" "Normalized log level (debug/info/etc).";
    coreColumn "source_file" "File path inside the brackets.";
    coreColumn "source_line" "Line number extracted from source block.";
    coreColumn "message" "Free-form message text before kwargs.";
    coreColumn "raw" "Entire unparsed log line." ].

(** [[A-Za-z0-9_]] *)
Definition isWordChar (c : N) : bool :=
  Js.isUpper c || Js.isLower c || Js.isDigit c || (c =? 95)%N.

Definition isUnderscore (c : N) : bool := (c =? 95)%N.

(** [.replace(/_{2,}/g, '_')]: a run of underscores keeps one of them. *)
Fixpoint collapseUnderscores (s : jsstring) : jsstring :=
  match s with
  | [] => []
  | c :: s' =>
      match s' with
      | d :: _ =>
          if isUnderscore c && isUnderscore d then collapseUnderscores s'
          else c :: collapseUnderscores s'
      | [] => [c]
      end
  end.

(** [.replace(/^_+|_+$/g, '')]: the underscores at either end go. *)
Definition stripUnderscores (s : jsstring) : jsstring :=
  rev (drop (Js.runLength isUnderscore (rev (drop (Js.runLength isUnderscore s) s)))
            (rev (drop (Js.runLength isUnderscore s) s))).

(** [toLowerCase] is applied to units of [[A-Za-z0-9_]] only
    ([sanitizeKey_lowered_word] below), where it is the ASCII folding. *)
Definition sanitizeKey (key : jsstring) : jsstring :=
  let replaced :=
    stripUnderscores
      (collapseUnderscores
         (map (fun c => if isWordChar c then c else 95%N) key)) in
  let trimmed := match replaced with [] => js "field" | _ => replaced end in
  match trimmed with
  | c :: _ => if Js.isDigit c then js "f_" ++ trimmed
              else map Js.lowerAscii trimmed
  | [] => map Js.lowerAscii trimmed
  end.

Definition metadataColumn (name originalKey : jsstring) : FacetColumn :=
  {| name := name; label := name; source := fromMetadata;
     originalKey := Some originalKey;
     description :=
       Some (js "Metadata parsed from " ++ 34%N :: originalKey ++ 34%N :: js ".") |}.

(** [`${base}_${suffix}`] *)
Definition candidateName (base : jsstring) (suffix : nat) : jsstring :=
  base ++ 95%N :: Js.decimal suffix.

(** [while (metadataColumnMap.has(candidate)) { suffix += 1; ... }], as the
    final value of [suffix]; one round more than the map has entries lets
    it end ([freeSuffix_free] below). *)
Fixpoint freeSuffix (fuel : nat) (base : jsstring)
    (metadataColumnMap : JsMap.t FacetColumn) (suffix : nat) : nat :=
  match fuel with
  | 0 => suffix
  | S fuel' =>
      if JsMap.has (candidateName base suffix) metadataColumnMap
      then freeSuffix fuel' base metadataColumnMap (suffix + 1)
      else suffix
  end.

(** [existing?.originalKey === key] *)
Definition heldBy (existing : option FacetColumn) (key : jsstring) : bool :=
  bool_decide ((existing ≫= originalKey) = Some key).

(** [ensureColumn], with the map it closes over passed in and out. *)
Definition ensureColumn (originalKey : jsstring)
    (metadataColumnMap : JsMap.t FacetColumn)
  : jsstring * JsMap.t FacetColumn :=
  let base := js "meta_" ++ sanitizeKey originalKey in
  if negb (JsMap.has base metadataColumnMap) then
    (base, JsMap.set base (metadataColumn base originalKey) metadataColumnMap)
  else
    let existing := JsMap.get base metadataColumnMap in
    if heldBy existing originalKey then
      (base, metadataColumnMap)
    else
      let suffix :=
        freeSuffix (S (length metadataColumnMap)) base metadataColumnMap 2 in
      let candidate := candidateName base suffix in
      (candidate,
       JsMap.set candidate (metadataColumn candidate originalKey)
                 metadataColumnMap).

(** The values a row holds. *)
Inductive cell {num : Type} : Type :=
| CNull
| CBool (b : bool)
| CNumber (n : num)
| CTime (ms : Z)
| CString (s : jsstring).
Arguments cell : clear implicits.

Record FacetView {num : Type} : Type := mkFacetView {
  rows : list (JsObject.t (cell num));
  columns : list FacetColumn;
}.
Arguments FacetView : clear implicits.

Section Facets.

Context {num : Type}.
Variable toLowerCase : jsstring -> jsstring.
Variable Number : jsstring -> num.
Variable Number_isFinite : num -> bool.

Definition coerceValue (value : jsstring) : cell num :=
  let trimmed := Js.trim value in
  let lowered := toLowerCase trimmed in
  if bool_decide (trimmed = []) || bool_decide (lowered = js "none")
     || bool_decide (lowered = js "null") then CNull
  else if bool_decide (lowered = js "true") then CBool true
  else if bool_decide (lowered = js "false") then CBool false
  else
    let numberValue := Number trimmed in
    if Number_isFinite numberValue then CNumber numberValue
    else CString value.

Definition optCell {A} (f : A -> cell num) (o : option A) : cell num :=
  match o with Some a => f a | None => CNull end.

(** The object literal a row starts from. *)
Definition coreRow (log : LogEntry num) : JsObject.t (cell num) :=
  [ (js "id", CString (id log));
    (js "timestamp", CString (timestampRaw log));
    (js "timestamp_ms", optCell CTime (timestamp log));
    (js "level", CString (level log));
    (js "source_file", CString (sourceFile log));
    (js "source_line", optCell CNumber (sourceLine log));
    (js "message", CString (message log));
    (js "raw", CString (raw log)) ].

(** The callback of [Object.entries(log.metadata).forEach]. *)
Definition addMetadataCell
    (acc : JsObject.t (cell num) * JsMap.t FacetColumn)
    (kv : jsstring * jsstring)
  : JsObject.t (cell num) * JsMap.t FacetColumn :=
  let '(row, metadataColumnMap) := acc in
  let '(key, value) := kv in
  let '(columnName, metadataColumnMap) :=
    ensureColumn key metadataColumnMap in
  (JsObject.set columnName (coerceValue value) row, metadataColumnMap).

(** The callback of [logs.map]. *)
Definition rowOf (log : LogEntry num)
    (metadataColumnMap : JsMap.t FacetColumn)
  : JsObject.t (cell num) * JsMap.t FacetColumn :=
  foldl addMetadataCell (coreRow log, metadataColumnMap)
        (JsObject.entries (metadata log)).

Fixpoint mapRows (logs : list (LogEntry num))
    (metadataColumnMap : JsMap.t FacetColumn)
  : list (JsObject.t (cell num)) * JsMap.t FacetColumn :=
  match logs with
  | [] => ([], metadataColumnMap)
  | log :: logs' =>
      let '(row, metadataColumnMap) := rowOf log metadataColumnMap in
      let '(rows, metadataColumnMap) := mapRows logs' metadataColumnMap in
      (row :: rows, metadataColumnMap)
  end.

Definition buildFacetView (logs : list (LogEntry num)) : FacetView num :=
  let '(rows, metadataColumnMap) := mapRows logs [] in
  {| rows := rows;
     columns := CORE_COLUMNS ++ JsMap.values metadataColumnMap |}.

End Facets.

(** ** Date-time strings

    [new Date(value)] is the runtime's.  For a string of the shape
    [YYYY-MM-DDTHH:mm:ss.sssZ] the language standard fixes two things: a
    field out of its bounds (month 01 to 12, day 01 to 31, hour 00 to 24,
    minute and second 00 to 59) makes the whole string illegal and the
    time value NaN; a date that the calendar has, with its time of day,
    has the time value of that moment.  A day within 01 to 31 that the
    month does not have is left to the runtime. *)

Module EsDate.

Definition digitsValue (s : jsstring) : Z :=
  Z.of_N (JsObject.numeralValue s 0).

(** The shape of the timestamp segment, on its own. *)
Definition timestampShape : list Regex.item :=
  let d := Js.isDigit in
  [ Regex.Bol; Rep d 4; Lit 45; Rep d 2; Lit 45; Rep d 2; Lit 84;
    Rep d 2; Lit 58; Rep d 2; Lit 58; Rep d 2; Lit 46; Plus d; Lit 90;
    Regex.Eol ]%N.

Definition shaped (value : jsstring) : bool :=
  match Regex.exec timestampShape value with Some _ => true | None => false end.

Definition field (value : jsstring) (from to : nat) : Z :=
  digitsValue (Js.slice value from to).
Definition year (value : jsstring) : Z := field value 0 4.
Definition month (value : jsstring) : Z := field value 5 7.
Definition day (value : jsstring) : Z := field value 8 10.
Definition hour (value : jsstring) : Z := field value 11 13.
Definition minute (value : jsstring) : Z := field value 14 16.
Definition second (value : jsstring) : Z := field value 17 19.
Definition fraction (value : jsstring) : jsstring :=
  Js.slice value 20 (length value - 1).
(** The first three digits of the fraction, zeros added to a shorter one. *)
Definition millisecond (value : jsstring) : Z :=
  digitsValue (take 3 (fraction value ++ [48; 48]%N)).



(** Days from 1970-01-01 to the day [d] of the month [m] of the year [y],
    counted on from the first of the month. *)
Definition daysFromCivil (y m d : Z) : Z :=
  (let y := if m <=? 2 then y - 1 else y in
   let era := y / 400 in
   let yoe := y - era * 400 in
   let doy := (153 * (if 2 <? m then m - 3 else m + 9) + 2) / 5 + d - 1 in
   let doe := yoe * 365 + yoe / 4 - yoe / 100 + doy in
   era * 146097 + doe - 719468)%Z.



Definition timeValue (value : jsstring) : Z :=
  (daysFromCivil (year value) (month value) (day value) * 86400000
   + hour value * 3600000 + minute value * 60000 + second value * 1000
   + millisecond value)%Z.

End EsDate.

(** ** Reference instances of the runtime functions

    Used to evaluate the parser on concrete lines: a [Date] that reads the
    timestamp shape as V8 does, the ASCII [toLowerCase], and [Number] on
    strings of digits. *)

Module Ref.

(** [Date.parse] as V8 has it on strings of the timestamp shape: NaN
    ([None]) for a field out of its bounds, and otherwise the time value
    with the day counted on from the first of the month, so that a day the
    month does not have falls in the next month; hour 24 is midnight at the
    end of the day. *)
Definition Date_parse (value : jsstring) : option Z :=
  if EsDate.shaped value then
    if ((1 <=? EsDate.month value) && (EsDate.month value <=? 12)
        && (1 <=? EsDate.day value) && (EsDate.day value <=? 31)
        && ((EsDate.hour value <=? 23) && (EsDate.minute value <=? 59)
            && (EsDate.second value <=? 59)
            || (EsDate.hour value =? 24) && (EsDate.minute value =? 0)
               && (EsDate.second value =? 0)
               && (EsDate.millisecond value =? 0)))%Z
    then Some (EsDate.timeValue value)
    else None
  else None.

(** [toLowerCase] on ASCII text. *)
Definition toLowerCase (s : jsstring) : jsstring := map Js.lowerAscii s.

(** [Number] on a string of decimal digits, as the exact integer; any
    other string is given NaN ([None]) here. *)
Definition Number (s : jsstring) : option Z :=
  match s with
  | [] => Some 0%Z
  | _ => if forallb Js.isDigit s then Some (EsDate.digitsValue s) else None
  end.
Definition Number_isFinite (n : option Z) : bool :=
  match n with Some _ => true | None => false end.

End Ref.

(** ** The vocabulary of the statements *)

(** The counters after the units of [block] from [from] to [index], both
    included, starting from [depth]. *)
Definition depthFrom (depth : nat * nat * nat) (block : jsstring)
    (from index : nat) : nat * nat * nat :=
  foldl (fun d c => bumpDepth c d) depth (Js.slice block from (index + 1)).

(** The test of the code that ends the loop of [readValue] at [index], for
    a scan that was at [from] with counters [depth]: the counters of
    [bumpDepth] and the look-ahead [isKeyAhead], as the loop has them. *)
Definition stopsAt (depth : nat * nat * nat) (block : jsstring)
    (from index : nat) : Prop :=
  Js.charIs block index 32 = true
  /\ depthZero (depthFrom depth block from index) = true
  /\ isKeyAhead block (index + 1) = true.

(** The JSON-like value of the specification's example, and a block that
    holds it between two other pairs. *)
Definition jsonBlob : jsstring :=
  js "{" ++ 34%N :: js "a" ++ 34%N :: js ": 1, " ++ 34%N :: js "b" ++ 34%N
  :: js ": [1,2]}".
Definition jsonBlock : jsstring :=
  js "id=7 body=" ++ jsonBlob ++ js " status=ok".

(** What the first loop of [findMetadataStart] tests at [i]: two spaces at
    [i] and [i + 1], and the look-ahead [isKeyAhead] after the run of
    spaces that begins at [i]. *)
Definition doubleSpaceBoundary (payload : jsstring) (i : nat) : Prop :=
  Js.charIs payload i 32 = true /\ Js.charIs payload (i + 1) 32 = true
  /\ isKeyAhead payload (Js.scanWhile isSpace payload i) = true.

(** What the second loop tests at [i]: a space at [i], and the look-ahead
    [isKeyAhead] after the run of spaces that begins at [i]. *)
Definition singleSpaceBoundary (payload : jsstring) (i : nat) : Prop :=
  Js.charIs payload i 32 = true
  /\ isKeyAhead payload (Js.scanWhile isSpace payload i) = true.

Definition emptyPayloadLine : jsstring :=
  js "2024-04-12T05:41:11.337Z [info] [a.py:1]".
Definition emptyKeyLine : jsstring :=
  js "2024-04-12T05:41:11.337Z [info] [a.py:1] =5".
Definition noColonLine : jsstring :=
  js "2024-04-12T05:41:11.337Z [info] [ worker ] started".

(** The lines of a text with their indices, from [index] on: what
    [forEach] hands to its callback. *)
Definition numberedFrom (index : nat) (lines : list jsstring)
  : list (nat * jsstring) :=
  zip (seq index (length lines)) lines.

(** A line that is neither empty nor made of whitespace only. *)
Definition nonBlank (il : nat * jsstring) : Prop := Js.trim il.2 <> [].

(** A line break: a line feed, bare or with the carriage return before it. *)
Definition isLineBreak (b : jsstring) : Prop := b = [10%N] \/ b = [13%N; 10%N].

(** The text that has the given lines with the given breaks between them. *)
Fixpoint joinLines (lines breaks : list jsstring) : jsstring :=
  match lines, breaks with
  | line :: lines', b :: breaks' => line ++ b ++ joinLines lines' breaks'
  | line :: _, [] => line
  | [], _ => []
  end.

(** Two lines with the same timestamp. *)
Definition sameTimestampText : jsstring :=
  js "2024-04-12T05:41:11.337Z [info] [a.py:1] one" ++ 13%N :: 10%N
  :: js "2024-04-12T05:41:11.337Z [info] [a.py:2] two".

(** The base name [ensureColumn] gives a key. *)
Definition columnBase (key : jsstring) : jsstring :=
  js "meta_" ++ sanitizeKey key.

(** The name as the specification's sentence derives it: every unit
    outside [[A-Za-z0-9_]] made an underscore, and the whole lowercased. *)
Definition normalizedLower (key : jsstring) : jsstring :=
  map (fun c => Js.lowerAscii (if isWordChar c then c else 95%N)) key.

(** The columns of a view after the core ones. *)
Definition generatedColumns {num : Type} (view : FacetView num)
  : list FacetColumn :=
  drop (length CORE_COLUMNS) view.(columns).

(** An entry that has the given metadata and nothing else of interest. *)
Definition logWith (metadata : list (string * string)) : LogEntry (option Z) :=
  {| id := []; raw := []; timestampRaw := []; timestamp := None;
     level := []; sourceFile := []; sourceLine := None; message := [];
     metadata := map (fun kv => (js kv.1, js kv.2)) metadata |}.

(** The invariant of the column map: names are keys of the map and are not
    repeated; a column is the one [ensureColumn] makes for its key, under
    the base name of the key or under the base name with a suffix from 2
    on; and a suffix is there only when the base name is held by a column
    of another key. *)
Definition columnMapInv (m : JsMap.t FacetColumn) : Prop :=
  NoDup m.*1
  /\ forall n c, (n, c) ∈ m ->
       exists key,
         c = metadataColumn n key
         /\ (n = columnBase key
             \/ exists suffix,
                  2 <= suffix /\ n = candidateName (columnBase key) suffix
                  /\ exists c0, (columnBase key, c0) ∈ m
                                /\ c0.(originalKey) <> Some key).

(** The string [sanitizeKey] tests and lowercases: the key after the three
    replacements. *)
Definition sanitizeReplaced (key : jsstring) : jsstring :=
  stripUnderscores
    (collapseUnderscores (map (fun c => if isWordChar c then c else 95%N) key)).

(** Logs of the examples: a key with two dots, and two keys of one base
    name seen twice. *)
Definition dottedKeyLogs : list (LogEntry (option Z)) :=
  [logWith [("a..b", "1")]%string].
Definition collidingKeyLogs : list (LogEntry (option Z)) :=
  [logWith [("a.b", "1"); ("a_b", "2")]%string;
   logWith [("a.b", "3"); ("a_b", "4")]%string].

(** What holds of every metadata mapping the parser builds: no key twice,
    keys made of key units and never [__proto__], values trimmed. *)
Definition metadataWellFormed (metadata : JsObject.t jsstring) : Prop :=
  NoDup metadata.*1
  /\ forall key value, (key, value) ∈ metadata ->
       Forall (fun c => KEY_CHAR_REGEX c = true) key
       /\ Js.trim value = value
       /\ key <> JsObject.protoKey.

(** A text of the shape of the timestamp segment: four digits, two, two,
    [T], two, two, two, a dot, one digit or more, [Z]. *)
Definition timestampShaped (ts : jsstring) : Prop :=
  exists y mo d h mi s frac,
    ts = y ++ 45%N :: mo ++ 45%N :: d ++ 84%N :: h ++ 58%N :: mi ++ 58%N :: s
           ++ 46%N :: frac ++ [90%N]
    /\ length y = 4 /\ length mo = 2 /\ length d = 2
    /\ length h = 2 /\ length mi = 2 /\ length s = 2 /\ frac <> []
    /\ Forall (fun c => Js.isDigit c = true)
              (y ++ mo ++ d ++ h ++ mi ++ s ++ frac).

(** One whitespace unit or more. *)
Definition whitespaceRun (ws : jsstring) : Prop :=
  ws <> [] /\ Forall (fun c => Js.isWhiteSpace c = true) ws.

(** What stands between the brackets of a block: one unit or more, none
    of them a closing bracket. *)
Definition bracketBody (g : jsstring) : Prop :=
  g <> [] /\ Forall (fun c => notRBracket c = true) g.

(** A line of the four-segment grammar, with its four segments. *)
Definition lineShaped (line ts lvl loc payload : jsstring) : Prop :=
  exists ws1 ws2 ws3,
    line = ts ++ ws1 ++ 91%N :: lvl ++ 93%N :: ws2 ++ 91%N :: loc ++ 93%N
              :: ws3 ++ payload
    /\ timestampShaped ts
    /\ whitespaceRun ws1 /\ whitespaceRun ws2 /\ whitespaceRun ws3
    /\ bracketBody lvl /\ bracketBody loc
    /\ Forall (fun c => notLineTerminator c = true) payload
    /\ (forall c rest, payload = c :: rest -> Js.isWhiteSpace c = false).

(** The items of the timestamp group, of a bracketed block with its
    whitespace, and of the payload with its whitespace. *)
Definition timestampItems : list Regex.item :=
  let d := Js.isDigit in
  [ Open 1; Rep d 4; Lit 45; Rep d 2; Lit 45; Rep d 2; Lit 84;
    Rep d 2; Lit 58; Rep d 2; Lit 58; Rep d 2; Lit 46; Plus d; Lit 90;
    Close 1 ]%N.
Definition blockItems (k : nat) : list Regex.item :=
  [ Plus Js.isWhiteSpace; Lit 91; Open k; Plus notRBracket; Close k; Lit 93 ]%N.
Definition payloadItems : list Regex.item :=
  [ Plus Js.isWhiteSpace; Open 4; Star notLineTerminator; Close 4; Regex.Eol ].

(** The key start of the specification: after the spaces, a run of
    identifier units that is not empty and is followed by [=]. *)
Definition keyStartsAt (block : jsstring) (position : nat) : bool :=
  let keyStart := Js.scanWhile isSpace block position in
  let keyEnd := Js.scanWhile KEY_CHAR_REGEX block keyStart in
  (keyStart <? keyEnd) && Js.charIs block keyEnd 61.

(** A text in which no [=] stands at the very start or right after a
    space: no position the parser looks at has an empty identifier run
    followed by [=]. *)
Definition noEmptyKey (block : jsstring) : Prop :=
  Js.charIs block 0 61 = false
  /\ forall i, Js.charIs block i 32 = true -> Js.charIs block (i + 1) 61 = false.

(** The depth of one kind of bracket after the units of [s], from [depth]:
    one more at each opening bracket, one less at each closing bracket
    that has an open one to close. *)
Fixpoint nesting (opening closing : N) (depth : nat) (s : jsstring) : nat :=
  match s with
  | [] => depth
  | c :: s' =>
      nesting opening closing
        (if (c =? opening)%N then S depth
         else if (c =? closing)%N then pred depth
         else depth) s'
  end.

(** Where the specification ends a value that starts at [startIndex]: at a
    space, outside every bracket opened since [startIndex], with a key
    start after the space. *)
Definition endsValue (block : jsstring) (startIndex i : nat) : Prop :=
  Js.charIs block i 32 = true
  /\ nesting 40 41 0 (Js.slice block startIndex i) = 0
  /\ nesting 91 93 0 (Js.slice block startIndex i) = 0
  /\ nesting 123 125 0 (Js.slice block startIndex i) = 0
  /\ keyStartsAt block (i + 1) = true.

(** The boundaries of the specification: two spaces, or one, and a key
    start after the run of spaces. *)
Definition keyAfterDoubleSpace (payload : jsstring) (i : nat) : Prop :=
  Js.charIs payload i 32 = true /\ Js.charIs payload (i + 1) 32 = true
  /\ keyStartsAt payload (Js.scanWhile isSpace payload i) = true.
Definition keyAfterSingleSpace (payload : jsstring) (i : nat) : Prop :=
  Js.charIs payload i 32 = true
  /\ keyStartsAt payload (Js.scanWhile isSpace payload i) = true.

(** A block and a payload in which an [=] follows a space. *)
Definition emptyKeyBlock : jsstring := js "a=1 =5".
Definition emptyKeyPayload : jsstring := js "retry count = 5".
Definition nestedBlock : jsstring := js "x=(a b=1) y=2".

(** The test of [parseMetadata] after the identifier run it reads from
    [index], the spaces skipped: the run, empty or not, is followed by
    [=]. *)
Definition equalsAfterRun (block : jsstring) (index : nat) : bool :=
  Js.charIs block
    (Js.scanWhile KEY_CHAR_REGEX block (Js.scanWhile isSpace block index)) 61.




(** The metadata keys of the logs in the order [buildFacetView] meets
    them, each as often as it is met. *)
Fixpoint metadataKeys {num : Type} (logs : list (LogEntry num))
  : list jsstring :=
  match logs with
  | [] => []
  | log :: logs' =>
      (JsObject.entries log.(metadata)).*1 ++ metadataKeys logs'
  end.

(** How often a key is met. *)
Definition timesMet (key : jsstring) (keys : list jsstring) : nat :=
  length (filter (fun k => k = key) keys).

(** The columns made for a key. *)
Definition columnsOf (key : jsstring) (cols : list FacetColumn)
  : list FacetColumn :=
  filter (fun c => c.(originalKey) = Some key) cols.

(** The sanitized key as the sentence on the columns derives it, step by
    step: every unit outside [[A-Za-z0-9_]] made an underscore
    ([toUnderscore]); of a run of underscores, one kept ([squeeze]); the
    underscores at both ends dropped ([dropUnderscores], from either
    end); [field] for what is left empty; [f_] put before a digit; the
    whole lowercased. *)
Definition toUnderscore (c : N) : N := if isWordChar c then c else 95%N.

Fixpoint squeeze (afterUnderscore : bool) (s : jsstring) : jsstring :=
  match s with
  | [] => []
  | c :: s' =>
      if (c =? 95)%N
      then (if afterUnderscore then squeeze true s' else c :: squeeze true s')
      else c :: squeeze false s'
  end.

Fixpoint dropUnderscores (s : jsstring) : jsstring :=
  match s with
  | c :: s' => if (c =? 95)%N then dropUnderscores s' else s
  | [] => []
  end.

Definition cleanedKey (key : jsstring) : jsstring :=
  rev (dropUnderscores
         (rev (dropUnderscores (squeeze false (map toUnderscore key))))).

Definition startsWithDigit (s : jsstring) : bool :=
  match s with
  | c :: _ => Js.isDigit c
  | [] => false
  end.

(** The steps together. *)
Definition derivedName (key : jsstring) : jsstring :=
  let cleaned := cleanedKey key in
  let named := if bool_decide (cleaned = []) then js "field" else cleaned in
  map Js.lowerAscii
      (if startsWithDigit named then js "f_" ++ named else named).

(** Two keys of one base name, each met once. *)
Definition collidingOnceLogs : list (LogEntry (option Z)) :=
  [logWith [("a.b", "1"); ("a_b", "2")]%string].

(** Every column of the map is under the base name of its key, one of the
    keys [known]. *)
Definition baseNamed (known : jsstring -> Prop) (m : JsMap.t FacetColumn)
  : Prop :=
  forall n c, (n, c) ∈ m ->
    exists key, known key /\ n = columnBase key /\ c = metadataColumn n key.

(** Pairs written out as [key=value], one space between them. *)
Fixpoint renderPairs (pairs : list (jsstring * jsstring)) : jsstring :=
  match pairs with
  | [] => []
  | (key, value) :: rest =>
      key ++ 61%N :: value
      ++ match rest with [] => [] | _ => 32%N :: renderPairs rest end
  end.

(** A key of identifier units, one at least; a value without whitespace
    and without brackets. *)
Definition plainKey (key : jsstring) : Prop :=
  key <> [] /\ Forall (fun c => KEY_CHAR_REGEX c = true) key.
Definition isBracket (c : N) : bool :=
  ((c =? 40) || (c =? 41) || (c =? 91) || (c =? 93) || (c =? 123)
   || (c =? 125))%N.
Definition plainValue (value : jsstring) : Prop :=
  Forall (fun c => Js.isWhiteSpace c = false /\ isBracket c = false) value.

(** * Properties *)

(** ** Scanning *)

Lemma charIs_lookup (s : jsstring) (i : nat) (c : N) :
  Js.charIs s i c = true <-> s !! i = Some c.
Proof.
  unfold Js.charIs. destruct (s !! i) as [d|]; [|split; discriminate].
  rewrite N.eqb_eq. split; congruence.
Qed.

Lemma charIs_lt (s : jsstring) (i : nat) (c : N) :
  Js.charIs s i c = true -> i < length s.
Proof. rewrite charIs_lookup. apply lookup_lt_Some. Qed.

Lemma runLength_le (p : N -> bool) (s : jsstring) :
  Js.runLength p s <= length s.
Proof. induction s as [|c s IH]; simpl; [lia|]. destruct (p c); simpl; lia. Qed.

Lemma runLength_inside (p : N -> bool) (s : jsstring) (k : nat) (c : N) :
  k < Js.runLength p s -> s !! k = Some c -> p c = true.
Proof.
  revert k. induction s as [|d s IH]; intros k; simpl; [lia|].
  destruct (p d) eqn:Hd; [|lia].
  destruct k as [|k]; simpl; [congruence|]. intros ? ?. apply (IH k); [lia|done].
Qed.

Lemma runLength_stop (p : N -> bool) (s : jsstring) (c : N) :
  s !! Js.runLength p s = Some c -> p c = false.
Proof.
  induction s as [|d s IH]; simpl; [done|].
  destruct (p d) eqn:Hd; simpl; [done|congruence].
Qed.

Lemma scanWhile_ge (p : N -> bool) (s : jsstring) (i : nat) :
  i <= Js.scanWhile p s i.
Proof. unfold Js.scanWhile. lia. Qed.

Lemma scanWhile_le (p : N -> bool) (s : jsstring) (i : nat) :
  i <= length s -> Js.scanWhile p s i <= length s.
Proof.
  unfold Js.scanWhile. intros Hi.
  pose proof (runLength_le p (drop i s)) as H. rewrite length_drop in H. lia.
Qed.

Lemma scanWhile_inside (p : N -> bool) (s : jsstring) (i k : nat) (c : N) :
  i <= k < Js.scanWhile p s i -> s !! k = Some c -> p c = true.
Proof.
  unfold Js.scanWhile. intros [Hik Hk] Hc.
  apply (runLength_inside p (drop i s) (k - i)); [lia|].
  rewrite lookup_drop. replace (i + (k - i)) with k by lia. done.
Qed.

Lemma scanWhile_stop (p : N -> bool) (s : jsstring) (i : nat) (c : N) :
  s !! Js.scanWhile p s i = Some c -> p c = false.
Proof.
  unfold Js.scanWhile. intros Hc. apply (runLength_stop p (drop i s)).
  by rewrite lookup_drop.
Qed.

Lemma scanWhile_here (p : N -> bool) (s : jsstring) (i : nat) (c : N) :
  s !! i = Some c -> p c = true ->
  Js.scanWhile p s i = Js.scanWhile p s (S i).
Proof.
  unfold Js.scanWhile. intros Hc Hp.
  rewrite (drop_S _ _ _ Hc). simpl. rewrite Hp. lia.
Qed.

Lemma scanWhile_not (p : N -> bool) (s : jsstring) (i : nat) (c : N) :
  s !! i = Some c -> p c = false -> Js.scanWhile p s i = i.
Proof.
  unfold Js.scanWhile. intros Hc Hp.
  rewrite (drop_S _ _ _ Hc). simpl. rewrite Hp. lia.
Qed.

Lemma scanWhile_end (p : N -> bool) (s : jsstring) (i : nat) :
  length s <= i -> Js.scanWhile p s i = i.
Proof. unfold Js.scanWhile. intros Hi. rewrite drop_ge by done. simpl. lia. Qed.

(** A space just before [i + 1] changes nothing for the look-ahead. *)
Lemma isKeyAhead_skip_space (block : jsstring) (i : nat) :
  Js.charIs block i 32 = true ->
  isKeyAhead block i = isKeyAhead block (i + 1).
Proof.
  intros H%charIs_lookup. unfold isKeyAhead.
  rewrite (scanWhile_here isSpace block i 32 H eq_refl).
  by replace (i + 1) with (S i) by lia.
Qed.

(** ** [readValue] *)

Lemma slice_cons (s : jsstring) (i j : nat) (c : N) :
  s !! i = Some c -> i < j -> Js.slice s i j = c :: Js.slice s (S i) j.
Proof.
  intros Hc Hij. unfold Js.slice. rewrite (drop_S _ _ _ Hc).
  replace (j - i) with (S (j - S i)) by lia. done.
Qed.

Lemma slice_empty (s : jsstring) (i : nat) : Js.slice s i i = [].
Proof. unfold Js.slice. by rewrite Nat.sub_diag. Qed.

Lemma bumpDepth_space (depth : nat * nat * nat) : bumpDepth 32 depth = depth.
Proof. by destruct depth as [[? ?] ?]. Qed.

Lemma depthFrom_here (depth : nat * nat * nat) (block : jsstring)
    (index : nat) (c : N) :
  block !! index = Some c ->
  depthFrom depth block index index = bumpDepth c depth.
Proof.
  intros Hc. unfold depthFrom.
  rewrite (slice_cons _ _ _ _ Hc) by lia.
  replace (index + 1) with (S index) by lia. by rewrite slice_empty.
Qed.

Lemma depthFrom_step (depth : nat * nat * nat) (block : jsstring)
    (from index : nat) (c : N) :
  block !! from = Some c -> from < index ->
  depthFrom depth block from index
  = depthFrom (bumpDepth c depth) block (from + 1) index.
Proof.
  intros Hc Hlt. unfold depthFrom.
  rewrite (slice_cons _ _ _ _ Hc) by lia.
  by replace (from + 1) with (S from) by lia.
Qed.

Lemma readValue_loop_spec (block : jsstring) :
  forall (rest : jsstring) (index : nat) (depth : nat * nat * nat),
    drop index block = rest ->
    let next := readValue_loop block rest index depth in
    index <= next <= index + length rest
    /\ (forall i, index <= i < next -> ~ stopsAt depth block index i)
    /\ (stopsAt depth block index next
        \/ next = index + length rest
           /\ forall i, index <= i -> ~ stopsAt depth block index i).
Proof.
  induction rest as [|c rest IH]; intros index depth Hdrop; simpl.
  - split; [lia|]. split; [intros; lia|]. right. split; [lia|].
    intros i Hi [Hc _]. apply charIs_lt in Hc.
    apply (f_equal length) in Hdrop. rewrite length_drop in Hdrop.
    simpl in Hdrop. lia.
  - assert (Hc : block !! index = Some c).
    { rewrite <- (Nat.add_0_r index), <- lookup_drop, Hdrop. done. }
    assert (Hrest : drop (index + 1) block = rest).
    { replace (index + 1) with (S index) by lia.
      rewrite (drop_S _ _ _ Hc) in Hdrop. congruence. }
    destruct (isSpace c && depthZero (bumpDepth c depth)
              && isKeyAhead block (index + 1)) eqn:Hstop.
    + split; [lia|]. split; [intros; lia|]. left.
      apply andb_prop in Hstop as [[Hsp Hz]%andb_prop Hk].
      unfold isSpace in Hsp. apply N.eqb_eq in Hsp. subst c.
      split; [by apply charIs_lookup|].
      split; [|done]. by rewrite (depthFrom_here _ _ _ _ Hc).
    + specialize (IH (index + 1) (bumpDepth c depth) Hrest).
      simpl in IH. destruct IH as (Hrange & Hbefore & Hat).
      assert (Hhere : ~ stopsAt depth block index index).
      { intros (Hsp & Hz & Hk).
        apply charIs_lookup in Hsp.
        assert (c = 32%N) by congruence. subst c.
        rewrite (depthFrom_here _ _ _ _ Hc) in Hz.
        rewrite Hz, Hk in Hstop. done. }
      assert (Hshift : forall i, index + 1 <= i ->
                stopsAt depth block index i
                <-> stopsAt (bumpDepth c depth) block (index + 1) i).
      { intros i Hi. unfold stopsAt.
        rewrite (depthFrom_step depth block index i c Hc) by lia. done. }
      split; [lia|]. split.
      * intros i Hi. destruct (decide (i = index)) as [->|Hne]; [done|].
        rewrite Hshift by lia. apply Hbefore. lia.
      * destruct Hat as [Hat|[Hend Hnone]].
        -- left. apply Hshift; [lia|done].
        -- right. split; [lia|]. intros i Hi.
           destruct (decide (i = index)) as [->|Hne]; [done|].
           rewrite Hshift by lia. apply Hnone. lia.
Qed.

(** ** [parseMetadata] *)

Lemma readValue_next_ge (block : jsstring) (startIndex : nat) :
  startIndex <= (readValue block startIndex).2.
Proof.
  unfold readValue. simpl.
  pose proof (readValue_loop_spec block (drop startIndex block) startIndex
                (0, 0, 0) eq_refl) as (Hrange & _).
  simpl in Hrange. lia.
Qed.

(** One round of the loop. *)
Lemma parseMetadata_loop_round (fuel : nat) (block : jsstring) (index : nat)
    (metadata : JsObject.t jsstring) :
  parseMetadata_loop (S fuel) block index metadata
  = if length block <=? index then metadata
    else
      let keyStart := Js.scanWhile isSpace block index in
      let keyEnd := Js.scanWhile KEY_CHAR_REGEX block keyStart in
      if (length block <=? keyEnd) || negb (Js.charIs block keyEnd 61)
      then metadata
      else
        parseMetadata_loop fuel block (readValue block (keyEnd + 1)).2
          (JsObject.set (Js.slice block keyStart keyEnd)
             (Js.trim (readValue block (keyEnd + 1)).1) metadata).
Proof.
  simpl. destruct (length block <=? index); [done|].
  by destruct (_ || _).
Qed.

(** The fuel of [parseMetadata] is enough: any fuel above the distance to
    the end of the block gives the same result, so the loop never stops for
    want of fuel. *)
Lemma parseMetadata_loop_fuel (block : jsstring) :
  forall (fuel fuel' index : nat) (metadata : JsObject.t jsstring),
    length block - index < fuel -> length block - index < fuel' ->
    parseMetadata_loop fuel block index metadata
    = parseMetadata_loop fuel' block index metadata.
Proof.
  induction fuel as [|fuel IH]; intros fuel' index metadata Hf Hf'; [lia|].
  destruct fuel' as [|fuel']; [lia|]. rewrite !parseMetadata_loop_round.
  destruct (length block <=? index) eqn:Hend; [done|].
  apply Nat.leb_gt in Hend. cbv zeta.
  set (keyStart := Js.scanWhile isSpace block index).
  set (keyEnd := Js.scanWhile KEY_CHAR_REGEX block keyStart).
  destruct ((length block <=? keyEnd) || negb (Js.charIs block keyEnd 61))
    eqn:Hbreak; [done|].
  apply orb_false_elim in Hbreak as [Hlen%Nat.leb_gt _].
  pose proof (readValue_next_ge block (keyEnd + 1)) as Hnext.
  pose proof (scanWhile_ge isSpace block index : index <= keyStart).
  pose proof (scanWhile_ge KEY_CHAR_REGEX block keyStart : keyStart <= keyEnd).
  clearbody keyStart keyEnd. apply IH; lia.
Qed.

(** ** [findMetadataStart] *)

Lemma forReturn_seq_Some (body : nat -> option nat) (i r : nat) :
  forall (from len : nat),
    from <= i < from + len ->
    body i = Some r ->
    (forall k, from <= k < i -> body k = None) ->
    forReturn (seq from len) body = Some r.
Proof.
  intros from len. revert from.
  induction len as [|len IH]; intros from Hi Hbody Hnone; [lia|]. simpl.
  destruct (decide (from = i)) as [->|Hne]; [by rewrite Hbody|].
  rewrite Hnone by lia. apply IH; [lia|done|]. intros k Hk. apply Hnone. lia.
Qed.

Lemma forReturn_seq_None (body : nat -> option nat) :
  forall (from len : nat),
    (forall k, from <= k < from + len -> body k = None) ->
    forReturn (seq from len) body = None.
Proof.
  intros from len. revert from.
  induction len as [|len IH]; intros from Hnone; [done|]. simpl.
  rewrite Hnone by lia. apply IH. intros k Hk. apply Hnone. lia.
Qed.

(** The bodies of the two loops, against the boundaries they look for. *)
Lemma doubleSpace_body (payload : jsstring) (i : nat) :
  (if negb (Js.charIs payload i 32) || negb (Js.charIs payload (i + 1) 32)
   then None else boundaryAfter payload i)
  = if decide (doubleSpaceBoundary payload i)
    then Some (Js.scanWhile isSpace payload i) else None.
Proof.
  destruct (decide (doubleSpaceBoundary payload i)) as [Hb|Hb];
    unfold doubleSpaceBoundary, boundaryAfter in *;
    destruct (Js.charIs payload i 32), (Js.charIs payload (i + 1) 32),
      (isKeyAhead payload (Js.scanWhile isSpace payload i)); simpl;
    intuition congruence.
Qed.

Lemma singleSpace_body (payload : jsstring) (i : nat) :
  (if negb (Js.charIs payload i 32) then None else boundaryAfter payload i)
  = if decide (singleSpaceBoundary payload i)
    then Some (Js.scanWhile isSpace payload i) else None.
Proof.
  destruct (decide (singleSpaceBoundary payload i)) as [Hb|Hb];
    unfold singleSpaceBoundary, boundaryAfter in *;
    destruct (Js.charIs payload i 32),
      (isKeyAhead payload (Js.scanWhile isSpace payload i)); simpl;
    intuition congruence.
Qed.

Lemma findMetadataStart_double (payload : jsstring) (i : nat) :
  isKeyAhead payload 0 = false ->
  doubleSpaceBoundary payload i ->
  (forall k, k < i -> ~ doubleSpaceBoundary payload k) ->
  findMetadataStart payload = Some (Js.scanWhile isSpace payload i).
Proof.
  intros H0 Hi Hfirst. unfold findMetadataStart. rewrite H0.
  rewrite (forReturn_seq_Some _ i (Js.scanWhile isSpace payload i)); [done|..].
  - destruct Hi as (_ & H1%charIs_lt & _). lia.
  - rewrite doubleSpace_body. by rewrite decide_True.
  - intros k Hk. rewrite doubleSpace_body. rewrite decide_False; [done|].
    apply Hfirst. lia.
Qed.

Lemma findMetadataStart_single (payload : jsstring) (i : nat) :
  isKeyAhead payload 0 = false ->
  (forall k, ~ doubleSpaceBoundary payload k) ->
  singleSpaceBoundary payload i ->
  (forall k, k < i -> ~ singleSpaceBoundary payload k) ->
  findMetadataStart payload = Some (Js.scanWhile isSpace payload i).
Proof.
  intros H0 Hnodouble Hi Hfirst. unfold findMetadataStart. rewrite H0.
  rewrite forReturn_seq_None.
  2:{ intros k _. rewrite doubleSpace_body. by rewrite decide_False. }
  apply (forReturn_seq_Some _ i).
  - destruct Hi as (H1%charIs_lt & _). lia.
  - rewrite singleSpace_body. by rewrite decide_True.
  - intros k Hk. rewrite singleSpace_body. rewrite decide_False; [done|].
    apply Hfirst. lia.
Qed.

Lemma findMetadataStart_none (payload : jsstring) :
  isKeyAhead payload 0 = false ->
  (forall k, ~ singleSpaceBoundary payload k) ->
  findMetadataStart payload = None.
Proof.
  intros H0 Hnone. unfold findMetadataStart. rewrite H0.
  rewrite forReturn_seq_None.
  2:{ intros k _. rewrite doubleSpace_body. rewrite decide_False; [done|].
      intros (H1 & _ & H3). by apply (Hnone k). }
  apply forReturn_seq_None.
  intros k _. rewrite singleSpace_body. by rewrite decide_False.
Qed.

(** ** The line pattern *)

Lemma greedy_Some {R} (try : nat -> option R) (lo n : nat) (r : R) :
  Regex.greedy try lo n = Some r ->
  exists k, lo <= k <= n /\ try k = Some r.
Proof.
  induction n as [|n IH]; simpl.
  - destruct lo; simpl; [|done].
    destruct (try 0) eqn:H0; [|done]. intros [= ->]. exists 0. split; [lia|done].
  - destruct (S n <? lo) eqn:Hlo; [done|]. apply Nat.ltb_ge in Hlo.
    destruct (try (S n)) eqn:HS.
    + intros [= ->]. exists (S n). split; [lia|done].
    + intros (k & Hk & Hr)%IH. exists k. split; [lia|done].
Qed.

(** A successful run adds one capture per closing marker. *)
Lemma run_captures (input : jsstring) :
  forall (items : list Regex.item) (pos : nat) (opens : list (nat * nat))
         (caps res : list jsstring),
    Regex.run items input pos opens caps = Some res ->
    length res = length caps + Regex.groupCount items.
Proof.
  induction items as [|it items IH]; intros pos opens caps res; simpl.
  - intros [= ->]. lia.
  - destruct it; simpl.
    + destruct (pos =? 0); [|done]. by intros H%IH.
    + destruct (pos =? length input); [|done]. by intros H%IH.
    + destruct (Js.charIs input pos c); [|done]. by intros H%IH.
    + destruct (_ <=? _); [|done]. by intros H%IH.
    + by intros (k & _ & H%IH)%greedy_Some.
    + by intros (k & _ & H%IH)%greedy_Some.
    + by intros H%IH.
    + intros H%IH. rewrite H, length_app. simpl. lia.
Qed.

Lemma firstMatch_Some (items : list Regex.item) (input : jsstring)
    (starts : list nat) (res : list jsstring) :
  Regex.firstMatch items input starts = Some res ->
  exists p, Regex.run items input p [] [] = Some res.
Proof.
  induction starts as [|p starts IH]; simpl; [done|].
  destruct (Regex.run items input p [] []) eqn:Hrun; [|done].
  intros [= ->]. eauto.
Qed.

(** A match of the line pattern has its four groups, no more, no fewer. *)
Lemma LOG_LINE_REGEX_groups (line : jsstring) (caps : list jsstring) :
  Regex.exec LOG_LINE_REGEX line = Some caps ->
  exists timestampRaw levelRaw locationRaw payload,
    caps = [timestampRaw; levelRaw; locationRaw; payload].
Proof.
  intros (p & Hrun%run_captures)%firstMatch_Some.
  simpl in Hrun.
  destruct caps as [|a [|b [|c [|d [|e caps]]]]]; simpl in Hrun; try lia.
  eauto.
Qed.

Lemma lastIndexOf_go_None (s : jsstring) (c : N) :
  forall (i : nat) (found : option nat),
    Js.lastIndexOf_go s c i found = None <-> found = None /\ c ∉ s.
Proof.
  induction s as [|d s IH]; intros i found; simpl.
  - split; [intros ->; split; [done|apply not_elem_of_nil]|tauto].
  - rewrite IH. rewrite not_elem_of_cons.
    destruct (N.eqb_spec d c) as [->|Hne]; [|intuition congruence].
    split; [intros [[=] _]|intros (_ & [] & _); done].
Qed.

Lemma lastIndexOf_None (s : jsstring) (c : N) :
  Js.lastIndexOf s c = None <-> c ∉ s.
Proof. unfold Js.lastIndexOf. rewrite lastIndexOf_go_None. tauto. Qed.

Section ParserProperties.

Context {num : Type}.
Variable Date_parse : jsstring -> option Z.
Variable toLowerCase : jsstring -> jsstring.
Variable Number : jsstring -> num.

Abbreviation parseLine' := (parseLine Date_parse toLowerCase Number).
Abbreviation parseLogText' := (parseLogText Date_parse toLowerCase Number).

(** What [parseLine] returns on a match, field by field. *)
Lemma parseLine_match (line : jsstring) (index : nat)
    (tsRaw levelRaw locationRaw payload : jsstring) :
  Regex.exec LOG_LINE_REGEX line
  = Some [tsRaw; levelRaw; locationRaw; payload] ->
  parseLine' line index
  = Some {| id := tsRaw ++ 45%N :: Js.decimal index;
            raw := line;
            timestampRaw := tsRaw;
            timestamp := Date_parse tsRaw;
            level := toLowerCase (Js.trim levelRaw);
            sourceFile := (parseLocation Number locationRaw).1;
            sourceLine := (parseLocation Number locationRaw).2;
            message := (splitPayload payload).1;
            metadata := (splitPayload payload).2 |}.
Proof.
  intros Hm. unfold parseLine. rewrite Hm.
  destruct (parseLocation Number locationRaw), (splitPayload payload). done.
Qed.

(** [parseLine] rejects a line exactly when the pattern does not match. *)
Lemma parseLine_None (line : jsstring) (index : nat) :
  parseLine' line index = None <-> Regex.exec LOG_LINE_REGEX line = None.
Proof.
  split.
  - destruct (Regex.exec LOG_LINE_REGEX line) as [caps|] eqn:Hm; [|done].
    destruct (LOG_LINE_REGEX_groups _ _ Hm) as (a & b & c & d & ->).
    by rewrite (parseLine_match _ _ _ _ _ _ Hm).
  - intros Hm. unfold parseLine. by rewrite Hm.
Qed.

(** C10.  A matched line whose source block holds no colon gives an
    entry; its [sourceFile] is the whole block trimmed and its [sourceLine]
    is null. *)
Theorem source_without_colon_accepted (line : jsstring) (index : nat)
    (tsRaw levelRaw locationRaw payload : jsstring) :
  Regex.exec LOG_LINE_REGEX line
  = Some [tsRaw; levelRaw; locationRaw; payload] ->
  58%N ∉ locationRaw ->
  exists entry,
    parseLine' line index = Some entry
    /\ entry.(sourceFile) = Js.trim locationRaw
    /\ entry.(sourceLine) = None.
Proof.
  intros Hm Hcolon. rewrite (parseLine_match _ _ _ _ _ _ Hm).
  eexists. split; [done|]. simpl. unfold parseLocation.
  apply lastIndexOf_None in Hcolon. by rewrite Hcolon.
Qed.

End ParserProperties.

Lemma source_without_colon_accepted_witness :
  exists entry,
    parseLine Ref.Date_parse Ref.toLowerCase Ref.Number noColonLine 3
    = Some entry
    /\ entry.(sourceFile) = js "worker"
    /\ entry.(sourceLine) = None.
Proof.
  refine (source_without_colon_accepted
            Ref.Date_parse Ref.toLowerCase Ref.Number noColonLine 3
            (js "2024-04-12T05:41:11.337Z") (js "info") (js " worker ")
            (js "started") _ _).
  - vm_compute; reflexivity.
  - intros Hin. vm_compute in Hin. by repeat apply elem_of_cons in Hin as [Hin|Hin];
      [..|apply elem_of_nil in Hin].
Defined.

(** C5.  What the code does with a line that ends right after its source
    block: the pattern asks for whitespace after the block, a trimmed line
    has none there, so the line does not match and is counted as skipped.
    Only with whitespace left after the block (which [parseLogText] always
    trims away) does the line match, with the empty payload, the empty
    message and no metadata. *)
Theorem empty_payload_line_is_skipped {num : Type}
    (Date_parse : jsstring -> option Z) (toLowerCase : jsstring -> jsstring)
    (Number : jsstring -> num) :
  Regex.exec LOG_LINE_REGEX emptyPayloadLine = None
  /\ parseLine Date_parse toLowerCase Number emptyPayloadLine 0 = None
  /\ parseLogText Date_parse toLowerCase Number emptyPayloadLine
     = {| entries := []; skipped := 1 |}
  /\ parseLogText Date_parse toLowerCase Number (emptyPayloadLine ++ js " ")
     = {| entries := []; skipped := 1 |}
  /\ Regex.exec LOG_LINE_REGEX (emptyPayloadLine ++ js " ")
     = Some [js "2024-04-12T05:41:11.337Z"; js "info"; js "a.py:1"; []]
  /\ splitPayload [] = ([], JsObject.empty).
Proof.
  assert (Hm : Regex.exec LOG_LINE_REGEX emptyPayloadLine = None)
    by (vm_compute; reflexivity).
  assert (Ht : Js.trim (emptyPayloadLine ++ js " ") = emptyPayloadLine)
    by (vm_compute; reflexivity).
  assert (Ht' : Js.trim emptyPayloadLine = emptyPayloadLine)
    by (vm_compute; reflexivity).
  assert (Hp : forall i, parseLine Date_parse toLowerCase Number
                           emptyPayloadLine i = None).
  { intros i. unfold parseLine. by rewrite Hm. }
  assert (Hl : Js.splitLines emptyPayloadLine = [emptyPayloadLine])
    by (vm_compute; reflexivity).
  assert (Hl' : Js.splitLines (emptyPayloadLine ++ js " ")
                = [emptyPayloadLine ++ js " "])
    by (vm_compute; reflexivity).
  split; [done|]. split; [done|].
  split; [|split; [|split; [vm_compute; reflexivity|done]]].
  - unfold parseLogText. rewrite Hl. cbn [forEach].
    unfold parseLogText_step. cbv zeta. rewrite Ht', Hp.
    by rewrite bool_decide_eq_false_2.
  - unfold parseLogText. rewrite Hl'. cbn [forEach].
    unfold parseLogText_step. cbv zeta. rewrite Ht, Hp.
    by rewrite bool_decide_eq_false_2.
Qed.

(** C6.  What the code does with an empty identifier run: [isKeyAhead]
    holds exactly when the unit after the run is [=], and does not ask the
    run to have a unit.  On the payload [=5] it finds a key start at
    position 0: the message is empty and the metadata has the pair of the
    empty key and [5]. *)
Theorem empty_key_counts_as_key_start {num : Type}
    (Date_parse : jsstring -> option Z) (toLowerCase : jsstring -> jsstring)
    (Number : jsstring -> num) :
  (forall block start,
     isKeyAhead block start
     = Js.charIs block
         (Js.scanWhile KEY_CHAR_REGEX block (Js.scanWhile isSpace block start))
         61)
  /\ isKeyAhead (js "=5") 0 = true
  /\ findMetadataStart (js "=5") = Some 0
  /\ splitPayload (js "=5") = ([], [([], js "5")])
  /\ (exists entry,
        parseLine Date_parse toLowerCase Number emptyKeyLine 0 = Some entry
        /\ entry.(message) = []
        /\ entry.(metadata) = [([], js "5")]).
Proof.
  split; [|split; [|split; [|split]]]; try (vm_compute; reflexivity).
  - intros block start. unfold isKeyAhead.
    set (keyStart := Js.scanWhile isSpace block start).
    set (keyEnd := Js.scanWhile KEY_CHAR_REGEX block keyStart).
    destruct (Js.charIs block keyEnd 61) eqn:Hc;
      [|by rewrite andb_false_r].
    apply charIs_lt in Hc.
    pose proof (scanWhile_ge KEY_CHAR_REGEX block keyStart : keyStart <= keyEnd).
    apply Nat.ltb_lt in Hc as Hc'. rewrite Hc'.
    assert (Hk : (keyStart <? length block) = true) by (apply Nat.ltb_lt; lia).
    by rewrite Hk.
  - rewrite (parseLine_match Date_parse toLowerCase Number emptyKeyLine 0
               (js "2024-04-12T05:41:11.337Z") (js "info") (js "a.py:1")
               (js "=5")) by (vm_compute; reflexivity).
    eexists. split; [done|]. split; vm_compute; reflexivity.
Qed.

(** ** [splitLines] *)

Lemma elem_of_rev (x : N) (l : jsstring) : x ∈ rev l <-> x ∈ l.
Proof. rewrite !list_elem_of_In. symmetry. apply in_rev. Qed.

Lemma splitLines_go_spec :
  forall (s cur : jsstring) (cr : bool),
    10%N ∉ cur ->
    (cr = false -> head cur <> Some 13%N) ->
    exists breaks,
      length (Js.splitLines_go s cur cr) = S (length breaks)
      /\ Forall isLineBreak breaks
      /\ joinLines (Js.splitLines_go s cur cr) breaks
         = rev cur ++ (if cr then [13%N] else []) ++ s
      /\ Forall (fun line => 10%N ∉ line) (Js.splitLines_go s cur cr)
      /\ (forall i line, Js.splitLines_go s cur cr !! i = Some line ->
            breaks !! i = Some [10%N] -> forall line', line <> line' ++ [13%N]).
Proof.
  induction s as [|c s IH]; intros cur cr Hlf Hcr.
  - exists []. simpl. split; [done|]. split; [constructor|].
    split; [|split].
    + destruct cr; simpl; by rewrite ?app_nil_r.
    + constructor; [|constructor]. destruct cr; simpl.
      * rewrite elem_of_app, elem_of_rev, list_elem_of_singleton. intros [?|?]; done.
      * by rewrite elem_of_rev.
    + intros i line _ Hb. by rewrite lookup_nil in Hb.
  - simpl. destruct (N.eqb_spec c 10) as [->|Hc10].
    + destruct (IH [] false) as (breaks & Hlen & Hbr & Hjoin & Hnolf & Hbare).
      { apply not_elem_of_nil. } { done. }
      exists ((if cr then [13%N; 10%N] else [10%N]) :: breaks).
      split; [simpl; lia|]. split.
      { constructor; [|done]. destruct cr; [by right|by left]. }
      split; [|split].
      * simpl. rewrite Hjoin. simpl. destruct cr; simpl; by rewrite <- ?app_assoc.
      * constructor; [by rewrite elem_of_rev|done].
      * intros [|i] line; simpl.
        -- intros [= <-] Hb line' Hline. destruct cr; [done|].
           apply (f_equal (@rev N)) in Hline.
           rewrite rev_involutive, rev_app_distr in Hline. simpl in Hline.
           apply Hcr; [done|]. by rewrite Hline.
        -- apply Hbare.
    + destruct (N.eqb_spec c 13) as [->|Hc13].
      * destruct (IH (if cr then 13%N :: cur else cur) true)
          as (breaks & Hlen & Hbr & Hjoin & Hnolf & Hbare).
        { destruct cr; [|done]. rewrite not_elem_of_cons. done. }
        { done. }
        exists breaks. split; [done|]. split; [done|].
        split; [|done]. rewrite Hjoin.
        destruct cr; simpl; rewrite <- ?app_assoc; done.
      * destruct (IH (c :: if cr then 13%N :: cur else cur) false)
          as (breaks & Hlen & Hbr & Hjoin & Hnolf & Hbare).
        { rewrite not_elem_of_cons. split; [done|].
          destruct cr; [|done]. rewrite not_elem_of_cons. done. }
        { intros _. simpl. congruence. }
        exists breaks. split; [done|]. split; [done|].
        split; [|done]. rewrite Hjoin.
        destruct cr; simpl; rewrite <- ?app_assoc; done.
Qed.

(** [splitLines] cuts the text at its line breaks and nowhere else: the
    lines, put back together with line breaks between them, are the text;
    no line holds a line feed; and a bare line feed is one that no carriage
    return stands before. *)
Lemma splitLines_spec (raw : jsstring) :
  exists breaks,
    length (Js.splitLines raw) = S (length breaks)
    /\ Forall isLineBreak breaks
    /\ joinLines (Js.splitLines raw) breaks = raw
    /\ Forall (fun line => 10%N ∉ line) (Js.splitLines raw)
    /\ (forall i line, Js.splitLines raw !! i = Some line ->
          breaks !! i = Some [10%N] -> forall line', line <> line' ++ [13%N]).
Proof.
  destruct (splitLines_go_spec raw [] false) as (breaks & H);
    [apply not_elem_of_nil|done|]. by exists breaks.
Qed.

(** ** [parseLogText] *)

Lemma digitsOfUint_inj (u v : Decimal.uint) :
  Js.digitsOfUint u = Js.digitsOfUint v -> u = v.
Proof.
  revert v. induction u; intros []; simpl; try discriminate; try done;
    intros [= H]; f_equal; by apply IHu.
Qed.

Lemma digitsOfUint_no_dash (u : Decimal.uint) : 45%N ∉ Js.digitsOfUint u.
Proof.
  induction u; simpl; [apply not_elem_of_nil|..];
    rewrite not_elem_of_cons; (split; [discriminate|done]).
Qed.

Lemma decimal_inj (m n : nat) : Js.decimal m = Js.decimal n -> m = n.
Proof. intros H%digitsOfUint_inj. by apply Unsigned.to_uint_inj. Qed.

(** What follows the last occurrence of a unit determines itself. *)
Lemma after_last_inj (x : N) :
  forall (a a' b b' : jsstring),
    x ∉ b -> x ∉ b' -> a ++ x :: b = a' ++ x :: b' -> b = b'.
Proof.
  induction a as [|y a IH]; intros [|y' a'] b b' Hb Hb'; simpl.
  - congruence.
  - intros [= Hx Heq]. exfalso. apply Hb. rewrite Heq, elem_of_app, elem_of_cons. tauto.
  - intros [= Hx Heq]. exfalso. apply Hb'. rewrite <- Heq, elem_of_app, elem_of_cons. tauto.
  - intros [= Hy Heq]. by apply (IH a' b b').
Qed.

(** The id of a line tells its index. *)
Lemma id_index_inj (ts ts' : jsstring) (i i' : nat) :
  ts ++ 45%N :: Js.decimal i = ts' ++ 45%N :: Js.decimal i' -> i = i'.
Proof.
  intros H. apply decimal_inj.
  apply (after_last_inj 45 ts ts'); [apply digitsOfUint_no_dash..|done].
Qed.

Section BatchProperties.

Context {num : Type}.
Variable Date_parse : jsstring -> option Z.
Variable toLowerCase : jsstring -> jsstring.
Variable Number : jsstring -> num.

Abbreviation parseLine'' := (parseLine Date_parse toLowerCase Number).
Abbreviation parseLogText'' := (parseLogText Date_parse toLowerCase Number).

Abbreviation parseNumbered' := (parseNumbered Date_parse toLowerCase Number).

Lemma forEach_step_spec :
  forall (lines : list jsstring) (index : nat)
         (entries : list (LogEntry num)) (skipped : nat),
    forEach (parseLogText_step Date_parse toLowerCase Number) lines index
            (entries, skipped)
    = (entries ++ omap parseNumbered' (filter nonBlank (numberedFrom index lines)),
       skipped
       + length (filter (fun il => parseNumbered' il = None)
                        (filter nonBlank (numberedFrom index lines)))).
Proof.
  induction lines as [|line lines IH]; intros index entries skipped.
  - simpl. by rewrite app_nil_r, Nat.add_0_r.
  - cbn [forEach]. unfold parseLogText_step at 2. cbv zeta.
    change (numberedFrom index (line :: lines))
      with ((index, line) :: numberedFrom (S index) lines).
    case_bool_decide as Hblank.
    + rewrite IH. by rewrite filter_cons_False by (unfold nonBlank; naive_solver).
    + rewrite filter_cons_True by done.
      change (parseLine Date_parse toLowerCase Number (Js.trim line) index)
        with (parseNumbered' (index, line)).
      destruct (parseNumbered' (index, line)) as [parsed|] eqn:Hp.
      * rewrite IH. cbn [omap list_omap]. rewrite Hp.
        rewrite filter_cons_False by (rewrite Hp; done).
        by rewrite <- app_assoc.
      * rewrite IH. cbn [omap list_omap]. rewrite Hp.
        rewrite filter_cons_True by done. simpl. f_equal. lia.
Qed.

Lemma omap_filter_None_length {A B} (f : A -> option B) (l : list A) :
  length (omap f l) + length (filter (fun a => f a = None) l) = length l.
Proof.
  induction l as [|a l IH]; [done|]. cbn [omap list_omap].
  destruct (f a) eqn:Hf.
  - rewrite filter_cons_False by (rewrite Hf; done). simpl. lia.
  - rewrite filter_cons_True by done. simpl. lia.
Qed.

Lemma parseLogText_spec (raw : jsstring) :
  let numbered := filter nonBlank (numberedFrom 0 (Js.splitLines raw)) in
  (parseLogText'' raw).(entries) = omap parseNumbered' numbered
  /\ (parseLogText'' raw).(skipped)
     = length (filter (fun il => parseNumbered' il = None) numbered).
Proof.
  unfold parseLogText. rewrite forEach_step_spec. done.
Qed.

Lemma numberedFrom_cons (index : nat) (line : jsstring) (lines : list jsstring) :
  numberedFrom index (line :: lines)
  = (index, line) :: numberedFrom (S index) lines.
Proof. done. Qed.

Lemma numberedFrom_elem (lines : list jsstring) :
  forall (index i : nat) (line : jsstring),
    (i, line) ∈ numberedFrom index lines ->
    index <= i /\ lines !! (i - index) = Some line.
Proof.
  induction lines as [|l lines IH]; intros index i line.
  - intros H. by apply elem_of_nil in H.
  - rewrite numberedFrom_cons, elem_of_cons. intros [[= -> ->]|H].
    + split; [lia|]. by rewrite Nat.sub_diag.
    + apply IH in H as [Hle Hl]. split; [lia|].
      replace (i - index) with (S (i - S index)) by lia. done.
Qed.

Lemma numberedFrom_fst (lines : list jsstring) (index : nat) :
  (numberedFrom index lines).*1 = seq index (length lines).
Proof. unfold numberedFrom. apply fst_zip. by rewrite length_seq. Qed.

Lemma nonBlank_count (lines : list jsstring) :
  forall index,
    length (filter nonBlank (numberedFrom index lines))
    = length (filter (fun line => Js.trim line <> []) lines).
Proof.
  induction lines as [|l lines IH]; intros index; [done|].
  rewrite numberedFrom_cons.
  destruct (decide (Js.trim l = [])) as [Hb|Hb].
  - rewrite !filter_cons_False by (unfold nonBlank; naive_solver). apply IH.
  - rewrite !filter_cons_True by done. simpl. by rewrite IH.
Qed.

(** C1.  The text is cut at its line breaks, bare or with a carriage
    return before the line feed.  Of the lines so obtained, taken with
    their indices and in their order, the blank ones are left out; the
    entries are what the line parser returns on the others, in order, and
    [skipped] counts those on which it returns nothing.  So the entries
    and [skipped] together are as many as the lines that are not blank. *)
Theorem parseLogText_accounts_for_every_line (raw : jsstring) :
  let lines := Js.splitLines raw in
  let numbered := filter nonBlank (numberedFrom 0 lines) in
  let result := parseLogText'' raw in
  (exists breaks,
     length lines = S (length breaks)
     /\ Forall isLineBreak breaks
     /\ joinLines lines breaks = raw
     /\ Forall (fun line => 10%N ∉ line) lines
     /\ (forall i line, lines !! i = Some line ->
           breaks !! i = Some [10%N] -> forall line', line <> line' ++ [13%N]))
  /\ result.(entries) = omap parseNumbered' numbered
  /\ result.(skipped)
     = length (filter (fun il => parseNumbered' il = None) numbered)
  /\ length result.(entries) + result.(skipped)
     = length (filter (fun line => Js.trim line <> []) lines).
Proof.
  intros lines numbered result.
  destruct (parseLogText_spec raw) as [He Hs].
  split; [apply splitLines_spec|]. split; [done|]. split; [done|].
  subst result. rewrite He, Hs, omap_filter_None_length.
  apply nonBlank_count.
Qed.

Lemma parseLine_id (line : jsstring) (index : nat) (entry : LogEntry num) :
  parseLine'' line index = Some entry ->
  entry.(id) = entry.(timestampRaw) ++ 45%N :: Js.decimal index.
Proof.
  destruct (Regex.exec LOG_LINE_REGEX line) as [caps|] eqn:Hm.
  - destruct (LOG_LINE_REGEX_groups _ _ Hm) as (a & b & c & d & ->).
    rewrite (parseLine_match _ _ _ _ _ _ _ _ _ Hm). by intros [= <-].
  - unfold parseLine. by rewrite Hm.
Qed.

Lemma ids_NoDup (l : list (nat * jsstring)) :
  NoDup l.*1 -> NoDup (id <$> omap parseNumbered' l).
Proof.
  induction l as [|[i line] l IH]; [constructor|].
  rewrite fmap_cons. intros [Hi Hl]%list.NoDup_cons. cbn [omap list_omap].
  destruct (parseNumbered' (i, line)) as [entry|] eqn:Hp; [|by apply IH].
  rewrite fmap_cons. apply list.NoDup_cons. split; [|by apply IH].
  intros (entry' & Hid & ([i' line'] & Hin & Hp')%list_elem_of_omap)%list_elem_of_fmap.
  apply parseLine_id in Hp, Hp'. simpl in Hp, Hp'.
  rewrite Hp, Hp' in Hid. apply id_index_inj in Hid as ->.
  apply Hi. apply list_elem_of_fmap. by exists (i', line').
Qed.

(** C8.  The ids of the entries of a result are pairwise distinct.  Each
    is the raw timestamp of its entry, a hyphen, and the index of the line
    the entry comes from in decimal; the index alone tells two ids apart,
    as on two lines with the same timestamp. *)
Theorem entry_ids_distinct (raw : jsstring) :
  NoDup (id <$> (parseLogText'' raw).(entries))
  /\ Forall (fun entry =>
       exists index line,
         Js.splitLines raw !! index = Some line
         /\ parseLine'' (Js.trim line) index = Some entry
         /\ entry.(id)
            = entry.(timestampRaw) ++ 45%N :: Js.decimal index)
       (parseLogText'' raw).(entries)
  /\ id <$> (parseLogText'' sameTimestampText).(entries)
     = [js "2024-04-12T05:41:11.337Z-0"; js "2024-04-12T05:41:11.337Z-1"].
Proof.
  destruct (parseLogText_spec raw) as [He _]. rewrite He.
  split; [|split].
  - apply ids_NoDup.
    apply (sublist_NoDup _ (numberedFrom 0 (Js.splitLines raw)).*1).
    + rewrite numberedFrom_fst. apply NoDup_seq.
    + apply (fmap_sublist fst), sublist_filter.
  - apply list.Forall_forall. intros entry ([i line] & Hin & Hp)%list_elem_of_omap.
    apply list_elem_of_filter in Hin as [_ Hin].
    apply numberedFrom_elem in Hin as [_ Hl].
    rewrite Nat.sub_0_r in Hl.
    exists i, line. split; [done|]. split; [done|].
    by apply parseLine_id in Hp.
  - vm_compute. reflexivity.
Qed.

End BatchProperties.

(** ** The column map *)

Lemma has_elem {V} (key : jsstring) (m : JsMap.t V) :
  JsMap.has key m = true <-> key ∈ m.*1.
Proof. unfold JsMap.has, JsObject.has. apply bool_decide_eq_true. Qed.

Lemma has_not_elem {V} (key : jsstring) (m : JsMap.t V) :
  JsMap.has key m = false <-> key ∉ m.*1.
Proof. unfold JsMap.has, JsObject.has. apply bool_decide_eq_false. Qed.

Lemma get_elem {V} (key : jsstring) (m : JsMap.t V) (v : V) :
  JsMap.get key m = Some v -> (key, v) ∈ m.
Proof.
  unfold JsMap.get, JsObject.get.
  destruct (list_find _ m) as [[i [k w]]|] eqn:Hf; [|done].
  simpl. intros [= <-]. apply list_find_Some in Hf as (Hl & Hk & _).
  simpl in Hk. subst k. by apply list_elem_of_lookup_2 in Hl.
Qed.

Lemma has_get {V} (key : jsstring) (m : JsMap.t V) :
  JsMap.has key m = true -> exists v, JsMap.get key m = Some v.
Proof.
  rewrite has_elem. intros ([k v] & -> & Hin)%list_elem_of_fmap.
  unfold JsMap.get, JsObject.get.
  destruct (list_find (fun kv => kv.1 = k) m) as [[i [k' w]]|] eqn:Hf.
  - exists w. simpl. by rewrite Hf.
  - exfalso. eapply list_find_None in Hf.
    rewrite list.Forall_forall in Hf. by apply (Hf (k, v)).
Qed.

Lemma set_fresh {V} (key : jsstring) (v : V) (m : JsMap.t V) :
  JsMap.has key m = false -> JsMap.set key v m = m ++ [(key, v)].
Proof. unfold JsMap.set. by intros ->. Qed.

Lemma NoDup_fst_functional {V} (m : JsMap.t V) (key : jsstring) (v w : V) :
  NoDup m.*1 -> (key, v) ∈ m -> (key, w) ∈ m -> v = w.
Proof.
  induction m as [|[k u] m IH]; [by intros _ H%elem_of_nil|].
  rewrite fmap_cons. intros [Hk Hm]%list.NoDup_cons.
  rewrite !elem_of_cons. intros [[= -> ->]|Hv] [[= ->]|Hw]; [done|..].
  - exfalso. apply Hk. apply list_elem_of_fmap. by exists (k, w).
  - exfalso. apply Hk. apply list_elem_of_fmap. by exists (k, v).
  - by apply IH.
Qed.

Lemma candidateName_inj (base : jsstring) (i j : nat) :
  candidateName base i = candidateName base j -> i = j.
Proof.
  unfold candidateName. intros H%app_inv_head. apply decimal_inj. congruence.
Qed.

Lemma candidateName_not_base (base : jsstring) (i : nat) :
  candidateName base i <> base.
Proof.
  unfold candidateName. intros H%(f_equal length).
  rewrite length_app in H. simpl in H. lia.
Qed.

(** The loop of [ensureColumn] stops at the least suffix whose name is
    free, when there is one within its fuel. *)
Lemma freeSuffix_spec (base : jsstring) (m : JsMap.t FacetColumn) :
  forall (fuel suffix j : nat),
    suffix <= j < suffix + fuel ->
    JsMap.has (candidateName base j) m = false ->
    let found := freeSuffix fuel base m suffix in
    suffix <= found
    /\ JsMap.has (candidateName base found) m = false
    /\ forall k, suffix <= k < found ->
         JsMap.has (candidateName base k) m = true.
Proof.
  induction fuel as [|fuel IH]; intros suffix j Hj Hfree; [lia|]. simpl.
  destruct (JsMap.has (candidateName base suffix) m) eqn:Hhas.
  - destruct (IH (suffix + 1) j) as (Hle & Hf & Hmin); [|done|].
    { destruct (decide (j = suffix)) as [->|]; [congruence|lia]. }
    split; [lia|]. split; [done|]. intros k Hk.
    destruct (decide (k = suffix)) as [->|]; [done|]. apply Hmin. lia.
  - split; [lia|]. split; [done|]. intros k Hk. lia.
Qed.

(** Among more names than the map has entries, one is free. *)
Lemma candidate_free_exists (base : jsstring) (m : JsMap.t FacetColumn)
    (suffix : nat) :
  exists j, suffix <= j < suffix + S (length m)
            /\ JsMap.has (candidateName base j) m = false.
Proof.
  destruct (decide (Forall (fun j => candidateName base j ∈ m.*1)
                           (seq suffix (S (length m))))) as [Hall|Hex].
  - exfalso.
    assert (Hsub : candidateName base <$> seq suffix (S (length m)) ⊆+ m.*1).
    { apply NoDup_submseteq.
      - apply NoDup_fmap_2; [|apply NoDup_seq].
        intros i j. apply candidateName_inj.
      - intros x (j & -> & Hj)%list_elem_of_fmap.
        rewrite list.Forall_forall in Hall. by apply Hall. }
    apply submseteq_length in Hsub.
    rewrite !length_fmap, length_seq in Hsub. lia.
  - apply not_Forall_Exists in Hex; [|apply _].
    apply list.Exists_exists in Hex as (j & Hj & Hnot).
    apply elem_of_seq in Hj. exists j. split; [lia|]. by apply has_not_elem.
Qed.

Lemma freeSuffix_free (base : jsstring) (m : JsMap.t FacetColumn) :
  let found := freeSuffix (S (length m)) base m 2 in
  2 <= found
  /\ JsMap.has (candidateName base found) m = false
  /\ forall k, 2 <= k < found -> JsMap.has (candidateName base k) m = true.
Proof.
  destruct (candidate_free_exists base m 2) as (j & Hj & Hfree).
  by apply (freeSuffix_spec base m (S (length m)) 2 j).
Qed.

(** The three ways of [ensureColumn]. *)
Lemma ensureColumn_cases (key : jsstring) (m : JsMap.t FacetColumn) :
  let base := columnBase key in
  (JsMap.has base m = false ->
   ensureColumn key m = (base, m ++ [(base, metadataColumn base key)]))
  /\ (forall existing,
        JsMap.get base m = Some existing ->
        existing.(originalKey) = Some key ->
        ensureColumn key m = (base, m))
  /\ (forall existing,
        JsMap.get base m = Some existing ->
        existing.(originalKey) <> Some key ->
        exists suffix,
          2 <= suffix
          /\ JsMap.has (candidateName base suffix) m = false
          /\ (forall k, 2 <= k < suffix ->
                JsMap.has (candidateName base k) m = true)
          /\ ensureColumn key m
             = (candidateName base suffix,
                m ++ [(candidateName base suffix,
                       metadataColumn (candidateName base suffix) key)])).
Proof.
  intros base. unfold ensureColumn. fold (columnBase key). fold base.
  split; [|split].
  - intros Hhas. rewrite Hhas. simpl. by rewrite set_fresh.
  - intros existing Hget Hkey.
    assert (Hhas : JsMap.has base m = true).
    { apply has_elem, list_elem_of_fmap. exists (base, existing).
      split; [done|]. by apply get_elem. }
    rewrite Hhas, Hget. simpl. unfold heldBy. simpl.
    by rewrite bool_decide_eq_true_2.
  - intros existing Hget Hkey.
    assert (Hhas : JsMap.has base m = true).
    { apply has_elem, list_elem_of_fmap. exists (base, existing).
      split; [done|]. by apply get_elem. }
    rewrite Hhas, Hget. simpl. unfold heldBy. simpl.
    rewrite bool_decide_eq_false_2 by done.
    destruct (freeSuffix_free base m) as (Hle & Hfree & Hmin).
    exists (freeSuffix (S (length m)) base m 2).
    split; [done|]. split; [done|]. split; [done|].
    by rewrite set_fresh.
Qed.

Lemma columnMapInv_empty : columnMapInv [].
Proof.
  split; [constructor|]. intros n c H. by apply elem_of_nil in H.
Qed.

(** [ensureColumn] keeps the invariant, only adds to the map, and leaves in
    it a column of the key under the name it returns. *)
Lemma ensureColumn_inv (key : jsstring) (m : JsMap.t FacetColumn) :
  columnMapInv m ->
  columnMapInv (ensureColumn key m).2
  /\ (exists rest, (ensureColumn key m).2 = m ++ rest)
  /\ ((ensureColumn key m).1,
      metadataColumn (ensureColumn key m).1 key) ∈ (ensureColumn key m).2.
Proof.
  intros [Hnodup Hcols].
  destruct (ensureColumn_cases key m) as (Hnew & Hsame & Hclash).
  assert (Hext : forall n,
            JsMap.has n m = false ->
            (n = columnBase key
             \/ exists suffix,
                  2 <= suffix /\ n = candidateName (columnBase key) suffix
                  /\ exists c0, (columnBase key, c0) ∈ m
                                /\ c0.(originalKey) <> Some key) ->
            columnMapInv (m ++ [(n, metadataColumn n key)])).
  { intros n Hfree Hshape. split.
    - rewrite fmap_app. apply list.NoDup_app. split; [done|]. split.
      + intros x Hx [->|H]%elem_of_cons; [|by apply elem_of_nil in H].
        by apply has_not_elem in Hfree.
      + apply NoDup_singleton.
    - intros n' c. rewrite elem_of_app, list_elem_of_singleton.
      intros [Hin|[= -> ->]].
      + destruct (Hcols n' c Hin) as (key' & Hc & [Hb|(sfx & Hs & Hn & c0 & Hc0 & Hk0)]).
        * exists key'. split; [done|]. by left.
        * exists key'. split; [done|]. right. exists sfx.
          split; [done|]. split; [done|]. exists c0.
          split; [|done]. rewrite elem_of_app. by left.
      + exists key. split; [done|].
        destruct Hshape as [Hb|(sfx & Hs & Hn & c0 & Hc0 & Hk0)]; [by left|].
        right. exists sfx. split; [done|]. split; [done|]. exists c0.
        split; [|done]. rewrite elem_of_app. by left. }
  destruct (JsMap.has (columnBase key) m) eqn:Hhas.
  - destruct (has_get _ _ Hhas) as [existing Hget].
    destruct (decide (existing.(originalKey) = Some key)) as [Hkey|Hkey].
    + rewrite (Hsame existing Hget Hkey). simpl.
      split; [by split|]. split; [exists []; by rewrite app_nil_r|].
      apply get_elem in Hget as Hin.
      destruct (Hcols _ _ Hin) as (key' & Hc & _).
      rewrite Hc in Hkey. simpl in Hkey. injection Hkey as ->. by rewrite <- Hc.
    + destruct (Hclash existing Hget Hkey) as (sfx & Hs & Hfree & _ & ->).
      simpl. split.
      * apply Hext; [done|]. right. exists sfx. split; [done|]. split; [done|].
        exists existing. split; [by apply get_elem|done].
      * split; [by eexists|]. rewrite elem_of_app, list_elem_of_singleton. by right.
  - rewrite (Hnew eq_refl). simpl. split.
    + apply Hext; [done|by left].
    + split; [by eexists|]. rewrite elem_of_app, list_elem_of_singleton. by right.
Qed.

(** A key has a column in the map. *)
Lemma covered_app (m rest : JsMap.t FacetColumn) (key : jsstring) :
  (exists n, (n, metadataColumn n key) ∈ m) ->
  exists n, (n, metadataColumn n key) ∈ m ++ rest.
Proof. intros [n Hn]. exists n. rewrite elem_of_app. by left. Qed.

Lemma names_are_keys (m : JsMap.t FacetColumn) :
  (forall n c, (n, c) ∈ m -> c.(name) = n) ->
  name <$> JsMap.values m = m.*1.
Proof.
  unfold JsMap.values. induction m as [|[n c] m IH]; intros Hname; [done|].
  rewrite !fmap_cons. f_equal.
  - apply Hname. by left.
  - apply IH. intros n' c' Hin. apply Hname. by right.
Qed.

Lemma columnMapInv_name (m : JsMap.t FacetColumn) (n : jsstring)
    (c : FacetColumn) :
  columnMapInv m -> (n, c) ∈ m -> c.(name) = n.
Proof. intros [_ Hcols] Hin. by destruct (Hcols n c Hin) as (key & -> & _). Qed.

Section FacetProperties.

Context {num : Type}.
Variable toLowerCase : jsstring -> jsstring.
Variable Number : jsstring -> num.
Variable Number_isFinite : num -> bool.

Abbreviation addMetadataCell' :=
  (addMetadataCell toLowerCase Number Number_isFinite).
Abbreviation rowOf' := (rowOf toLowerCase Number Number_isFinite).
Abbreviation mapRows' := (mapRows toLowerCase Number Number_isFinite).
Abbreviation buildFacetView' :=
  (buildFacetView toLowerCase Number Number_isFinite).

Lemma addMetadataCell_step (row : JsObject.t (cell num))
    (m : JsMap.t FacetColumn) (key value : jsstring) :
  addMetadataCell' (row, m) (key, value)
  = (JsObject.set (ensureColumn key m).1
       (coerceValue toLowerCase Number Number_isFinite value) row,
     (ensureColumn key m).2).
Proof. unfold addMetadataCell. by destruct (ensureColumn key m). Qed.

Lemma mapRows_step (log : LogEntry num) (logs : list (LogEntry num))
    (m : JsMap.t FacetColumn) :
  mapRows' (log :: logs) m
  = ((rowOf' log m).1 :: (mapRows' logs (rowOf' log m).2).1,
     (mapRows' logs (rowOf' log m).2).2).
Proof.
  cbn [mapRows]. destruct (rowOf' log m) as [row m1]. simpl.
  by destruct (mapRows' logs m1).
Qed.

Lemma addMetadataCell_fold (kvs : list (jsstring * jsstring)) :
  forall (row : JsObject.t (cell num)) (m : JsMap.t FacetColumn),
    columnMapInv m ->
    let m' := (foldl addMetadataCell' (row, m) kvs).2 in
    columnMapInv m'
    /\ (exists rest, m' = m ++ rest)
    /\ forall key value, (key, value) ∈ kvs ->
         exists n, (n, metadataColumn n key) ∈ m'.
Proof.
  induction kvs as [|[key value] kvs IH]; intros row m Hinv.
  - simpl. split; [done|]. split; [exists []; by rewrite app_nil_r|].
    intros key value H. by apply elem_of_nil in H.
  - cbn [foldl]. rewrite addMetadataCell_step.
    destruct (ensureColumn_inv key m Hinv) as (Hinv1 & [rest1 Hrest1] & Hcol).
    destruct (IH (JsObject.set (ensureColumn key m).1
                    (coerceValue toLowerCase Number Number_isFinite value) row)
                 (ensureColumn key m).2 Hinv1) as (Hinv2 & [rest2 Hrest2] & Hcov).
    split; [done|]. split.
    + exists (rest1 ++ rest2). cbv zeta in Hrest2.
      rewrite Hrest2, Hrest1. by rewrite app_assoc.
    + intros key' value'. rewrite elem_of_cons. intros [[= -> ->]|Hin].
      * exists (ensureColumn key m).1. cbv zeta in Hrest2.
        rewrite Hrest2, elem_of_app. by left.
      * by apply (Hcov key' value').
Qed.

Lemma mapRows_inv (logs : list (LogEntry num)) :
  forall (m : JsMap.t FacetColumn),
    columnMapInv m ->
    let m' := (mapRows' logs m).2 in
    columnMapInv m'
    /\ (exists rest, m' = m ++ rest)
    /\ forall log key value,
         log ∈ logs ->
         (key, value) ∈ JsObject.entries log.(metadata) ->
         exists n, (n, metadataColumn n key) ∈ m'.
Proof.
  induction logs as [|log logs IH]; intros m Hinv.
  - simpl. split; [done|]. split; [exists []; by rewrite app_nil_r|].
    intros log key value H. by apply elem_of_nil in H.
  - rewrite mapRows_step. cbn [snd].
    destruct (addMetadataCell_fold (JsObject.entries log.(metadata))
                (coreRow log) m Hinv) as (Hinv1 & [rest1 Hrest1] & Hcov1).
    fold (rowOf' log m) in Hinv1, Hrest1, Hcov1.
    destruct (IH (rowOf' log m).2 Hinv1) as (Hinv2 & [rest2 Hrest2] & Hcov2).
    cbv zeta in Hrest2.
    split; [done|]. split.
    + exists (rest1 ++ rest2). rewrite Hrest2, Hrest1. by rewrite app_assoc.
    + intros log' key value. rewrite elem_of_cons. intros [->|Hin] Hkv.
      * destruct (Hcov1 key value Hkv) as [n Hn]. exists n.
        rewrite Hrest2, elem_of_app. by left.
      * by apply (Hcov2 log' key value).
Qed.

Lemma values_elem (m : JsMap.t FacetColumn) (c : FacetColumn) :
  c ∈ JsMap.values m <-> exists n, (n, c) ∈ m.
Proof.
  unfold JsMap.values. rewrite list_elem_of_fmap. split.
  - intros ([n c'] & -> & Hin). by exists n.
  - intros [n Hin]. by exists (n, c).
Qed.

Lemma buildFacetView_columns (logs : list (LogEntry num)) :
  (buildFacetView' logs).(columns)
  = CORE_COLUMNS ++ JsMap.values (mapRows' logs []).2.
Proof. unfold buildFacetView. by destruct (mapRows' logs []). Qed.

Lemma generatedColumns_values (logs : list (LogEntry num)) :
  generatedColumns (buildFacetView' logs) = JsMap.values (mapRows' logs []).2.
Proof.
  unfold generatedColumns. rewrite buildFacetView_columns.
  by rewrite drop_app_length.
Qed.

End FacetProperties.

(** ** [sanitizeKey] *)

Lemma collapseUnderscores_Forall (P : N -> Prop) (s : jsstring) :
  Forall P s -> Forall P (collapseUnderscores s).
Proof.
  induction 1 as [|c s Hc Hs IH]; [constructor|]. simpl.
  destruct s as [|d s]; [by constructor|].
  destruct (isUnderscore c && isUnderscore d); [done|by constructor].
Qed.

Lemma stripUnderscores_Forall (P : N -> Prop) (s : jsstring) :
  Forall P s -> Forall P (stripUnderscores s).
Proof.
  intros H. unfold stripUnderscores.
  by apply Forall_rev, Forall_drop, Forall_rev, Forall_drop.
Qed.

Ltac unfold_classes :=
  unfold isWordChar, isUnderscore, Js.lowerAscii, Js.isDigit, Js.isUpper,
    Js.isLower in *.

Ltac class_arith :=
  unfold_classes;
  repeat match goal with
         | |- context [(?a <=? ?b)%N] => destruct (N.leb_spec a b)
         | |- context [(?a =? ?b)%N] => destruct (N.eqb_spec a b)
         | H : context [(?a <=? ?b)%N] |- _ => destruct (N.leb_spec a b)
         | H : context [(?a =? ?b)%N] |- _ => destruct (N.eqb_spec a b)
         end;
  simpl in *; try done; try lia.

Lemma replaced_unit_word (c : N) :
  isWordChar (if isWordChar c then c else 95%N) = true.
Proof. destruct (isWordChar c) eqn:H; [done|]. reflexivity. Qed.

Lemma lowerAscii_word (c : N) :
  isWordChar c = true -> isWordChar (Js.lowerAscii c) = true.
Proof. intros H. class_arith. Qed.

Lemma lowerAscii_not_digit (c : N) :
  Js.isDigit c = false -> Js.isDigit (Js.lowerAscii c) = false.
Proof. intros H. class_arith. Qed.

(** [toLowerCase] in [sanitizeKey] is given units of [[A-Za-z0-9_]] only,
    on which it is the ASCII folding. *)
Lemma sanitizeKey_lowered_word (key : jsstring) :
  Forall (fun c => isWordChar c = true) (sanitizeReplaced key)
  /\ Forall (fun c => isWordChar c = true) (js "field").
Proof.
  split.
  - apply stripUnderscores_Forall, collapseUnderscores_Forall.
    apply Forall_map, list.Forall_forall. intros c _. apply replaced_unit_word.
  - repeat constructor.
Qed.

Lemma sanitizeKey_unfold (key : jsstring) :
  sanitizeKey key
  = let trimmed :=
      match sanitizeReplaced key with [] => js "field" | r => r end in
    match trimmed with
    | c :: _ => if Js.isDigit c then js "f_" ++ trimmed
                else map Js.lowerAscii trimmed
    | [] => []
    end.
Proof.
  unfold sanitizeKey, sanitizeReplaced.
  by destruct (stripUnderscores _) as [|c r].
Qed.

(** What [sanitizeKey] returns is an identifier: not empty, made of units
    of [[A-Za-z0-9_]], and not starting with a digit. *)
Lemma sanitizeKey_identifier (key : jsstring) :
  sanitizeKey key <> []
  /\ Forall (fun c => isWordChar c = true) (sanitizeKey key)
  /\ forall c rest, sanitizeKey key = c :: rest -> Js.isDigit c = false.
Proof.
  rewrite sanitizeKey_unfold. cbv zeta.
  destruct (sanitizeKey_lowered_word key) as [Hr Hf].
  set (trimmed := match sanitizeReplaced key with [] => js "field" | r => r end).
  assert (Ht : Forall (fun c => isWordChar c = true) trimmed).
  { subst trimmed. by destruct (sanitizeReplaced key). }
  assert (Hne : trimmed <> []).
  { subst trimmed. by destruct (sanitizeReplaced key). }
  destruct trimmed as [|c t]; [done|].
  destruct (Js.isDigit c) eqn:Hd.
  - split; [done|]. split.
    + apply Forall_app. split; [repeat constructor|done].
    + by intros c' rest [= <- _].
  - split; [done|]. split.
    + apply Forall_map. eapply List.Forall_impl; [|exact Ht].
      intros x. apply lowerAscii_word.
    + simpl. intros c' rest [= <- _]. by apply lowerAscii_not_digit.
Qed.

(** ** The generated columns *)

(** C9, against the claim as stated: the key [a..b] gets the one column
    [meta_a_b]; the name the claim derives, every unit outside
    [[A-Za-z0-9_]] made an underscore and the whole lowercased, is [a__b],
    and no column has it, with or without the prefix. *)
Lemma column_name_counterexample :
  let view :=
    buildFacetView Ref.toLowerCase Ref.Number Ref.Number_isFinite
      dottedKeyLogs in
  name <$> generatedColumns view = [js "meta_a_b"]
  /\ normalizedLower (js "a..b") = js "a__b"
  /\ ~ (exists c, c ∈ generatedColumns view
                  /\ (c.(name) = normalizedLower (js "a..b")
                      \/ c.(name) = js "meta_" ++ normalizedLower (js "a..b"))).
Proof.
  cbv zeta.
  assert (Hg : generatedColumns
                 (buildFacetView Ref.toLowerCase Ref.Number Ref.Number_isFinite
                    dottedKeyLogs)
               = [metadataColumn (js "meta_a_b") (js "a..b")])
    by (vm_compute; reflexivity).
  rewrite Hg. split; [vm_compute; reflexivity|].
  split; [vm_compute; reflexivity|].
  intros (c & Hc%list_elem_of_singleton & Hname). subst c.
  destruct Hname as [H|H]; vm_compute in H; discriminate.
Qed.

(** A key whose base name is held by another key is given a new column
    every time it is seen, also when it has one already: the two keys
    [a.b] and [a_b], seen in two entries, leave three columns. *)
Lemma colliding_key_seen_twice :
  (fun c => (c.(name), c.(originalKey)))
  <$> generatedColumns
        (buildFacetView Ref.toLowerCase Ref.Number Ref.Number_isFinite
           collidingKeyLogs)
  = [ (js "meta_a_b", Some (js "a.b"));
      (js "meta_a_b_2", Some (js "a_b"));
      (js "meta_a_b_3", Some (js "a_b")) ].
Proof. vm_compute. reflexivity. Qed.

(** * Further properties of the parser and of the facet view *)

(** ** Trimming *)

Lemma trimStart_length (s : jsstring) : length (Js.trimStart s) <= length s.
Proof.
  induction s as [|c s IH]; simpl; [lia|].
  destruct (Js.isWhiteSpace c); simpl; lia.
Qed.

Lemma trimStart_head (s : jsstring) (c : N) (t : jsstring) :
  Js.trimStart s = c :: t -> Js.isWhiteSpace c = false.
Proof.
  induction s as [|d s IH]; simpl; [done|].
  destruct (Js.isWhiteSpace d) eqn:Hd; [done|]. by intros [= <- _].
Qed.

Lemma trimStart_fixed (c : N) (s : jsstring) :
  Js.isWhiteSpace c = false -> Js.trimStart (c :: s) = c :: s.
Proof. simpl. by intros ->. Qed.

Lemma trimStart_idem (s : jsstring) :
  Js.trimStart (Js.trimStart s) = Js.trimStart s.
Proof.
  destruct (Js.trimStart s) as [|c t] eqn:H; [done|].
  apply trimStart_fixed. by apply (trimStart_head s c t).
Qed.

Lemma trimStart_snoc (s : jsstring) (c : N) :
  Js.isWhiteSpace c = false ->
  Js.trimStart (s ++ [c]) = Js.trimStart s ++ [c].
Proof.
  intros Hc. induction s as [|d s IH]; simpl; [by rewrite Hc|].
  by destruct (Js.isWhiteSpace d).
Qed.

Lemma trimEnd_idem (s : jsstring) : Js.trimEnd (Js.trimEnd s) = Js.trimEnd s.
Proof. unfold Js.trimEnd. by rewrite rev_involutive, trimStart_idem. Qed.

Lemma trimEnd_cons (c : N) (s : jsstring) :
  Js.isWhiteSpace c = false -> Js.trimEnd (c :: s) = c :: Js.trimEnd s.
Proof.
  intros Hc. unfold Js.trimEnd. simpl.
  rewrite trimStart_snoc by done. by rewrite rev_app_distr.
Qed.

Lemma trim_idem (s : jsstring) : Js.trim (Js.trim s) = Js.trim s.
Proof.
  unfold Js.trim. destruct (Js.trimStart s) as [|c t] eqn:H; [done|].
  pose proof (trimStart_head s c t H) as Hc.
  rewrite trimEnd_cons by done. rewrite trimStart_fixed by done.
  rewrite trimEnd_cons by done. by rewrite trimEnd_idem.
Qed.

Lemma trim_trimEnd (s : jsstring) : Js.trimEnd (Js.trim s) = Js.trim s.
Proof. unfold Js.trim. apply trimEnd_idem. Qed.

(** ** The boundary found by [findMetadataStart] *)

Lemma scanWhile_idem (p : N -> bool) (s : jsstring) (i : nat) :
  Js.scanWhile p s (Js.scanWhile p s i) = Js.scanWhile p s i.
Proof.
  destruct (s !! Js.scanWhile p s i) as [c|] eqn:Hc.
  - apply (scanWhile_not p s _ c Hc). by apply (scanWhile_stop p s i).
  - apply scanWhile_end. by apply lookup_ge_None.
Qed.

Lemma isKeyAhead_after_spaces (block : jsstring) (i : nat) :
  isKeyAhead block (Js.scanWhile isSpace block i) = isKeyAhead block i.
Proof. unfold isKeyAhead. by rewrite scanWhile_idem. Qed.

Lemma forReturn_Some_inv (idxs : list nat) (body : nat -> option nat) (r : nat) :
  forReturn idxs body = Some r -> exists i, i ∈ idxs /\ body i = Some r.
Proof.
  induction idxs as [|i idxs IH]; simpl; [done|].
  destruct (body i) as [r'|] eqn:Hb.
  - intros [= ->]. exists i. split; [by left|done].
  - intros (k & Hk & Hr)%IH. exists k. split; [by right|done].
Qed.

Lemma forReturn_None_inv (idxs : list nat) (body : nat -> option nat) :
  forReturn idxs body = None -> forall i, i ∈ idxs -> body i = None.
Proof.
  induction idxs as [|i idxs IH]; simpl; [by intros _ k Hk%elem_of_nil|].
  destruct (body i) as [r'|] eqn:Hb; [done|].
  intros H k [->|Hk]%elem_of_cons; [done|by apply IH].
Qed.

(** After the run of spaces that starts at a space: the unit before is a
    space, the unit there is not, and the index is within the payload. *)
Lemma after_spaces (payload : jsstring) (i : nat) :
  Js.charIs payload i 32 = true ->
  let s := Js.scanWhile isSpace payload i in
  i < s <= length payload
  /\ Js.charIs payload (s - 1) 32 = true
  /\ Js.charIs payload s 32 = false.
Proof.
  intros Hi. pose proof (charIs_lt _ _ _ Hi) as Hlt.
  apply charIs_lookup in Hi. simpl.
  pose proof (scanWhile_here isSpace payload i 32 Hi eq_refl) as Hs.
  pose proof (scanWhile_ge isSpace payload (S i)) as Hge.
  pose proof (scanWhile_le isSpace payload i ltac:(lia)) as Hle.
  set (s := Js.scanWhile isSpace payload i) in *.
  split; [lia|]. split.
  - destruct (payload !! (s - 1)) as [c|] eqn:Hc.
    + apply charIs_lookup. rewrite Hc. f_equal.
      assert (Hp : isSpace c = true).
      { apply (scanWhile_inside isSpace payload i (s - 1) c); [|done].
        fold s. lia. }
      by apply N.eqb_eq in Hp.
    + apply lookup_ge_None in Hc. lia.
  - destruct (Js.charIs payload s 32) eqn:Hc; [|done].
    apply charIs_lookup in Hc.
    by pose proof (scanWhile_stop isSpace payload i 32 Hc).
Qed.

(** Whatever [findMetadataStart] returns is a position at which the
    look-ahead [isKeyAhead] holds, position 0 or the position right after a
    run of spaces; and it returns nothing exactly when the look-ahead fails
    at position 0 and after every space of the payload. *)
Theorem findMetadataStart_sound_complete (payload : jsstring) :
  (forall s, findMetadataStart payload = Some s ->
     isKeyAhead payload s = true
     /\ s <= length payload
     /\ (s = 0
         \/ Js.charIs payload (s - 1) 32 = true
            /\ Js.charIs payload s 32 = false))
  /\ (findMetadataStart payload = None
      <-> isKeyAhead payload 0 = false
          /\ forall i, Js.charIs payload i 32 = true ->
               isKeyAhead payload (i + 1) = false).
Proof.
  assert (Hboundary : forall i s,
            singleSpaceBoundary payload i ->
            s = Js.scanWhile isSpace payload i ->
            isKeyAhead payload s = true
            /\ s <= length payload
            /\ (s = 0
                \/ Js.charIs payload (s - 1) 32 = true
                   /\ Js.charIs payload s 32 = false)).
  { intros i s [Hsp Hk] ->.
    destruct (after_spaces payload i Hsp) as (Hr & Hb & Ha).
    split; [done|]. split; [lia|]. by right. }
  split.
  - intros s. unfold findMetadataStart.
    destruct (isKeyAhead payload 0) eqn:H0.
    { intros [= <-]. split; [done|]. split; [lia|by left]. }
    destruct (forReturn (seq 0 (length payload - 1)) _) as [j|] eqn:Hd.
    + intros [= <-].
      apply forReturn_Some_inv in Hd as (i & _ & Hb). cbv beta in Hb.
      rewrite doubleSpace_body in Hb.
      destruct (decide (doubleSpaceBoundary payload i)) as [(H1 & _ & H3)|];
        [|done].
      injection Hb as <-. by apply (Hboundary i).
    + intros (i & _ & Hb)%forReturn_Some_inv. cbv beta in Hb.
      rewrite singleSpace_body in Hb.
      destruct (decide (singleSpaceBoundary payload i)) as [Hs|]; [|done].
      injection Hb as <-. by apply (Hboundary i).
  - split.
    + intros Hnone. unfold findMetadataStart in Hnone.
      destruct (isKeyAhead payload 0) eqn:H0; [done|]. split; [done|].
      destruct (forReturn (seq 0 (length payload - 1)) _); [done|].
      intros i Hi.
      pose proof (forReturn_None_inv _ _ Hnone i) as Hb. cbv beta in Hb.
      rewrite singleSpace_body in Hb.
      destruct (decide (singleSpaceBoundary payload i)) as [Hs|Hs].
      * discriminate Hb. apply elem_of_seq. apply charIs_lt in Hi. lia.
      * rewrite <- isKeyAhead_skip_space by done.
        rewrite <- isKeyAhead_after_spaces.
        destruct (isKeyAhead payload (Js.scanWhile isSpace payload i)) eqn:Hk;
          [|done].
        exfalso. apply Hs. by split.
    + intros [H0 Hnone]. apply findMetadataStart_none; [done|].
      intros k [Hsp Hk]. rewrite isKeyAhead_after_spaces in Hk.
      rewrite (isKeyAhead_skip_space payload k Hsp) in Hk.
      by rewrite (Hnone k Hsp) in Hk.
Qed.

(** ** The metadata mapping *)

Lemma update_keys {V} (key : jsstring) (v : V) (o : JsObject.t V) :
  (JsObject.update key v o).*1 = o.*1.
Proof.
  induction o as [|[k w] o IH]; [done|]. cbn [JsObject.update].
  destruct (decide (k = key)); [done|]. rewrite !fmap_cons. by rewrite IH.
Qed.

Lemma update_elem {V} (key : jsstring) (v : V) (o : JsObject.t V)
    (k : jsstring) (w : V) :
  (k, w) ∈ JsObject.update key v o ->
  k = key /\ w = v \/ (k, w) ∈ o.
Proof.
  induction o as [|[k' w'] o IH]; simpl; [by intros H%elem_of_nil|].
  destruct (decide (k' = key)) as [->|Hne].
  - intros [[= -> ->]|Hin]%elem_of_cons; [by left|].
    right. by right.
  - intros [[= -> ->]|Hin]%elem_of_cons; [right; by left|].
    destruct (IH Hin) as [?|?]; [by left|right; by right].
Qed.

Lemma set_wellFormed (key value : jsstring) (metadata : JsObject.t jsstring) :
  Forall (fun c => KEY_CHAR_REGEX c = true) key ->
  Js.trim value = value ->
  metadataWellFormed metadata ->
  metadataWellFormed (JsObject.set key value metadata).
Proof.
  intros Hkey Hvalue [Hnodup Hall]. unfold JsObject.set.
  destruct (decide (key = JsObject.protoKey)) as [Hp|Hp]; [by split|].
  destruct (JsObject.has key metadata) eqn:Hhas.
  - split; [by rewrite update_keys|].
    intros k w [[-> ->]|Hin]%update_elem; [done|by apply Hall].
  - apply bool_decide_eq_false in Hhas. split.
    + rewrite fmap_app. apply list.NoDup_app. split; [done|].
      split; [|apply NoDup_singleton].
      intros x Hx [->|H]%elem_of_cons; [done|by apply elem_of_nil in H].
    + intros k w [Hin|[= -> ->]%list_elem_of_singleton]%elem_of_app;
        [by apply Hall|done].
Qed.

Lemma slice_Forall_scan (p : N -> bool) (s : jsstring) (i : nat) :
  Forall (fun c => p c = true) (Js.slice s i (Js.scanWhile p s i)).
Proof.
  apply Forall_lookup. intros k c Hk. unfold Js.slice in Hk.
  apply lookup_take_Some in Hk as [Hk Hlt]. rewrite lookup_drop in Hk.
  apply (scanWhile_inside p s i (i + k) c); [|done].
  pose proof (scanWhile_ge p s i). lia.
Qed.

Lemma parseMetadata_loop_wellFormed (block : jsstring) :
  forall (fuel index : nat) (metadata : JsObject.t jsstring),
    metadataWellFormed metadata ->
    metadataWellFormed (parseMetadata_loop fuel block index metadata).
Proof.
  induction fuel as [|fuel IH]; intros index metadata Hwf; [done|].
  rewrite parseMetadata_loop_round.
  destruct (length block <=? index); [done|]. cbv zeta.
  destruct (_ || _); [done|].
  apply IH. apply set_wellFormed; [|apply trim_idem|done].
  apply slice_Forall_scan.
Qed.

(** The two results of [splitPayload]: the message has no whitespace at
    its end, and the metadata has no key twice, keys made of
    [[A-Za-z0-9_.-]] units only and never the key [__proto__], and values
    with no whitespace at either end. *)
Theorem splitPayload_wellFormed (payload : jsstring) :
  Js.trimEnd (splitPayload payload).1 = (splitPayload payload).1
  /\ metadataWellFormed (splitPayload payload).2
  /\ metadataWellFormed (parseMetadata payload).
Proof.
  assert (Hempty : metadataWellFormed JsObject.empty).
  { split; [constructor|]. intros k v H. by apply elem_of_nil in H. }
  assert (Hparse : forall block, metadataWellFormed (parseMetadata block)).
  { intros block. by apply parseMetadata_loop_wellFormed. }
  split; [|split; [|done]].
  - unfold splitPayload. destruct payload as [|c payload]; [done|].
    destruct (findMetadataStart (c :: payload)); simpl.
    + apply trimEnd_idem.
    + apply trim_trimEnd.
  - unfold splitPayload. destruct payload as [|c payload]; [done|].
    destruct (findMetadataStart (c :: payload)); [apply Hparse|done].
Qed.

(** ** [parseLocation] *)

Lemma lastIndexOf_go_app (a b : jsstring) (c : N) :
  forall (i : nat) (found : option nat),
    Js.lastIndexOf_go (a ++ b) c i found
    = Js.lastIndexOf_go b c (i + length a) (Js.lastIndexOf_go a c i found).
Proof.
  induction a as [|d a IH]; intros i found; simpl.
  - by rewrite Nat.add_0_r.
  - rewrite IH. by replace (S i + length a) with (i + S (length a)) by lia.
Qed.

Lemma lastIndexOf_go_notin (s : jsstring) (c : N) :
  forall (i : nat) (found : option nat),
    c ∉ s -> Js.lastIndexOf_go s c i found = found.
Proof.
  induction s as [|d s IH]; intros i found; simpl; [done|].
  intros [Hne Hs]%not_elem_of_cons. rewrite IH by done.
  destruct (N.eqb_spec d c); [congruence|done].
Qed.

(** A source block is cut at its last colon: the file is what stands
    before it, trimmed, and the line number is read from the digits that
    stand after it, wherever they are, or is null without any digit. *)
Theorem parseLocation_last_colon {num : Type} (Number : jsstring -> num)
    (pre post : jsstring) :
  58%N ∉ post ->
  parseLocation Number (pre ++ 58%N :: post)
  = (Js.trim pre,
     match List.filter Js.isDigit post with
     | [] => None
     | digits => Some (Number digits)
     end).
Proof.
  intros Hpost. unfold parseLocation, Js.lastIndexOf.
  rewrite lastIndexOf_go_app. cbn [Js.lastIndexOf_go]. rewrite N.eqb_refl.
  rewrite lastIndexOf_go_notin by done. cbn [Nat.add].
  unfold Js.slice, Js.sliceFrom.
  rewrite Nat.sub_0_r, drop_0, take_app_length.
  replace (pre ++ 58%N :: post) with ((pre ++ [58%N]) ++ post)
    by by rewrite <- app_assoc.
  replace (length pre + 1) with (length (pre ++ [58%N]))
    by (rewrite length_app; simpl; lia).
  rewrite drop_app_length. by destruct (List.filter Js.isDigit post).
Qed.

Lemma parseLocation_last_colon_witness :
  parseLocation Ref.Number (js "src: v2/tools.py" ++ 58%N :: js " L71b")
  = (js "src: v2/tools.py", Some (Some 71%Z)).
Proof.
  rewrite (parseLocation_last_colon Ref.Number (js "src: v2/tools.py")
             (js " L71b")).
  - vm_compute. reflexivity.
  - intros Hin. vm_compute in Hin.
    by repeat apply elem_of_cons in Hin as [Hin|Hin];
      [..|apply elem_of_nil in Hin].
Defined.

(** ** [coerceValue] *)

(** Whitespace around a value has no part in what [coerceValue] makes of
    it, null, a boolean or a number; only a value that stays a string is
    returned as it was given, whitespace included. *)
Theorem coerceValue_outer_whitespace {num : Type}
    (toLowerCase : jsstring -> jsstring) (Number : jsstring -> num)
    (Number_isFinite : num -> bool) (value : jsstring) :
  match coerceValue toLowerCase Number Number_isFinite value with
  | CString s =>
      s = value
      /\ coerceValue toLowerCase Number Number_isFinite (Js.trim value)
         = CString (Js.trim value)
  | CTime _ => False
  | r => coerceValue toLowerCase Number Number_isFinite (Js.trim value) = r
  end.
Proof.
  unfold coerceValue. rewrite trim_idem.
  destruct (bool_decide (Js.trim value = []) || _ || _); [done|].
  destruct (bool_decide (toLowerCase (Js.trim value) = js "true")); [done|].
  destruct (bool_decide (toLowerCase (Js.trim value) = js "false")); [done|].
  by destruct (Number_isFinite (Number (Js.trim value))).
Qed.

(** ** [ensureColumn], called again *)

Lemma get_app_l {V} (key : jsstring) (m rest : JsMap.t V) (v : V) :
  JsMap.get key m = Some v -> JsMap.get key (m ++ rest) = Some v.
Proof.
  unfold JsMap.get, JsObject.get.
  induction m as [|[k w] m IH]; [done|]. simpl.
  destruct (decide (k = key)); [done|].
  destruct (list_find _ m) as [[i [k' w']]|] eqn:Hf; [|done]. simpl.
  intros [= ->]. specialize (IH eq_refl).
  destruct (list_find _ (m ++ rest)) as [[i' [k'' w'']]|]; [|done].
  simpl in IH. by injection IH as ->.
Qed.

Lemma get_app_fresh {V} (key : jsstring) (m : JsMap.t V) (v : V) :
  JsMap.has key m = false -> JsMap.get key (m ++ [(key, v)]) = Some v.
Proof.
  rewrite has_not_elem. unfold JsMap.get, JsObject.get.
  induction m as [|[k w] m IH]; simpl.
  - intros _. by rewrite decide_True.
  - intros [Hne Hm]%not_elem_of_cons. rewrite decide_False by done.
    specialize (IH Hm).
    destruct (list_find _ (m ++ [(key, v)])) as [[i [k' w']]|]; [|done].
    simpl in IH. by injection IH as ->.
Qed.

(** A key whose base name is free, or is its own, has one column however
    often it is seen: a second call of [ensureColumn] returns the same name
    and leaves the map as the first call left it. *)
Theorem ensureColumn_own_base_settles (key : jsstring)
    (m : JsMap.t FacetColumn) :
  JsMap.has (columnBase key) m = false
  \/ (exists existing,
        JsMap.get (columnBase key) m = Some existing
        /\ existing.(originalKey) = Some key) ->
  ensureColumn key (ensureColumn key m).2 = ensureColumn key m
  /\ (ensureColumn key m).1 = columnBase key.
Proof.
  destruct (ensureColumn_cases key m) as (Hnew & Hsame & _).
  intros [Hfree|(existing & Hget & Hkey)].
  - rewrite (Hnew Hfree). simpl. split; [|done].
    destruct (ensureColumn_cases key
                (m ++ [(columnBase key, metadataColumn (columnBase key) key)]))
      as (_ & Hsame' & _).
    apply (Hsame' (metadataColumn (columnBase key) key)); [|done].
    by apply get_app_fresh.
  - rewrite (Hsame existing Hget Hkey). simpl. split; [|done].
    by apply (Hsame existing).
Qed.

Lemma ensureColumn_own_base_settles_witness :
  ensureColumn (js "Req-ID") (ensureColumn (js "Req-ID") []).2
  = ensureColumn (js "Req-ID") []
  /\ (ensureColumn (js "Req-ID") []).1 = js "meta_req_id".
Proof.
  refine (ensureColumn_own_base_settles (js "Req-ID") [] _).
  left. vm_compute. reflexivity.
Defined.

(** A key whose base name is held by the column of another key never
    settles: each call of [ensureColumn] makes it one more column, under a
    name the map did not have, so two calls return two different names and
    leave two columns of the key. *)
Theorem ensureColumn_colliding_never_settles (key : jsstring)
    (m : JsMap.t FacetColumn) (existing : FacetColumn) :
  JsMap.get (columnBase key) m = Some existing ->
  existing.(originalKey) <> Some key ->
  let first := ensureColumn key m in
  let second := ensureColumn key first.2 in
  first.1 <> second.1
  /\ (first.1 ∉ m.*1)
  /\ (second.1 ∉ first.2.*1)
  /\ second.2
     = m ++ [(first.1, metadataColumn first.1 key);
             (second.1, metadataColumn second.1 key)].
Proof.
  intros Hget Hkey.
  destruct (ensureColumn_cases key m) as (_ & _ & Hclash).
  destruct (Hclash existing Hget Hkey) as (s1 & _ & Hfree1 & _ & Heq1).
  cbv zeta. rewrite Heq1. cbn [fst snd].
  set (n1 := candidateName (columnBase key) s1) in *.
  set (m1 := m ++ [(n1, metadataColumn n1 key)]).
  destruct (ensureColumn_cases key m1) as (_ & _ & Hclash1).
  destruct (Hclash1 existing (get_app_l _ _ _ _ Hget) Hkey)
    as (s2 & _ & Hfree2 & _ & Heq2).
  rewrite Heq2. cbn [fst snd].
  set (n2 := candidateName (columnBase key) s2) in *.
  apply has_not_elem in Hfree1, Hfree2.
  split; [|split; [done|split; [done|]]].
  - intros Heq. apply Hfree2. rewrite <- Heq. subst m1.
    rewrite fmap_app, elem_of_app. right. by left.
  - subst m1. by rewrite <- app_assoc.
Qed.

Lemma ensureColumn_colliding_never_settles_witness :
  (ensureColumn (js "a_b") (ensureColumn (js "a.b") []).2).1
  <> (ensureColumn (js "a_b")
        (ensureColumn (js "a_b") (ensureColumn (js "a.b") []).2).2).1.
Proof.
  refine (proj1 (ensureColumn_colliding_never_settles (js "a_b")
                   (ensureColumn (js "a.b") []).2
                   (metadataColumn (js "meta_a_b") (js "a.b")) _ _)).
  - vm_compute. reflexivity.
  - vm_compute. discriminate.
Defined.

(** ** The line pattern, read as a grammar *)

Lemma runLength_take (p : N -> bool) (s : jsstring) (k : nat) :
  k <= Js.runLength p s ->
  length (take k s) = k /\ Forall (fun c => p c = true) (take k s).
Proof.
  revert k. induction s as [|c s IH]; intros k; simpl.
  - intros Hk. assert (k = 0) as -> by lia. by split.
  - destruct (p c) eqn:Hc.
    + destruct k as [|k]; [by split|]. intros Hk. simpl.
      destruct (IH k ltac:(lia)) as [Hl Hf]. split; [by rewrite Hl|].
      by constructor.
    + intros Hk. assert (k = 0) as -> by lia. by split.
Qed.

Lemma runLength_Forall (p : N -> bool) (w rest : jsstring) :
  Forall (fun c => p c = true) w ->
  length w <= Js.runLength p (w ++ rest).
Proof.
  induction 1 as [|c w Hc Hw IH]; simpl; [lia|]. rewrite Hc. lia.
Qed.

Lemma runLength_exact (p : N -> bool) (w rest : jsstring) :
  Forall (fun c => p c = true) w ->
  (forall c rest', rest = c :: rest' -> p c = false) ->
  Js.runLength p (w ++ rest) = length w.
Proof.
  intros Hw Hrest. induction Hw as [|c w Hc Hw IH]; simpl.
  - destruct rest as [|c rest']; [done|]. simpl.
    by rewrite (Hrest c rest' eq_refl).
  - rewrite Hc. by rewrite IH.
Qed.

Lemma drop_split (s : jsstring) (pos k : nat) :
  drop pos s = take k (drop pos s) ++ drop (pos + k) s.
Proof. by rewrite <- drop_drop, take_drop. Qed.

Lemma run_Lit_inv (c : N) (r : list Regex.item) (input : jsstring) (pos : nat)
    (o : list (nat * nat)) (cs res : list jsstring) :
  Regex.run (Lit c :: r) input pos o cs = Some res ->
  drop pos input = c :: drop (S pos) input
  /\ Regex.run r input (S pos) o cs = Some res.
Proof.
  simpl. destruct (Js.charIs input pos c) eqn:Hc; [|done].
  apply charIs_lookup in Hc. intros H. split; [|done]. by apply drop_S.
Qed.

Lemma run_Rep_inv (p : N -> bool) (n : nat) (r : list Regex.item)
    (input : jsstring) (pos : nat) (o : list (nat * nat))
    (cs res : list jsstring) :
  Regex.run (Rep p n :: r) input pos o cs = Some res ->
  exists w,
    drop pos input = w ++ drop (pos + n) input
    /\ length w = n /\ Forall (fun c => p c = true) w
    /\ Regex.run r input (pos + n) o cs = Some res.
Proof.
  simpl. destruct (n <=? _) eqn:Hn; [|done]. apply Nat.leb_le in Hn.
  intros H. exists (take n (drop pos input)).
  split; [apply drop_split|].
  destruct (runLength_take p (take n (drop pos input)) n Hn) as [Hl Hf].
  rewrite take_take, Nat.min_id in Hl, Hf. done.
Qed.

Lemma run_Plus_inv (p : N -> bool) (r : list Regex.item)
    (input : jsstring) (pos : nat) (o : list (nat * nat))
    (cs res : list jsstring) :
  Regex.run (Plus p :: r) input pos o cs = Some res ->
  exists w,
    drop pos input = w ++ drop (pos + length w) input
    /\ w <> [] /\ Forall (fun c => p c = true) w
    /\ Regex.run r input (pos + length w) o cs = Some res.
Proof.
  simpl. intros (k & [Hk1 Hk2] & H)%greedy_Some.
  destruct (runLength_take p (drop pos input) k Hk2) as [Hl Hf].
  exists (take k (drop pos input)). rewrite Hl.
  split; [apply drop_split|]. split; [|done].
  intros Hnil. rewrite Hnil in Hl. simpl in Hl. lia.
Qed.

Lemma run_Star_inv (p : N -> bool) (r : list Regex.item)
    (input : jsstring) (pos : nat) (o : list (nat * nat))
    (cs res : list jsstring) :
  Regex.run (Star p :: r) input pos o cs = Some res ->
  exists w,
    drop pos input = w ++ drop (pos + length w) input
    /\ Forall (fun c => p c = true) w
    /\ Regex.run r input (pos + length w) o cs = Some res.
Proof.
  simpl. intros (k & [Hk1 Hk2] & H)%greedy_Some.
  destruct (runLength_take p (drop pos input) k Hk2) as [Hl Hf].
  exists (take k (drop pos input)). rewrite Hl.
  split; [apply drop_split|]. done.
Qed.

Lemma slice_of_drop (s w : jsstring) (a b : nat) :
  drop a s = w ++ drop b s -> b = a + length w -> Js.slice s a b = w.
Proof.
  intros Hd ->. unfold Js.slice. rewrite Hd.
  replace (a + length w - a) with (length w) by lia. apply take_app_length.
Qed.

Lemma LOG_LINE_REGEX_parts :
  LOG_LINE_REGEX
  = Regex.Bol :: timestampItems ++ blockItems 2 ++ blockItems 3 ++ payloadItems.
Proof. reflexivity. Qed.

Lemma startOf_head (k p : nat) (o : list (nat * nat)) :
  Regex.startOf k ((k, p) :: o) = p.
Proof.
  unfold Regex.startOf. simpl. by rewrite decide_True.
Qed.

Lemma run_Open_eq (k : nat) (r : list Regex.item) (input : jsstring)
    (pos : nat) (o : list (nat * nat)) (cs : list jsstring) :
  Regex.run (Open k :: r) input pos o cs
  = Regex.run r input pos ((k, pos) :: o) cs.
Proof. reflexivity. Qed.

Lemma run_Close_eq (k : nat) (r : list Regex.item) (input : jsstring)
    (pos : nat) (o : list (nat * nat)) (cs : list jsstring) :
  Regex.run (Close k :: r) input pos o cs
  = Regex.run r input pos o (cs ++ [Js.slice input (Regex.startOf k o) pos]).
Proof. reflexivity. Qed.

Lemma timestamp_sound (r : list Regex.item) (input : jsstring) (pos : nat)
    (o : list (nat * nat)) (cs res : list jsstring) :
  Regex.run (timestampItems ++ r) input pos o cs = Some res ->
  exists ts o',
    timestampShaped ts
    /\ drop pos input = ts ++ drop (pos + length ts) input
    /\ Regex.run r input (pos + length ts) o' (cs ++ [ts]) = Some res.
Proof.
  unfold timestampItems. cbn [app]. rewrite run_Open_eq. intros H.
  apply run_Rep_inv in H as (y & Hy & Ly & Fy & H).
  apply run_Lit_inv in H as [H1 H].
  apply run_Rep_inv in H as (mo & Hmo & Lmo & Fmo & H).
  apply run_Lit_inv in H as [H2 H].
  apply run_Rep_inv in H as (d & Hd & Ld & Fd & H).
  apply run_Lit_inv in H as [H3 H].
  apply run_Rep_inv in H as (h & Hh & Lh & Fh & H).
  apply run_Lit_inv in H as [H4 H].
  apply run_Rep_inv in H as (mi & Hmi & Lmi & Fmi & H).
  apply run_Lit_inv in H as [H5 H].
  apply run_Rep_inv in H as (s & Hs & Ls & Fs & H).
  apply run_Lit_inv in H as [H6 H].
  apply run_Plus_inv in H as (frac & Hfrac & Nfrac & Ffrac & H).
  apply run_Lit_inv in H as [H7 H].
  rewrite run_Close_eq, startOf_head in H.
  set (ts := y ++ 45%N :: mo ++ 45%N :: d ++ 84%N :: h ++ 58%N :: mi ++ 58%N
               :: s ++ 46%N :: frac ++ [90%N]).
  assert (Hlen : length ts = 21 + length frac).
  { subst ts. repeat (rewrite length_app; simpl).
    rewrite Ly, Lmo, Ld, Lh, Lmi, Ls. lia. }
  match type of H with
  | Regex.run _ _ ?e _ _ = _ =>
      assert (Hend : e = pos + length ts) by lia
  end.
  assert (Hdrop : drop pos input = ts ++ drop (pos + length ts) input).
  { rewrite <- Hend.
    rewrite Hy, H1, Hmo, H2, Hd, H3, Hh, H4, Hmi, H5, Hs, H6, Hfrac, H7.
    subst ts. repeat (rewrite <- app_assoc; simpl). done. }
  rewrite Hend in H.
  exists ts, ((1, pos) :: o). split.
  - exists y, mo, d, h, mi, s, frac. split; [done|].
    repeat (split; [done|]). by repeat (apply Forall_app; split).
  - split; [done|]. by rewrite (slice_of_drop input ts pos _ Hdrop eq_refl) in H.
Qed.

Lemma block_sound (k : nat) (r : list Regex.item) (input : jsstring)
    (pos : nat) (o : list (nat * nat)) (cs res : list jsstring) :
  Regex.run (blockItems k ++ r) input pos o cs = Some res ->
  exists ws g o',
    whitespaceRun ws /\ bracketBody g
    /\ drop pos input
       = ws ++ 91%N :: g ++ 93%N :: drop (pos + length ws + length g + 2) input
    /\ Regex.run r input (pos + length ws + length g + 2) o' (cs ++ [g])
       = Some res.
Proof.
  unfold blockItems. cbn [app]. intros H.
  apply run_Plus_inv in H as (ws & Hws & Nws & Fws & H).
  apply run_Lit_inv in H as [H1 H].
  rewrite run_Open_eq in H.
  apply run_Plus_inv in H as (g & Hg & Ng & Fg & H).
  rewrite run_Close_eq, startOf_head in H.
  apply run_Lit_inv in H as [H2 H].
  rewrite (slice_of_drop input g _ _ Hg eq_refl) in H.
  match type of H with
  | Regex.run _ _ ?e _ _ = _ =>
      assert (Hend : e = pos + length ws + length g + 2) by lia
  end.
  exists ws, g, ((k, S (pos + length ws)) :: o).
  split; [done|]. split; [done|]. split.
  - rewrite <- Hend. by rewrite Hws, H1, Hg, H2.
  - by rewrite <- Hend.
Qed.

Lemma greedy_top {R} (try : nat -> option R) (lo n : nat) (r : R) :
  lo <= n -> try n = Some r -> Regex.greedy try lo n = Some r.
Proof.
  intros Hlo Hr. destruct n as [|n]; simpl.
  - assert (lo = 0) as -> by lia. simpl. by rewrite Hr.
  - apply Nat.ltb_ge in Hlo. by rewrite Hlo, Hr.
Qed.

Lemma greedy_Some_max {R} (try : nat -> option R) (lo n : nat) (r : R) :
  Regex.greedy try lo n = Some r ->
  exists k, lo <= k <= n /\ try k = Some r
            /\ forall j, k < j <= n -> try j = None.
Proof.
  induction n as [|n IH]; simpl.
  - destruct lo; simpl; [|done].
    destruct (try 0) eqn:H0; [|done]. intros [= ->]. exists 0.
    split; [lia|]. split; [done|]. intros j Hj. lia.
  - destruct (S n <? lo) eqn:Hlo; [done|]. apply Nat.ltb_ge in Hlo.
    destruct (try (S n)) eqn:HS.
    + intros [= ->]. exists (S n). split; [lia|]. split; [done|].
      intros j Hj. lia.
    + intros (k & Hk & Hr & Hmax)%IH. exists k. split; [lia|].
      split; [done|]. intros j Hj.
      destruct (decide (j = S n)) as [->|]; [done|]. apply Hmax. lia.
Qed.

Lemma drop_after (input w rest : jsstring) (pos : nat) :
  drop pos input = w ++ rest -> drop (pos + length w) input = rest.
Proof. intros H. by rewrite <- drop_drop, H, drop_app_length. Qed.

Lemma fwd_Lit (c : N) (r : list Regex.item) (input rest : jsstring)
    (pos : nat) (o : list (nat * nat)) (cs : list jsstring) :
  drop pos input = c :: rest ->
  Regex.run (Lit c :: r) input pos o cs = Regex.run r input (S pos) o cs
  /\ drop (S pos) input = rest.
Proof.
  intros H. split.
  - simpl. assert (Hc : Js.charIs input pos c = true).
    { apply charIs_lookup. rewrite <- (Nat.add_0_r pos), <- lookup_drop.
      by rewrite H. }
    by rewrite Hc.
  - replace (S pos) with (pos + length [c]) by (simpl; lia).
    by apply (drop_after input [c]).
Qed.

Lemma fwd_Rep (p : N -> bool) (n : nat) (r : list Regex.item)
    (input w rest : jsstring) (pos : nat) (o : list (nat * nat))
    (cs : list jsstring) :
  drop pos input = w ++ rest -> length w = n ->
  Forall (fun c => p c = true) w ->
  Regex.run (Rep p n :: r) input pos o cs = Regex.run r input (pos + n) o cs
  /\ drop (pos + n) input = rest.
Proof.
  intros H Hn Hw. split.
  - simpl. rewrite H, <- Hn, take_app_length.
    pose proof (runLength_Forall p w [] Hw) as Hr. rewrite app_nil_r in Hr.
    apply Nat.leb_le in Hr. by rewrite Hr.
  - rewrite <- Hn. by apply drop_after.
Qed.

Lemma fwd_Plus (p : N -> bool) (r : list Regex.item)
    (input w rest : jsstring) (pos : nat) (o : list (nat * nat))
    (cs res : list jsstring) :
  drop pos input = w ++ rest -> w <> [] ->
  Forall (fun c => p c = true) w ->
  (forall c rest', rest = c :: rest' -> p c = false) ->
  Regex.run r input (pos + length w) o cs = Some res ->
  Regex.run (Plus p :: r) input pos o cs = Some res.
Proof.
  intros H Hne Hw Hrest Hrun. simpl.
  rewrite H, (runLength_exact p w rest Hw Hrest).
  apply greedy_top; [|done]. destruct w; [done|simpl; lia].
Qed.

Lemma fwd_Star (p : N -> bool) (r : list Regex.item)
    (input w rest : jsstring) (pos : nat) (o : list (nat * nat))
    (cs res : list jsstring) :
  drop pos input = w ++ rest ->
  Forall (fun c => p c = true) w ->
  (forall c rest', rest = c :: rest' -> p c = false) ->
  Regex.run r input (pos + length w) o cs = Some res ->
  Regex.run (Star p :: r) input pos o cs = Some res.
Proof.
  intros H Hw Hrest Hrun. simpl.
  rewrite H, (runLength_exact p w rest Hw Hrest).
  apply greedy_top; [lia|done].
Qed.

Ltac step_rep H L F H' :=
  rewrite (proj1 (fwd_Rep _ _ _ _ _ _ _ _ _ H L F));
  pose proof (proj2 (fwd_Rep _ _ [] _ _ _ _ [] [] H L F)) as H'.

Ltac step_lit H H' :=
  rewrite (proj1 (fwd_Lit _ _ _ _ _ _ _ H));
  pose proof (proj2 (fwd_Lit _ [] _ _ _ [] [] H)) as H'.

Lemma timestamp_complete (r : list Regex.item) (input ts rest : jsstring)
    (pos : nat) (o : list (nat * nat)) (cs res : list jsstring) :
  timestampShaped ts ->
  drop pos input = ts ++ rest ->
  Regex.run r input (pos + length ts) ((1, pos) :: o) (cs ++ [ts]) = Some res ->
  Regex.run (timestampItems ++ r) input pos o cs = Some res.
Proof.
  intros (y & mo & d & h & mi & s & frac & -> & Ly & Lmo & Ld & Lh & Lmi & Ls
          & Nfrac & Fall) Hdrop Hrun.
  apply Forall_app in Fall as [Fy Fall]. apply Forall_app in Fall as [Fmo Fall].
  apply Forall_app in Fall as [Fd Fall]. apply Forall_app in Fall as [Fh Fall].
  apply Forall_app in Fall as [Fmi Fall]. apply Forall_app in Fall as [Fs Ffrac].
  set (ts := y ++ 45%N :: mo ++ 45%N :: d ++ 84%N :: h ++ 58%N :: mi ++ 58%N
               :: s ++ 46%N :: frac ++ [90%N]) in *.
  assert (Hlen : length ts = 21 + length frac).
  { subst ts. repeat (rewrite length_app; simpl).
    rewrite Ly, Lmo, Ld, Lh, Lmi, Ls. lia. }
  assert (Hslice : Js.slice input pos (pos + length ts) = ts).
  { apply (slice_of_drop input ts pos); [|done].
    rewrite Hdrop. f_equal. symmetry. by apply drop_after. }
  pose proof Hdrop as H0. subst ts.
  repeat (rewrite <- app_assoc in H0; simpl in H0).
  unfold timestampItems. cbn [app]. rewrite run_Open_eq.
  step_rep H0 Ly Fy H1. step_lit H1 H2.
  step_rep H2 Lmo Fmo H3. step_lit H3 H4.
  step_rep H4 Ld Fd H5. step_lit H5 H6.
  step_rep H6 Lh Fh H7. step_lit H7 H8.
  step_rep H8 Lmi Fmi H9. step_lit H9 H10.
  step_rep H10 Ls Fs H11. step_lit H11 H12.
  apply (fwd_Plus Js.isDigit _ input frac _ _ _ _ _ H12 Nfrac Ffrac).
  { by intros c rest' [= <- _]. }
  apply drop_after in H12.
  step_lit H12 H13.
  rewrite run_Close_eq, startOf_head.
  match goal with
  | |- Regex.run _ _ ?e _ _ = _ =>
      replace e with (pos + length
        (y ++ 45%N :: mo ++ 45%N :: d ++ 84%N :: h ++ 58%N :: mi ++ 58%N
           :: s ++ 46%N :: frac ++ [90%N])) by lia
  end.
  by rewrite Hslice.
Qed.

Lemma block_complete (k : nat) (r : list Regex.item)
    (input ws g rest : jsstring) (pos : nat) (o : list (nat * nat))
    (cs res : list jsstring) :
  whitespaceRun ws -> bracketBody g ->
  drop pos input = ws ++ 91%N :: g ++ 93%N :: rest ->
  Regex.run r input (pos + length ws + length g + 2)
            ((k, S (pos + length ws)) :: o) (cs ++ [g]) = Some res ->
  Regex.run (blockItems k ++ r) input pos o cs = Some res.
Proof.
  intros [Nws Fws] [Ng Fg] Hdrop Hrun.
  unfold blockItems. cbn [app].
  apply (fwd_Plus Js.isWhiteSpace _ input ws _ _ _ _ _ Hdrop Nws Fws).
  { by intros c rest' [= <- _]. }
  apply drop_after in Hdrop as H1.
  step_lit H1 H2.
  rewrite run_Open_eq.
  apply (fwd_Plus notRBracket _ input g _ _ _ _ _ H2 Ng Fg).
  { by intros c rest' [= <- _]. }
  rewrite run_Close_eq, startOf_head.
  rewrite (slice_of_drop input g (S (pos + length ws)) _); [|by rewrite H2; f_equal; symmetry; apply drop_after|done].
  apply drop_after in H2 as H3.
  step_lit H3 H4.
  match goal with
  | |- Regex.run _ _ ?e _ _ = _ =>
      replace e with (pos + length ws + length g + 2) by lia
  end.
  done.
Qed.

Lemma tail_sound (input : jsstring) (p : nat) (o : list (nat * nat))
    (cs res : list jsstring) :
  Regex.run [Open 4; Star notLineTerminator; Close 4; Regex.Eol] input p o cs
  = Some res ->
  p <= length input
  /\ Forall (fun c => notLineTerminator c = true) (drop p input)
  /\ res = cs ++ [drop p input].
Proof.
  rewrite run_Open_eq. intros H.
  apply run_Star_inv in H as (w & Hw & Fw & H).
  rewrite run_Close_eq, startOf_head in H. cbn [Regex.run] in H.
  destruct (p + length w =? length input) eqn:Hend; [|done].
  apply Nat.eqb_eq in Hend. rewrite Hend in H, Hw. injection H as <-.
  rewrite drop_all, app_nil_r in Hw.
  split; [lia|]. split; [by rewrite Hw|].
  f_equal. f_equal. apply slice_of_drop; [by rewrite drop_all, app_nil_r|].
  rewrite Hw. lia.
Qed.

Lemma tail_complete (input : jsstring) (p : nat) (o : list (nat * nat))
    (cs : list jsstring) :
  p <= length input ->
  Forall (fun c => notLineTerminator c = true) (drop p input) ->
  Regex.run [Open 4; Star notLineTerminator; Close 4; Regex.Eol] input p o cs
  = Some (cs ++ [drop p input]).
Proof.
  intros Hp Hall. rewrite run_Open_eq.
  apply (fwd_Star notLineTerminator _ input (drop p input) []).
  - by rewrite app_nil_r.
  - done.
  - done.
  - rewrite run_Close_eq, startOf_head. cbn [Regex.run].
    rewrite length_drop.
    replace (p + (length input - p)) with (length input) by lia.
    rewrite Nat.eqb_refl. do 3 f_equal.
    apply slice_of_drop; [by rewrite drop_all, app_nil_r|].
    rewrite length_drop. lia.
Qed.

Lemma run_Plus_eq (p : N -> bool) (r : list Regex.item) (input : jsstring)
    (pos : nat) (o : list (nat * nat)) (cs : list jsstring) :
  Regex.run (Plus p :: r) input pos o cs
  = Regex.greedy (fun k => Regex.run r input (pos + k) o cs) 1
      (Js.runLength p (drop pos input)).
Proof. reflexivity. Qed.

Lemma payload_sound (input : jsstring) (pos : nat) (o : list (nat * nat))
    (cs res : list jsstring) :
  Regex.run payloadItems input pos o cs = Some res ->
  exists ws payload,
    whitespaceRun ws
    /\ drop pos input = ws ++ payload
    /\ Forall (fun c => notLineTerminator c = true) payload
    /\ (forall c rest, payload = c :: rest -> Js.isWhiteSpace c = false)
    /\ res = cs ++ [payload].
Proof.
  unfold payloadItems. rewrite run_Plus_eq.
  set (R := Js.runLength Js.isWhiteSpace (drop pos input)).
  intros (k & [Hk1 Hk2] & Hk & Hmax)%greedy_Some_max.
  cbv beta in Hk, Hmax.
  apply tail_sound in Hk as (Hle & Hall & ->).
  assert (HR : pos + R <= length input).
  { pose proof (runLength_le Js.isWhiteSpace (drop pos input)) as Hl.
    rewrite length_drop in Hl. fold R in Hl. lia. }
  assert (k = R) as ->.
  { destruct (decide (k = R)) as [|Hne]; [done|]. exfalso.
    assert (Hnone := Hmax R ltac:(lia)).
    rewrite tail_complete in Hnone; [done|done|].
    replace (pos + R) with (pos + k + (R - k)) by lia.
    rewrite <- drop_drop. by apply Forall_drop. }
  destruct (runLength_take Js.isWhiteSpace (drop pos input) R ltac:(done))
    as [Hlen Hws].
  exists (take R (drop pos input)), (drop (pos + R) input).
  split; [split; [|done]|].
  { intros Hnil. rewrite Hnil in Hlen. simpl in Hlen. lia. }
  split; [apply drop_split|]. split; [done|]. split; [|done].
  intros c rest Hc.
  apply (runLength_stop Js.isWhiteSpace (drop pos input) c). fold R.
  rewrite lookup_drop, <- (Nat.add_0_r (pos + R)), <- lookup_drop. by rewrite Hc.
Qed.

Lemma payload_complete (input ws payload : jsstring) (pos : nat)
    (o : list (nat * nat)) (cs : list jsstring) :
  whitespaceRun ws ->
  Forall (fun c => notLineTerminator c = true) payload ->
  (forall c rest, payload = c :: rest -> Js.isWhiteSpace c = false) ->
  drop pos input = ws ++ payload ->
  Regex.run payloadItems input pos o cs = Some (cs ++ [payload]).
Proof.
  intros [Nws Fws] Hall Hhead Hdrop. unfold payloadItems.
  apply (fwd_Plus Js.isWhiteSpace _ input ws payload); [done..|].
  pose proof (drop_after input ws payload pos Hdrop) as Hrest.
  rewrite <- Hrest. apply tail_complete; [|by rewrite Hrest].
  apply (f_equal length) in Hdrop. rewrite length_drop, length_app in Hdrop.
  destruct ws; [done|]. simpl in Hdrop. simpl. lia.
Qed.

Lemma trimEnd_last (s : jsstring) (c : N) :
  list.last (Js.trimEnd s) = Some c -> Js.isWhiteSpace c = false.
Proof.
  unfold Js.trimEnd. destruct (Js.trimStart (rev s)) as [|d t] eqn:Ht; [done|].
  simpl. rewrite last_snoc. intros [= <-]. by apply (trimStart_head (rev s) d t).
Qed.

Lemma exec_lineShaped (line ts lvl loc payload : jsstring) :
  Regex.exec LOG_LINE_REGEX line = Some [ts; lvl; loc; payload]
  <-> lineShaped line ts lvl loc payload.
Proof.
  revert line. intros l. split.
  - intros (p & Hrun)%firstMatch_Some.
    rewrite LOG_LINE_REGEX_parts in Hrun. cbn [Regex.run] in Hrun.
    destruct (p =? 0) eqn:Hp; [|done]. apply Nat.eqb_eq in Hp as ->.
    apply timestamp_sound in Hrun as (ts0 & o1 & Hts & Hd0 & Hrun).
    apply block_sound in Hrun as (ws1 & g1 & o2 & Hws1 & Hg1 & Hd1 & Hrun).
    apply block_sound in Hrun as (ws2 & g2 & o3 & Hws2 & Hg2 & Hd2 & Hrun).
    apply payload_sound in Hrun as (ws3 & p0 & Hws3 & Hd3 & Hall & Hhead & Hres).
    simpl in Hres. injection Hres as -> -> -> ->.
    exists ws1, ws2, ws3. split; [|done].
    cbn [Nat.add] in Hd0, Hd1, Hd2, Hd3.
    rewrite drop_0 in Hd0. rewrite Hd0 at 1. f_equal.
    rewrite Hd1. f_equal. f_equal. f_equal. f_equal.
    rewrite Hd2. f_equal. f_equal. f_equal. f_equal. done.
  - intros (ws1 & ws2 & ws3 & Hl & Hts & Hws1 & Hws2 & Hws3 & Hg1 & Hg2
            & Hall & Hhead).
    unfold Regex.exec. cbn [seq Regex.firstMatch].
    assert (Hrun : Regex.run LOG_LINE_REGEX l 0 [] []
                   = Some [ts; lvl; loc; payload]); [|by rewrite Hrun].
    rewrite LOG_LINE_REGEX_parts. cbn [Regex.run Nat.eqb].
    assert (H0 : drop 0 l
                 = ts ++ ws1 ++ 91%N :: lvl ++ 93%N :: ws2 ++ 91%N :: loc
                      ++ 93%N :: ws3 ++ payload) by (by rewrite drop_0).
    apply (timestamp_complete _ l ts _ 0 [] [] _ Hts H0).
    apply drop_after in H0 as H1.
    apply (block_complete 2 _ l ws1 lvl _ _ _ _ _ Hws1 Hg1 H1).
    assert (H2 : drop (0 + length ts + length ws1 + length lvl + 2) l
                 = ws2 ++ 91%N :: loc ++ 93%N :: ws3 ++ payload).
    { replace (0 + length ts + length ws1 + length lvl + 2)
        with (0 + length ts + length (ws1 ++ 91%N :: lvl ++ [93%N]))
        by (rewrite length_app; simpl; rewrite length_app; simpl; lia).
      apply drop_after. rewrite H1. rewrite <- !app_assoc. simpl.
      by rewrite <- !app_assoc. }
    apply (block_complete 3 _ l ws2 loc _ _ _ _ _ Hws2 Hg2 H2).
    assert (H3 : drop (0 + length ts + length ws1 + length lvl + 2
                       + length ws2 + length loc + 2) l
                 = ws3 ++ payload).
    { replace (0 + length ts + length ws1 + length lvl + 2
               + length ws2 + length loc + 2)
        with (0 + length ts + length ws1 + length lvl + 2
              + length (ws2 ++ 91%N :: loc ++ [93%N]))
        by (rewrite length_app; simpl; rewrite length_app; simpl; lia).
      apply drop_after. rewrite H2. rewrite <- !app_assoc. simpl.
      by rewrite <- !app_assoc. }
    by apply (payload_complete l ws3 payload).
Qed.

Lemma lineShaped_trimmed_payload (line ts lvl loc payload : jsstring) :
  lineShaped (Js.trim line) ts lvl loc payload -> payload <> [].
Proof.
  intros (ws1 & ws2 & ws3 & Hl & _ & _ & _ & [Hne Hws3] & _) ->.
  rewrite app_nil_r in Hl.
  destruct (list.last ws3) as [c|] eqn:Hlast.
  - assert (Hc : Js.isWhiteSpace c = true).
    { apply last_Some in Hlast as [w ->].
      by apply Forall_app in Hws3 as [_ [Hc _]%list.Forall_cons]. }
    assert (Hlast' : list.last (Js.trim line) = Some c).
    { rewrite Hl. apply last_Some in Hlast as [w ->].
      rewrite !app_comm_cons, !app_assoc.
      repeat rewrite ?app_comm_cons, ?app_assoc. apply last_snoc. }
    unfold Js.trim in Hlast'. apply trimEnd_last in Hlast'. congruence.
  - apply last_None in Hlast. done.
Qed.

(** The pattern matches a line exactly when the line is of the grammar:
    the timestamp shape, whitespace, a bracketed block without a closing
    bracket in it, whitespace, a second such block, whitespace, and a
    payload without a line terminator that does not start with whitespace;
    the four captures are the timestamp, the two block bodies and the
    payload.  The whitespace asked for after the second block cannot be
    the trimmed end of a line: a line that parses after [trim] has a
    payload of at least one unit. *)
Theorem LOG_LINE_REGEX_grammar (line ts lvl loc payload : jsstring) :
  (Regex.exec LOG_LINE_REGEX line = Some [ts; lvl; loc; payload]
   <-> lineShaped line ts lvl loc payload)
  /\ (Regex.exec LOG_LINE_REGEX (Js.trim line) = Some [ts; lvl; loc; payload]
      -> payload <> []).
Proof.
  split; [apply exec_lineShaped|].
  intros H%exec_lineShaped. by apply (lineShaped_trimmed_payload line ts lvl loc).
Qed.

(** ** The entries of a text *)

Lemma numberedFrom_lookup (lines : list jsstring) :
  forall (index i : nat) (line : jsstring),
    lines !! i = Some line -> (index + i, line) ∈ numberedFrom index lines.
Proof.
  induction lines as [|l lines IH]; intros index i line; [done|].
  rewrite numberedFrom_cons. destruct i as [|i]; simpl.
  - intros [= ->]. rewrite Nat.add_0_r. by left.
  - intros H. right. replace (index + S i) with (S index + i) by lia.
    by apply IH.
Qed.

Lemma lineShaped_not_empty (line ts lvl loc payload : jsstring) :
  lineShaped line ts lvl loc payload -> line <> [].
Proof.
  intros (ws1 & ws2 & ws3 & -> & Hts & _).
  destruct Hts as (y & mo & d & h & mi & s & frac & -> & Ly & _).
  destruct y; [done|]. done.
Qed.

Lemma splitPayload_metadataWellFormed (payload : jsstring) :
  metadataWellFormed (splitPayload payload).2.
Proof.
  assert (Hempty : metadataWellFormed JsObject.empty).
  { split; [constructor|]. intros k v H. by apply elem_of_nil in H. }
  unfold splitPayload. destruct payload as [|c payload]; [done|].
  destruct (findMetadataStart (c :: payload)); [|done].
  by apply parseMetadata_loop_wellFormed.
Qed.

(** What [parseLogText] makes of a text.  Every entry comes from a line
    of the text that, trimmed, is of the grammar, with a payload of at
    least one unit: its [raw] is the trimmed line, its [timestampRaw] the
    timestamp segment, its [id] that segment with the index of the line,
    its level the first block trimmed and lowercased, its source what
    [parseLocation] makes of the second block, its message and metadata
    what [splitPayload] makes of the payload, the metadata without a key
    twice and with trimmed values.  Every line of the text that, trimmed,
    is of the grammar has its entry.  And the line parser returns nothing
    exactly on the lines that are not of the grammar. *)
Theorem parseLogText_entries_of_grammar {num : Type}
    (Date_parse : jsstring -> option Z) (toLowerCase : jsstring -> jsstring)
    (Number : jsstring -> num) (text : jsstring) :
  let result := parseLogText Date_parse toLowerCase Number text in
  (forall entry,
     entry ∈ result.(entries) ->
     exists index line lvl loc payload,
       Js.splitLines text !! index = Some line
       /\ entry.(raw) = Js.trim line
       /\ lineShaped (Js.trim line) entry.(timestampRaw) lvl loc payload
       /\ payload <> []
       /\ entry.(id) = entry.(timestampRaw) ++ 45%N :: Js.decimal index
       /\ entry.(timestamp) = Date_parse entry.(timestampRaw)
       /\ entry.(level) = toLowerCase (Js.trim lvl)
       /\ (entry.(sourceFile), entry.(sourceLine)) = parseLocation Number loc
       /\ (entry.(message), entry.(metadata)) = splitPayload payload
       /\ metadataWellFormed entry.(metadata))
  /\ (forall index line ts lvl loc payload,
        Js.splitLines text !! index = Some line ->
        lineShaped (Js.trim line) ts lvl loc payload ->
        exists entry,
          entry ∈ result.(entries)
          /\ entry.(raw) = Js.trim line
          /\ entry.(id) = ts ++ 45%N :: Js.decimal index)
  /\ (forall line index,
        parseLine Date_parse toLowerCase Number line index = None
        <-> ~ exists ts lvl loc payload, lineShaped line ts lvl loc payload).
Proof.
  intros result.
  destruct (parseLogText_spec Date_parse toLowerCase Number text) as [He _].
  cbv zeta in He. subst result. rewrite He.
  split; [|split].
  - intros entry ([i line] & Hin & Hp)%list_elem_of_omap.
    apply list_elem_of_filter in Hin as [_ Hin].
    apply numberedFrom_elem in Hin as [_ Hl]. rewrite Nat.sub_0_r in Hl.
    unfold parseNumbered in Hp. cbn [fst snd] in Hp.
    destruct (Regex.exec LOG_LINE_REGEX (Js.trim line)) as [caps|] eqn:Hm.
    + destruct (LOG_LINE_REGEX_groups _ _ Hm) as (ts & lvl & loc & payload & ->).
      rewrite (parseLine_match _ _ _ _ _ _ _ _ _ Hm) in Hp.
      injection Hp as <-. cbn.
      exists i, line, lvl, loc, payload.
      apply exec_lineShaped in Hm.
      split; [done|]. split; [done|]. split; [done|].
      split; [by apply (lineShaped_trimmed_payload line ts lvl loc)|].
      split; [done|]. split; [done|]. split; [done|].
      split; [by destruct (parseLocation Number loc)|].
      split; [by destruct (splitPayload payload)|].
      apply splitPayload_metadataWellFormed.
    + unfold parseLine in Hp. by rewrite Hm in Hp.
  - intros index line ts lvl loc payload Hl Hshape.
    pose proof (proj2 (exec_lineShaped _ _ _ _ _) Hshape) as Hm.
    eexists. split.
    + apply list_elem_of_omap. exists (index, line). split.
      * apply list_elem_of_filter. split.
        -- unfold nonBlank. cbn [snd].
           by apply (lineShaped_not_empty _ ts lvl loc payload).
        -- by apply (numberedFrom_lookup _ 0 index).
      * unfold parseNumbered. cbn [fst snd].
        apply (parseLine_match _ _ _ _ _ _ _ _ _ Hm).
    + done.
  - intros line index. rewrite parseLine_None. split.
    + intros Hm (ts & lvl & loc & payload & Hshape).
      apply exec_lineShaped in Hshape. congruence.
    + intros Hnot.
      destruct (Regex.exec LOG_LINE_REGEX line) as [caps|] eqn:Hm; [|done].
      destruct (LOG_LINE_REGEX_groups _ _ Hm) as (ts & lvl & loc & payload & ->).
      exfalso. apply Hnot. exists ts, lvl, loc, payload.
      by apply exec_lineShaped.
Qed.

(** * The key start, the tail of a block, the timestamp and the columns *)

(** ** The look-ahead and the key start of the specification *)

Lemma isKeyAhead_charIs (block : jsstring) (start : nat) :
  isKeyAhead block start
  = Js.charIs block
      (Js.scanWhile KEY_CHAR_REGEX block (Js.scanWhile isSpace block start)) 61.
Proof.
  unfold isKeyAhead.
  set (keyStart := Js.scanWhile isSpace block start).
  set (keyEnd := Js.scanWhile KEY_CHAR_REGEX block keyStart).
  destruct (Js.charIs block keyEnd 61) eqn:Hc; [|by rewrite andb_false_r].
  apply charIs_lt in Hc.
  pose proof (scanWhile_ge KEY_CHAR_REGEX block keyStart : keyStart <= keyEnd).
  apply Nat.ltb_lt in Hc as Hc'. rewrite Hc'.
  assert (Hk : (keyStart <? length block) = true) by (apply Nat.ltb_lt; lia).
  by rewrite Hk.
Qed.

(** The look-ahead is the key start of the specification wherever the
    unit after the spaces is not [=]. *)
Lemma isKeyAhead_keyStartsAt (block : jsstring) (position : nat) :
  Js.charIs block (Js.scanWhile isSpace block position) 61 = false ->
  isKeyAhead block position = keyStartsAt block position.
Proof.
  intros Hne. rewrite isKeyAhead_charIs. unfold keyStartsAt.
  set (keyStart := Js.scanWhile isSpace block position) in *.
  set (keyEnd := Js.scanWhile KEY_CHAR_REGEX block keyStart).
  destruct (Js.charIs block keyEnd 61) eqn:Hc; [|by rewrite andb_false_r].
  rewrite andb_true_r. symmetry. apply Nat.ltb_lt.
  pose proof (scanWhile_ge KEY_CHAR_REGEX block keyStart : keyStart <= keyEnd).
  destruct (decide (keyStart = keyEnd)) as [Heq|]; [|lia].
  rewrite <- Heq in Hc. congruence.
Qed.

(** A key start of the specification is one for the look-ahead. *)
Lemma keyStartsAt_isKeyAhead (block : jsstring) (position : nat) :
  keyStartsAt block position = true -> isKeyAhead block position = true.
Proof.
  rewrite isKeyAhead_charIs. unfold keyStartsAt. by intros [_ ?]%andb_prop.
Qed.

Lemma keyStartsAt_beyond (block : jsstring) (position : nat) :
  length block <= position -> keyStartsAt block position = false.
Proof.
  intros Hle. unfold keyStartsAt.
  rewrite (scanWhile_end isSpace block position Hle).
  rewrite (scanWhile_end KEY_CHAR_REGEX block position Hle).
  by rewrite Nat.ltb_irrefl.
Qed.

(** In a text without an empty key the two agree at the start of the text
    and after every space. *)
Lemma noEmptyKey_agree (block : jsstring) (position : nat) :
  noEmptyKey block ->
  position = 0 \/ Js.charIs block (position - 1) 32 = true ->
  isKeyAhead block position = keyStartsAt block position.
Proof.
  intros [H0 Hsp] Hpos. apply isKeyAhead_keyStartsAt.
  destruct (Js.charIs block position 32) eqn:Hhere.
  - destruct (after_spaces block position Hhere) as (Hr & Hb & _).
    cbv zeta in Hr, Hb.
    set (s := Js.scanWhile isSpace block position) in *.
    specialize (Hsp (s - 1) Hb). by replace (s - 1 + 1) with s in Hsp by lia.
  - assert (Hs : Js.scanWhile isSpace block position = position).
    { destruct (block !! position) as [c|] eqn:Hc.
      - apply (scanWhile_not isSpace block position c Hc).
        unfold Js.charIs in Hhere. rewrite Hc in Hhere. done.
      - apply scanWhile_end. by apply lookup_ge_None. }
    rewrite Hs. destruct Hpos as [->|Hprev]; [done|].
    destruct (decide (position = 0)) as [->|Hne]; [done|].
    specialize (Hsp (position - 1) Hprev).
    by replace (position - 1 + 1) with position in Hsp by lia.
Qed.

(** The three counters of [bumpDepth] are the depths of the three kinds of
    bracket, each on its own. *)
Lemma bumpDepth_nesting (s : jsstring) :
  forall (depthParen depthBracket depthBrace : nat),
    foldl (fun d c => bumpDepth c d) (depthParen, depthBracket, depthBrace) s
    = (nesting 40 41 depthParen s, nesting 91 93 depthBracket s,
       nesting 123 125 depthBrace s).
Proof.
  induction s as [|c s IH]; intros p b r; [done|].
  cbn [foldl nesting]. 
  assert (Hstep : bumpDepth c (p, b, r)
                  = (if (c =? 40)%N then S p else if (c =? 41)%N then pred p else p,
                     if (c =? 91)%N then S b else if (c =? 93)%N then pred b else b,
                     if (c =? 123)%N then S r else if (c =? 125)%N then pred r else r)).
  { unfold bumpDepth.
    destruct (N.eqb_spec c 40) as [->|]; [done|].
    destruct (N.eqb_spec c 41) as [->|].
    { destruct p; done. }
    destruct (N.eqb_spec c 91) as [->|]; [done|].
    destruct (N.eqb_spec c 93) as [->|].
    { destruct b; done. }
    destruct (N.eqb_spec c 123) as [->|]; [done|].
    destruct (N.eqb_spec c 125) as [->|]; [|done].
    destruct r; done. }
  rewrite Hstep. apply IH.
Qed.

Lemma slice_snoc (s : jsstring) (i j : nat) (c : N) :
  i <= j -> s !! j = Some c -> Js.slice s i (j + 1) = Js.slice s i j ++ [c].
Proof.
  intros Hij Hc. unfold Js.slice.
  replace (j + 1 - i) with (S (j - i)) by lia.
  rewrite (take_S_r _ _ c); [done|].
  rewrite lookup_drop. by replace (i + (j - i)) with j by lia.
Qed.

(** The test that ends the loop, in the words of the specification. *)
Lemma stopsAt_endsValue (block : jsstring) (startIndex i : nat) :
  noEmptyKey block -> startIndex <= i ->
  stopsAt (0, 0, 0) block startIndex i <-> endsValue block startIndex i.
Proof.
  intros Hne Hi. unfold stopsAt, endsValue.
  split.
  - intros (Hsp & Hz & Hk). split; [done|].
    unfold depthFrom in Hz.
    rewrite (slice_snoc block startIndex i 32) in Hz
      by (done || by apply charIs_lookup).
    rewrite foldl_app in Hz. cbn [foldl] in Hz.
    rewrite bumpDepth_space, bumpDepth_nesting in Hz.
    unfold depthZero in Hz.
    apply andb_prop in Hz as [[H1%Nat.eqb_eq H2%Nat.eqb_eq]%andb_prop H3%Nat.eqb_eq].
    rewrite <- (noEmptyKey_agree block (i + 1) Hne).
    + done.
    + right. by replace (i + 1 - 1) with i by lia.
  - intros (Hsp & H1 & H2 & H3 & Hk). split; [done|]. split.
    + unfold depthFrom.
      rewrite (slice_snoc block startIndex i 32)
        by (done || by apply charIs_lookup).
      rewrite foldl_app. cbn [foldl].
      rewrite bumpDepth_space, bumpDepth_nesting.
      unfold depthZero. by rewrite H1, H2, H3.
    + by apply keyStartsAt_isKeyAhead.
Qed.

Lemma keyAfterDoubleSpace_code (payload : jsstring) (i : nat) :
  noEmptyKey payload ->
  doubleSpaceBoundary payload i <-> keyAfterDoubleSpace payload i.
Proof.
  intros Hne. unfold doubleSpaceBoundary, keyAfterDoubleSpace.
  split; intros (H1 & H2 & H3); (split; [done|split; [done|]]).
  - rewrite <- (noEmptyKey_agree payload _ Hne); [done|].
    right. by destruct (after_spaces payload i H1) as (_ & ? & _).
  - by apply keyStartsAt_isKeyAhead.
Qed.

Lemma keyAfterSingleSpace_code (payload : jsstring) (i : nat) :
  noEmptyKey payload ->
  singleSpaceBoundary payload i <-> keyAfterSingleSpace payload i.
Proof.
  intros Hne. unfold singleSpaceBoundary, keyAfterSingleSpace.
  split; intros (H1 & H3); (split; [done|]).
  - rewrite <- (noEmptyKey_agree payload _ Hne); [done|].
    right. by destruct (after_spaces payload i H1) as (_ & ? & _).
  - by apply keyStartsAt_isKeyAhead.
Qed.

Lemma readValue_unfold (block : jsstring) (startIndex : nat) :
  readValue block startIndex
  = (Js.trimEnd
       (Js.slice block startIndex
          (readValue_loop block (drop startIndex block) startIndex (0, 0, 0))),
     readValue_loop block (drop startIndex block) startIndex (0, 0, 0)).
Proof. reflexivity. Qed.

(** C2.  On the block [a=1 =5] the value of [a] is read as [1], ending at
    the space at index 3, though no key start follows that space: the
    identifier run before the [=] is empty, and the specification makes
    the space and [=5] part of the value.  The look-ahead of the code does
    not ask the run to have a unit, and [parseMetadata] goes on to read the
    pair of the empty key and [5].  In every block in which no [=] stands
    at the start or right after a space, the value is read as the
    specification says: the scan ends at the first space at which the
    depths of the three kinds of bracket, each counted on its own, are all
    zero and a key start follows the space, or at the end of the block when
    there is no such space, unclosed brackets included; a space before
    that, inside a bracket or without a key start after it, is part of the
    value; the value is the text scanned, without its trailing whitespace.  The JSON-like value of
    the example is read whole, and so is a bracketed value that holds a
    space followed by a key start. *)
Theorem readValue_splits_before_empty_key :
  keyStartsAt emptyKeyBlock 4 = false
  /\ readValue emptyKeyBlock 2 = (js "1", 3)
  /\ parseMetadata emptyKeyBlock = [(js "a", js "1"); ([], js "5")]
  /\ (forall block startIndex,
        noEmptyKey block ->
        let value := (readValue block startIndex).1 in
        let nextIndex := (readValue block startIndex).2 in
        value = Js.trimEnd (Js.slice block startIndex nextIndex)
        /\ (forall i, startIndex <= i < nextIndex ->
              ~ endsValue block startIndex i)
        /\ (forall i, startIndex <= i -> Js.charIs block i 32 = true ->
              ~ endsValue block startIndex i ->
              (forall k, startIndex <= k < i -> ~ endsValue block startIndex k) ->
              i < nextIndex)
        /\ (endsValue block startIndex nextIndex
            \/ nextIndex = Nat.max startIndex (length block)
               /\ forall i, startIndex <= i -> ~ endsValue block startIndex i))
  /\ readValue jsonBlock 10 = (jsonBlob, 30)
  /\ parseMetadata jsonBlock
     = [(js "id", js "7"); (js "body", jsonBlob); (js "status", js "ok")]
  /\ keyStartsAt nestedBlock 5 = true
  /\ parseMetadata nestedBlock = [(js "x", js "(a b=1)"); (js "y", js "2")].
Proof.
  split; [vm_compute; reflexivity|].
  split; [vm_compute; reflexivity|].
  split; [vm_compute; reflexivity|].
  split; [|repeat split; vm_compute; reflexivity].
  intros block startIndex Hne. cbv zeta. rewrite readValue_unfold. cbn [fst snd].
  pose proof (readValue_loop_spec block (drop startIndex block) startIndex
                (0, 0, 0) eq_refl) as Hspec.
  cbv zeta in Hspec. destruct Hspec as (Hrange & Hbefore & Hat).
  set (next := readValue_loop block (drop startIndex block) startIndex (0, 0, 0))
    in *.
  rewrite length_drop in *.
  split; [done|]. split; [|split].
  - intros i Hi Hends. apply (Hbefore i Hi).
    apply stopsAt_endsValue; [done|lia|done].
  - intros i Hi Hsp Hnot Hfirst.
    destruct (decide (i < next)) as [|Hge]; [done|]. exfalso.
    destruct Hat as [Hstop|[Hend Hnone]].
    + apply stopsAt_endsValue in Hstop; [|done|lia].
      destruct (decide (next = i)) as [<-|Hdiff]; [done|].
      apply (Hfirst next); [lia|done].
    + apply charIs_lt in Hsp. lia.
  - destruct Hat as [Hstop|[Hend Hnone]].
    + left. apply stopsAt_endsValue; [done|lia|done].
    + right. split; [lia|]. intros i Hi Hends. apply (Hnone i Hi).
      apply stopsAt_endsValue; [done|lia|done].
Qed.

Lemma keyStartsAt_nowhere (block : jsstring) :
  forallb (fun i => negb (keyStartsAt block i)) (seq 0 (length block)) = true ->
  forall i, keyStartsAt block i = false.
Proof.
  intros Hall i. destruct (decide (i < length block)) as [Hlt|Hge].
  - rewrite forallb_forall in Hall. apply negb_true_iff, Hall.
    apply in_seq. lia.
  - apply keyStartsAt_beyond. lia.
Qed.

(** C3.  The payload [retry count = 5] has no key start at any position:
    the one [=] has a space before it, and so an empty identifier run.
    The specification makes the whole payload the message and leaves the
    metadata empty.  The look-ahead of the code does not ask the run to
    have a unit: [findMetadataStart] returns 12, the message is
    [retry count] and the metadata has the pair of the empty key and [5].
    In every payload in which no [=] stands at the start or right after a
    space, and no key starts at position 0, the boundary is where the
    specification puts it: at the end of the run of spaces of the first
    double space followed, the spaces skipped, by a key start, whatever
    single spaces followed by a key start come before it; without any such
    double space, at the end of the run of spaces of the first space
    followed by a key start; and without either there is no boundary, the
    message is the whole payload, trimmed, and the metadata is empty. *)
Theorem findMetadataStart_takes_empty_key :
  (forall i, keyStartsAt emptyKeyPayload i = false)
  /\ findMetadataStart emptyKeyPayload = Some 12
  /\ splitPayload emptyKeyPayload = (js "retry count", [([], js "5")])
  /\ (forall payload,
        noEmptyKey payload ->
        keyStartsAt payload 0 = false ->
        (forall i, keyAfterDoubleSpace payload i ->
           (forall k, k < i -> ~ keyAfterDoubleSpace payload k) ->
           findMetadataStart payload = Some (Js.scanWhile isSpace payload i)
           /\ (splitPayload payload).1
              = Js.trimEnd (Js.slice payload 0 (Js.scanWhile isSpace payload i)))
        /\ ((forall k, ~ keyAfterDoubleSpace payload k) ->
            forall i, keyAfterSingleSpace payload i ->
              (forall k, k < i -> ~ keyAfterSingleSpace payload k) ->
              findMetadataStart payload = Some (Js.scanWhile isSpace payload i)
              /\ (splitPayload payload).1
                 = Js.trimEnd
                     (Js.slice payload 0 (Js.scanWhile isSpace payload i)))
        /\ ((forall k, ~ keyAfterDoubleSpace payload k) ->
            (forall k, ~ keyAfterSingleSpace payload k) ->
            findMetadataStart payload = None
            /\ splitPayload payload = (Js.trim payload, JsObject.empty)))
  /\ keyAfterSingleSpace (js "a b=1  c=2") 1
  /\ keyAfterDoubleSpace (js "a b=1  c=2") 5
  /\ splitPayload (js "a b=1  c=2") = (js "a b=1", [(js "c", js "2")]).
Proof.
  split; [apply keyStartsAt_nowhere; vm_compute; reflexivity|].
  split; [vm_compute; reflexivity|].
  split; [vm_compute; reflexivity|].
  split; [|repeat split; vm_compute; reflexivity].
  intros payload Hne Hzero.
  assert (H0 : isKeyAhead payload 0 = false).
  { rewrite (noEmptyKey_agree payload 0 Hne); [done|by left]. }
  assert (Hmsg : forall j, findMetadataStart payload = Some j ->
            (splitPayload payload).1 = Js.trimEnd (Js.slice payload 0 j)).
  { intros j Hj. unfold splitPayload. destruct payload; [done|]. by rewrite Hj. }
  assert (Hd : forall k, doubleSpaceBoundary payload k
                         <-> keyAfterDoubleSpace payload k)
    by (intros k; by apply keyAfterDoubleSpace_code).
  assert (Hs : forall k, singleSpaceBoundary payload k
                         <-> keyAfterSingleSpace payload k)
    by (intros k; by apply keyAfterSingleSpace_code).
  split; [|split].
  - intros i Hi Hfirst.
    assert (Hj : findMetadataStart payload
                 = Some (Js.scanWhile isSpace payload i)).
    { apply findMetadataStart_double; [done|by apply Hd|].
      intros k Hk Hb. apply (Hfirst k Hk). by apply Hd. }
    eauto.
  - intros Hnodouble i Hi Hfirst.
    assert (Hj : findMetadataStart payload
                 = Some (Js.scanWhile isSpace payload i)).
    { apply findMetadataStart_single; [done| |by apply Hs|].
      - intros k Hb. apply (Hnodouble k). by apply Hd.
      - intros k Hk Hb. apply (Hfirst k Hk). by apply Hs. }
    eauto.
  - intros _ Hnone.
    assert (Hj : findMetadataStart payload = None).
    { apply findMetadataStart_none; [done|].
      intros k Hb. apply (Hnone k). by apply Hs. }
    split; [done|]. unfold splitPayload. destruct payload; [done|].
    by rewrite Hj.
Qed.

(** ** The [=] test of [parseMetadata] *)

Lemma equalsAfterRun_isKeyAhead (block : jsstring) (index : nat) :
  equalsAfterRun block index = isKeyAhead block index.
Proof. by rewrite isKeyAhead_charIs. Qed.

(** A round of the loop that finds [=] after the identifier run. *)
Lemma parseMetadata_loop_pair (fuel : nat) (block : jsstring) (index : nat)
    (metadata : JsObject.t jsstring) :
  equalsAfterRun block index = true ->
  let keyStart := Js.scanWhile isSpace block index in
  let keyEnd := Js.scanWhile KEY_CHAR_REGEX block keyStart in
  parseMetadata_loop (S fuel) block index metadata
  = parseMetadata_loop fuel block (readValue block (keyEnd + 1)).2
      (JsObject.set (Js.slice block keyStart keyEnd)
         (Js.trim (readValue block (keyEnd + 1)).1) metadata).
Proof.
  unfold equalsAfterRun. intros Heq. cbv zeta.
  rewrite parseMetadata_loop_round. cbv zeta.
  set (keyStart := Js.scanWhile isSpace block index) in *.
  set (keyEnd := Js.scanWhile KEY_CHAR_REGEX block keyStart) in *.
  pose proof (charIs_lt _ _ _ Heq) as Hlt.
  pose proof (scanWhile_ge isSpace block index : index <= keyStart).
  pose proof (scanWhile_ge KEY_CHAR_REGEX block keyStart : keyStart <= keyEnd).
  rewrite (proj2 (Nat.leb_gt (length block) index)) by lia.
  rewrite (proj2 (Nat.leb_gt (length block) keyEnd)) by lia.
  by rewrite Heq.
Qed.





(** ** The block that [splitPayload] cuts *)


Lemma keyChar_not_space (c : N) : KEY_CHAR_REGEX c = true -> isSpace c = false.
Proof.
  intros H. apply not_true_is_false. intros Hw%N.eqb_eq. subst c. done.
Qed.

Lemma trimStart_drop_spaces (s : jsstring) :
  Js.trimStart (drop (Js.runLength isSpace s) s) = Js.trimStart s.
Proof.
  induction s as [|c s IH]; [done|]. simpl.
  destruct (isSpace c) eqn:Hc; simpl; [|done].
  apply N.eqb_eq in Hc. subst c. by rewrite IH.
Qed.



Lemma equalsAfterRun_drop (block : jsstring) (index : nat) :
  equalsAfterRun block index = equalsAfterRun (drop index block) 0.
Proof.
  unfold equalsAfterRun, Js.scanWhile, Js.charIs.
  rewrite drop_0. cbn [Nat.add].
  rewrite !lookup_drop, !drop_drop.
  by rewrite Nat.add_assoc.
Qed.

(** The [=] test holds at the start of a text exactly when the text is
    spaces, identifier units and [=], in that order, and then anything. *)
Lemma equalsAfterRun_start (s : jsstring) :
  equalsAfterRun s 0 = true
  <-> exists spaces key rest,
        s = spaces ++ key ++ 61%N :: rest
        /\ Forall (fun c => isSpace c = true) spaces
        /\ Forall (fun c => KEY_CHAR_REGEX c = true) key.
Proof.
  unfold equalsAfterRun, Js.scanWhile. rewrite drop_0. cbn [Nat.add].
  rewrite charIs_lookup.
  set (n := Js.runLength isSpace s).
  set (m := Js.runLength KEY_CHAR_REGEX (drop n s)).
  split.
  - intros Hc.
    exists (take n s), (take m (drop n s)), (drop (S (n + m)) s).
    destruct (runLength_take isSpace s n ltac:(done)) as [_ Hsp].
    destruct (runLength_take KEY_CHAR_REGEX (drop n s) m ltac:(done)) as [_ Hk].
    split; [|done].
    rewrite <- (take_drop n s) at 1. f_equal.
    rewrite <- (take_drop m (drop n s)) at 1. f_equal.
    rewrite drop_drop. by apply drop_S.
  - intros (spaces & key & rest & -> & Hsp & Hk).
    assert (Hn : n = length spaces).
    { subst n. apply runLength_exact; [done|].
      intros c rest' Hrest. destruct key as [|k key].
      - injection Hrest as <- _. done.
      - injection Hrest as <- _. apply keyChar_not_space.
        by inversion Hk. }
    assert (Hd : drop n (spaces ++ key ++ 61%N :: rest) = key ++ 61%N :: rest).
    { rewrite Hn. apply drop_app_length. }
    assert (Hm : m = length key).
    { subst m. rewrite Hd. apply runLength_exact; [done|].
      by intros c rest' [= <- _]. }
    rewrite Hn, Hm. rewrite lookup_app_r by lia.
    replace (length spaces + length key - length spaces) with (length key) by lia.
    rewrite lookup_app_r by lia. by rewrite Nat.sub_diag.
Qed.





(** ** Timestamps *)






(** ** The sanitized key, step by step *)

Lemma squeeze_collapse (s : jsstring) :
  squeeze false s = collapseUnderscores s
  /\ collapseUnderscores (95%N :: s) = 95%N :: squeeze true s.
Proof.
  assert (Hcons : forall c s', (c =? 95)%N = false ->
            collapseUnderscores (c :: s') = c :: collapseUnderscores s').
  { intros c s' Hc. cbn [collapseUnderscores]. destruct s' as [|d s']; [done|].
    unfold isUnderscore at 1. by rewrite Hc. }
  induction s as [|c s [IH1 IH2]]; [done|].
  destruct (c =? 95)%N eqn:Hc.
  - apply N.eqb_eq in Hc as ->. split.
    + cbn [squeeze]. rewrite N.eqb_refl. by rewrite IH2.
    + change (collapseUnderscores (95%N :: 95%N :: s))
        with (collapseUnderscores (95%N :: s)).
      rewrite IH2. cbn [squeeze]. by rewrite N.eqb_refl.
  - split.
    + cbn [squeeze]. rewrite Hc. rewrite (Hcons c s Hc). by rewrite IH1.
    + change (collapseUnderscores (95%N :: c :: s))
        with (if isUnderscore 95 && isUnderscore c
              then collapseUnderscores (c :: s)
              else 95%N :: collapseUnderscores (c :: s)).
      unfold isUnderscore. rewrite Hc. cbn [andb N.eqb Pos.eqb].
      rewrite (Hcons c s Hc). cbn [squeeze]. rewrite Hc. by rewrite IH1.
Qed.

Lemma dropUnderscores_drop (s : jsstring) :
  dropUnderscores s = drop (Js.runLength isUnderscore s) s.
Proof.
  induction s as [|c s IH]; [done|]. simpl. unfold isUnderscore at 1.
  destruct (c =? 95)%N; [by rewrite IH|done].
Qed.

Lemma cleanedKey_replaced (key : jsstring) : cleanedKey key = sanitizeReplaced key.
Proof.
  unfold cleanedKey, sanitizeReplaced, stripUnderscores.
  rewrite !dropUnderscores_drop. by rewrite (proj1 (squeeze_collapse _)).
Qed.

Lemma lowerAscii_fixed (s : jsstring) :
  Forall (fun c => Js.isUpper c = false) s -> map Js.lowerAscii s = s.
Proof.
  induction 1 as [|c s Hc _ IH]; [done|]. simpl.
  unfold Js.lowerAscii at 1. by rewrite Hc, IH.
Qed.

Lemma toUnderscore_not_upper (c : N) :
  Js.isUpper c = false -> Js.isUpper (toUnderscore c) = false.
Proof. unfold toUnderscore. by destruct (isWordChar c). Qed.

(** [sanitizeKey] is the derivation of the sentence, but for a key that
    starts with a digit after the replacements and has a capital: there
    the last step, the lowercasing, is not taken. *)
Lemma sanitizeKey_derivedName (key : jsstring) :
  startsWithDigit (cleanedKey key) = false
  \/ Forall (fun c => Js.isUpper c = false) key ->
  sanitizeKey key = derivedName key.
Proof.
  intros Hsafe. rewrite sanitizeKey_unfold. unfold derivedName. cbv zeta.
  rewrite <- cleanedKey_replaced.
  assert (Hupper : Forall (fun c => Js.isUpper c = false) key ->
                   Forall (fun c => Js.isUpper c = false) (cleanedKey key)).
  { intros Hk. rewrite cleanedKey_replaced. unfold sanitizeReplaced.
    apply stripUnderscores_Forall, collapseUnderscores_Forall.
    apply Forall_map. eapply List.Forall_impl; [|exact Hk].
    intros c. apply toUnderscore_not_upper. }
  destruct (cleanedKey key) as [|c cleaned] eqn:Hclean.
  - rewrite bool_decide_eq_true_2 by done. reflexivity.
  - rewrite bool_decide_eq_false_2 by done. cbn [startsWithDigit].
    destruct (Js.isDigit c) eqn:Hd; [|done].
    destruct Hsafe as [Hs|Hk]; [simpl in Hs; congruence|].
    rewrite map_app. by rewrite (lowerAscii_fixed (c :: cleaned)) by auto.
Qed.

(** ** One column for a key *)

Lemma ensureColumn_adds (key : jsstring) (m : JsMap.t FacetColumn) :
  (ensureColumn key m).2 = m
  \/ exists n, (ensureColumn key m).2 = m ++ [(n, metadataColumn n key)].
Proof.
  destruct (ensureColumn_cases key m) as (Hnew & Hsame & Hclash).
  destruct (JsMap.has (columnBase key) m) eqn:Hhas.
  - destruct (has_get _ _ Hhas) as [existing Hget].
    destruct (decide (existing.(originalKey) = Some key)) as [Hkey|Hkey].
    + left. by rewrite (Hsame existing Hget Hkey).
    + right. destruct (Hclash existing Hget Hkey) as (sfx & _ & _ & _ & ->).
      by eexists.
  - right. rewrite (Hnew eq_refl). by eexists.
Qed.

Lemma columnsOf_app (key : jsstring) (a b : list FacetColumn) :
  columnsOf key (a ++ b) = columnsOf key a ++ columnsOf key b.
Proof. apply list.filter_app. Qed.

Lemma timesMet_cons (key k : jsstring) (keys : list jsstring) :
  timesMet key (k :: keys)
  = (if decide (k = key) then 1 else 0) + timesMet key keys.
Proof.
  unfold timesMet. rewrite filter_cons.
  by destruct (decide (k = key)).
Qed.

Lemma timesMet_app (key : jsstring) (a b : list jsstring) :
  timesMet key (a ++ b) = timesMet key a + timesMet key b.
Proof. unfold timesMet. by rewrite list.filter_app, length_app. Qed.

(** A call of [ensureColumn] makes at most one column, and none for
    another key. *)
Lemma ensureColumn_count (key k : jsstring) (m : JsMap.t FacetColumn) :
  length (columnsOf k (JsMap.values (ensureColumn key m).2))
  <= (if decide (key = k) then 1 else 0)
     + length (columnsOf k (JsMap.values m)).
Proof.
  destruct (ensureColumn_adds key m) as [->|[n ->]]; [lia|].
  unfold JsMap.values. rewrite fmap_app, columnsOf_app, length_app.
  cbn [fmap list_fmap snd]. unfold columnsOf at 2.
  rewrite filter_cons, filter_nil. cbn [originalKey metadataColumn].
  destruct (decide (Some key = Some k)) as [[= ->]|Hne].
  - rewrite decide_True by done. simpl. lia.
  - destruct (decide (key = k)) as [->|]; [done|]. simpl. lia.
Qed.

Section ColumnCount.

Context {num : Type}.
Variable toLowerCase : jsstring -> jsstring.
Variable Number : jsstring -> num.
Variable Number_isFinite : num -> bool.

Lemma addMetadataCell_count (k : jsstring) (kvs : list (jsstring * jsstring)) :
  forall (row : JsObject.t (cell num)) (m : JsMap.t FacetColumn),
    length (columnsOf k
              (JsMap.values
                 (foldl (addMetadataCell toLowerCase Number Number_isFinite)
                        (row, m) kvs).2))
    <= timesMet k kvs.*1 + length (columnsOf k (JsMap.values m)).
Proof.
  induction kvs as [|[key value] kvs IH]; intros row m; [simpl; lia|].
  cbn [foldl]. rewrite addMetadataCell_step. etrans; [apply IH|].
  rewrite fmap_cons, timesMet_cons. cbn [fst].
  pose proof (ensureColumn_count key k m). lia.
Qed.

Lemma mapRows_count (k : jsstring) (logs : list (LogEntry num)) :
  forall (m : JsMap.t FacetColumn),
    length (columnsOf k
              (JsMap.values
                 (mapRows toLowerCase Number Number_isFinite logs m).2))
    <= timesMet k (metadataKeys logs) + length (columnsOf k (JsMap.values m)).
Proof.
  induction logs as [|log logs IH]; intros m; [simpl; lia|].
  rewrite mapRows_step. cbn [snd metadataKeys]. etrans; [apply IH|].
  rewrite timesMet_app. unfold rowOf.
  pose proof (addMetadataCell_count k (JsObject.entries log.(metadata))
                (coreRow log) m).
  lia.
Qed.

Lemma metadataKeys_elem (key : jsstring) (logs : list (LogEntry num)) :
  key ∈ metadataKeys logs ->
  exists log value,
    log ∈ logs /\ (key, value) ∈ JsObject.entries log.(metadata).
Proof.
  induction logs as [|log logs IH]; simpl; [by intros H%elem_of_nil|].
  intros [Hin|Hin]%elem_of_app.
  - apply list_elem_of_fmap in Hin as ([k v] & -> & Hkv).
    exists log, v. split; [by left|done].
  - destruct (IH Hin) as (log' & v & Hlog & Hkv).
    exists log', v. split; [by right|done].
Qed.

End ColumnCount.

Lemma filter_none {A} (P : A -> Prop) `{forall x, Decision (P x)}
    (l : list A) :
  (forall x, x ∈ l -> ~ P x) -> filter P l = [].
Proof.
  induction l as [|x l IH]; [done|]. intros Hall.
  rewrite list.filter_cons. rewrite decide_False by (apply Hall; by left).
  apply IH. intros y Hy. apply Hall. by right.
Qed.

Lemma filter_one {A} (P : A -> Prop) `{forall x, Decision (P x)}
    (l : list A) (c : A) :
  NoDup l -> c ∈ l -> P c -> (forall x, x ∈ l -> P x -> x = c) ->
  filter P l = [c].
Proof.
  induction l as [|x l IH]; [by intros _ Hin%elem_of_nil|].
  intros [Hx Hnd]%list.NoDup_cons Hin Hc Hall.
  rewrite list.filter_cons. destruct (decide (P x)) as [Hp|Hp].
  - assert (x = c) as -> by (apply Hall; [by left|done]).
    f_equal. apply filter_none. intros y Hy Hpy.
    assert (y = c) by (apply Hall; [by right|done]). by subst y.
  - apply IH; [done| |done|].
    + apply elem_of_cons in Hin as [->|Hin]; done.
    + intros y Hy. apply Hall. by right.
Qed.

Lemma length_one_elem {A} (l : list A) (c : A) :
  length l <= 1 -> c ∈ l -> l = [c].
Proof.
  destruct l as [|x [|y l]]; simpl; [by intros _ H%elem_of_nil| |lia].
  by intros _ ->%list_elem_of_singleton.
Qed.

(** ** Keys whose base names are all different *)

Section DistinctBases.

Context {num : Type}.
Variable toLowerCase : jsstring -> jsstring.
Variable Number : jsstring -> num.
Variable Number_isFinite : num -> bool.

(** The keys at hand, no two of which have the same base name. *)
Variable known : jsstring -> Prop.
Hypothesis known_distinct :
  forall k k', known k -> known k' -> columnBase k = columnBase k' -> k = k'.

Lemma ensureColumn_baseNamed (key : jsstring) (m : JsMap.t FacetColumn) :
  known key -> baseNamed known m -> baseNamed known (ensureColumn key m).2.
Proof.
  intros Hkey Hm.
  destruct (ensureColumn_cases key m) as (Hnew & Hsame & _).
  destruct (JsMap.has (columnBase key) m) eqn:Hhas.
  - destruct (has_get _ _ Hhas) as [existing Hget].
    destruct (Hm _ _ (get_elem _ _ _ Hget)) as (key0 & Hk0 & Hb & Hc).
    assert (key0 = key) as -> by (by apply known_distinct).
    rewrite (Hsame existing Hget); [done|]. by rewrite Hc.
  - rewrite (Hnew eq_refl). cbn [snd]. intros n c.
    rewrite elem_of_app, list_elem_of_singleton. intros [Hin|[= -> ->]].
    + by apply Hm.
    + by exists key.
Qed.

Lemma addMetadataCell_baseNamed (kvs : list (jsstring * jsstring)) :
  forall (row : JsObject.t (cell num)) (m : JsMap.t FacetColumn),
    Forall known kvs.*1 -> baseNamed known m ->
    baseNamed known
      (foldl (addMetadataCell toLowerCase Number Number_isFinite)
             (row, m) kvs).2.
Proof.
  induction kvs as [|[key value] kvs IH]; intros row m Hk Hm; [done|].
  rewrite fmap_cons in Hk. apply list.Forall_cons in Hk as [Hkey Hk].
  cbn [foldl]. rewrite addMetadataCell_step. apply IH; [done|].
  by apply ensureColumn_baseNamed.
Qed.

Lemma mapRows_baseNamed (logs : list (LogEntry num)) :
  forall (m : JsMap.t FacetColumn),
    Forall known (metadataKeys logs) -> baseNamed known m ->
    baseNamed known (mapRows toLowerCase Number Number_isFinite logs m).2.
Proof.
  induction logs as [|log logs IH]; intros m Hk Hm; [done|].
  cbn [metadataKeys] in Hk. apply Forall_app in Hk as [Hlog Hk].
  rewrite mapRows_step. cbn [snd]. apply IH; [done|].
  unfold rowOf. by apply addMetadataCell_baseNamed.
Qed.

End DistinctBases.

(** C9, amended.  The columns of a view are the core columns followed by
    the generated ones, whose names are all different.  A metadata key
    that holds its base name has that one column and no other, and when
    no two keys of the logs have the same base name every key has exactly
    one column, under its base name; a key that is met once in the logs
    has exactly one column, named by its base name
    or, when a column of another key holds the base name, by the base name
    with a suffix from 2 on.  [ensureColumn] gives a key its base name
    when the name is free, gives the key that holds the base name that
    same column again, and for a key that has no column yet and whose base
    name is held by another key makes a column under the least suffix from
    2 on whose name is free.  The base name is [meta_] and the sanitized
    key, and the sanitized key is derived step by step: every unit outside
    [[A-Za-z0-9_]] made an underscore, one underscore kept of every run,
    the underscores at both ends dropped, [field] for an empty rest, [f_]
    before a digit, the whole lowercased; this for every key that, after
    the replacements, does not start with a digit or that has no capital
    in it. *)
Theorem facet_columns_one_per_key {num : Type}
    (toLowerCase : jsstring -> jsstring) (Number : jsstring -> num)
    (Number_isFinite : num -> bool) (logs : list (LogEntry num)) :
  let view := buildFacetView toLowerCase Number Number_isFinite logs in
  let generated := generatedColumns view in
  view.(columns) = CORE_COLUMNS ++ generated
  /\ NoDup (name <$> generated)
  /\ (forall key c,
        c ∈ generated -> c.(name) = columnBase key ->
        c.(originalKey) = Some key ->
        columnsOf key generated = [c])
  /\ ((forall k k',
         k ∈ metadataKeys logs -> k' ∈ metadataKeys logs ->
         columnBase k = columnBase k' -> k = k') ->
      forall key,
        key ∈ metadataKeys logs ->
        columnsOf key generated = [metadataColumn (columnBase key) key])
  /\ (forall key,
        timesMet key (metadataKeys logs) = 1 ->
        exists c,
          columnsOf key generated = [c]
          /\ c = metadataColumn c.(name) key
          /\ (c.(name) = columnBase key
              \/ exists suffix,
                   2 <= suffix
                   /\ c.(name) = candidateName (columnBase key) suffix
                   /\ exists c0, c0 ∈ generated
                                 /\ c0.(name) = columnBase key
                                 /\ c0.(originalKey) <> Some key))
  /\ (forall key m,
        (JsMap.has (columnBase key) m = false ->
         ensureColumn key m
         = (columnBase key,
            m ++ [(columnBase key, metadataColumn (columnBase key) key)]))
        /\ (forall existing,
              JsMap.get (columnBase key) m = Some existing ->
              existing.(originalKey) = Some key ->
              ensureColumn key m = (columnBase key, m))
        /\ (forall existing,
              JsMap.get (columnBase key) m = Some existing ->
              (forall n c, (n, c) ∈ m -> c.(originalKey) <> Some key) ->
              exists suffix,
                2 <= suffix
                /\ JsMap.has (candidateName (columnBase key) suffix) m = false
                /\ (forall k, 2 <= k < suffix ->
                      JsMap.has (candidateName (columnBase key) k) m = true)
                /\ ensureColumn key m
                   = (candidateName (columnBase key) suffix,
                      m ++ [(candidateName (columnBase key) suffix,
                             metadataColumn
                               (candidateName (columnBase key) suffix) key)])))
  /\ (forall key,
        columnBase key = js "meta_" ++ sanitizeKey key
        /\ (startsWithDigit (cleanedKey key) = false
            \/ Forall (fun c => Js.isUpper c = false) key ->
            sanitizeKey key = derivedName key))
  /\ derivedName (js "a..b") = js "a_b"
  /\ derivedName (js "Req-ID") = js "req_id"
  /\ derivedName (js "--") = js "field"
  /\ derivedName (js "2xx count") = js "f_2xx_count"
  /\ (name <$> generatedColumns
                 (buildFacetView Ref.toLowerCase Ref.Number Ref.Number_isFinite
                    collidingOnceLogs))
     = [js "meta_a_b"; js "meta_a_b_2"].
Proof.
  intros view generated.
  assert (Hgen : generated
                 = JsMap.values (mapRows toLowerCase Number Number_isFinite logs []).2)
    by apply generatedColumns_values.
  destruct (mapRows_inv toLowerCase Number Number_isFinite logs []
              columnMapInv_empty) as (Hinv & _ & Hcov).
  cbv zeta in Hinv, Hcov.
  pose proof (fun k => mapRows_count toLowerCase Number Number_isFinite k logs [])
    as Hcount.
  set (m := (mapRows toLowerCase Number Number_isFinite logs []).2) in *.
  pose proof Hinv as [Hnodup Hcols].
  assert (Hnames : name <$> JsMap.values m = m.*1).
  { apply names_are_keys. intros n c. by apply columnMapInv_name. }
  assert (Hnd : NoDup (JsMap.values m)).
  { apply (NoDup_fmap_1 name). by rewrite Hnames. }
  split.
  { subst view. rewrite buildFacetView_columns. fold m. by rewrite Hgen. }
  rewrite Hgen. split; [by rewrite Hnames|].
  assert (Hheld : forall key c,
            c ∈ JsMap.values m -> c.(name) = columnBase key ->
            c.(originalKey) = Some key ->
            columnsOf key (JsMap.values m) = [c]).
  { intros key c Hc Hname Hkey. unfold columnsOf.
    apply filter_one; [done|done|done|].
    intros c' [n' Hin']%values_elem Hkey'.
    apply values_elem in Hc as [n Hin].
    pose proof (columnMapInv_name m n c Hinv Hin) as Hn.
    rewrite Hname in Hn. subst n.
    destruct (Hcols n' c' Hin') as (key' & Hc' & Hshape).
    assert (key' = key) as ->.
    { rewrite Hc' in Hkey'. simpl in Hkey'. congruence. }
    destruct Hshape as [->|(sfx & Hs & Hn & c0 & Hc0 & Hk0)].
    - by apply (NoDup_fst_functional m (columnBase key)).
    - exfalso. apply Hk0.
      by rewrite (NoDup_fst_functional m (columnBase key) c0 c Hnodup Hc0 Hin). }
  split; [done|].
  split.
  { intros Hdistinct key Hmet.
    pose proof (mapRows_baseNamed toLowerCase Number Number_isFinite
                  (fun k => k ∈ metadataKeys logs) Hdistinct logs []) as Hbase.
    fold m in Hbase.
    assert (Hb : baseNamed (fun k => k ∈ metadataKeys logs) m).
    { apply Hbase; [by apply list.Forall_forall|].
      intros n c H. by apply elem_of_nil in H. }
    apply metadataKeys_elem in Hmet as (log & value & Hlog & Hkv).
    destruct (Hcov log key value Hlog Hkv) as [n Hn].
    destruct (Hb n _ Hn) as (key0 & _ & -> & Hc).
    assert (key0 = key) as ->.
    { apply (f_equal originalKey) in Hc. simpl in Hc. congruence. }
    apply Hheld; [|done|done]. apply values_elem. by eexists. }
  split.
  { intros key Hone.
    assert (Hmet : key ∈ metadataKeys logs).
    { unfold timesMet in Hone.
      destruct (filter (fun k => k = key) (metadataKeys logs)) as [|k l] eqn:Hf;
        [done|].
      assert (Hk : k ∈ filter (fun k => k = key) (metadataKeys logs))
        by (rewrite Hf; by left).
      apply list_elem_of_filter in Hk as [-> Hk]. done. }
    apply metadataKeys_elem in Hmet as (log & value & Hlog & Hkv).
    destruct (Hcov log key value Hlog Hkv) as [n Hn].
    exists (metadataColumn n key).
    split.
    - apply length_one_elem.
      + specialize (Hcount key). rewrite Hone in Hcount. simpl in Hcount. lia.
      + unfold columnsOf. apply list_elem_of_filter. split; [done|].
        apply values_elem. by exists n.
    - split; [done|]. simpl.
      destruct (Hcols n _ Hn) as (key' & Hc & Hshape).
      assert (key' = key) as ->.
      { apply (f_equal originalKey) in Hc. simpl in Hc. congruence. }
      destruct Hshape as [Hb|(sfx & Hs & Hsn & c0 & Hc0 & Hk0)]; [by left|].
      right. exists sfx. split; [done|]. split; [done|]. exists c0.
      split; [apply values_elem; by exists (columnBase key)|].
      split; [|done]. by apply (columnMapInv_name m). }
  split.
  { intros key m'. destruct (ensureColumn_cases key m') as (Hnew & Hsame & Hclash).
    split; [done|]. split; [done|].
    intros existing Hget Hnone. apply (Hclash existing Hget).
    apply (Hnone (columnBase key)). by apply get_elem. }
  split.
  { intros key. split; [done|]. apply sanitizeKey_derivedName. }
  repeat split; vm_compute; reflexivity.
Qed.

(** ** Pairs written out and read back *)

Lemma scanWhile_app (p : N -> bool) (pre s : jsstring) :
  Js.scanWhile p (pre ++ s) (length pre) = length pre + Js.runLength p s.
Proof. unfold Js.scanWhile. by rewrite drop_app_length. Qed.

Lemma runLength_zero (p : N -> bool) (s : jsstring) :
  (forall c t, s = c :: t -> p c = false) -> Js.runLength p s = 0.
Proof.
  destruct s as [|c t]; [done|]. intros H. simpl. by rewrite (H c t).
Qed.

Lemma bumpDepth_plain (c : N) (depth : nat * nat * nat) :
  isBracket c = false -> bumpDepth c depth = depth.
Proof.
  unfold isBracket. intros H. destruct depth as [[p b] r]. unfold bumpDepth.
  repeat (apply orb_false_elim in H as [H ?]).
  repeat match goal with H : (_ =? _)%N = false |- _ => rewrite H; clear H end.
  done.
Qed.

Lemma readValue_loop_plain (block value : jsstring) :
  plainValue value ->
  forall (rest : jsstring) (index : nat) (depth : nat * nat * nat),
    readValue_loop block (value ++ rest) index depth
    = readValue_loop block rest (index + length value) depth.
Proof.
  induction 1 as [|c value [Hws Hbr] _ IH]; intros rest index depth.
  - simpl. by rewrite Nat.add_0_r.
  - cbn [app readValue_loop]. rewrite (bumpDepth_plain c depth Hbr).
    assert (Hsp : isSpace c = false).
    { apply not_true_is_false. intros Hc%N.eqb_eq. subst c. done. }
    rewrite Hsp. cbn [andb]. rewrite IH. f_equal. simpl. lia.
Qed.

Lemma trimEnd_plain (value : jsstring) :
  plainValue value -> Js.trimEnd value = value.
Proof.
  intros Hv. unfold Js.trimEnd.
  assert (Hrev : Js.trimStart (rev value) = rev value).
  { destruct (rev value) as [|c t] eqn:Hr; [done|].
    apply trimStart_fixed.
    assert (Hc : c ∈ value) by (apply elem_of_rev; rewrite Hr; by left).
    unfold plainValue in Hv. rewrite list.Forall_forall in Hv.
    by destruct (Hv c Hc). }
  by rewrite Hrev, rev_involutive.
Qed.

Lemma trim_plain (value : jsstring) :
  plainValue value -> Js.trim value = value.
Proof.
  intros Hv. unfold Js.trim.
  destruct value as [|c t] eqn:Hval; [done|].
  rewrite trimStart_fixed; [by apply trimEnd_plain|].
  by apply list.Forall_cons in Hv as [[? _] _].
Qed.

Lemma renderPairs_start (key value : jsstring)
    (rest : list (jsstring * jsstring)) :
  plainKey key ->
  equalsAfterRun (renderPairs ((key, value) :: rest)) 0 = true.
Proof.
  intros [_ Hk]. apply equalsAfterRun_start.
  exists [], key, (value ++ match rest with
                           | [] => []
                           | _ => 32%N :: renderPairs rest
                           end).
  done.
Qed.

Lemma plainKey_head (key rest : jsstring) (c : N) (t : jsstring) :
  plainKey key -> key ++ rest = c :: t -> isSpace c = false.
Proof.
  intros [Hne Hk]. destruct key as [|d key]; [done|].
  intros [= <- _]. apply keyChar_not_space. by inversion Hk.
Qed.

(** The loop at the start of the written pairs, or at the space before
    them. *)
Lemma parseMetadata_loop_render (pairs : list (jsstring * jsstring)) :
  Forall (fun kv => plainKey kv.1 /\ plainValue kv.2) pairs ->
  forall (pre : jsstring) (gap : jsstring) (fuel : nat)
         (metadata : JsObject.t jsstring),
    pairs <> [] ->
    gap = [] \/ gap = [32%N] ->
    length gap + length (renderPairs pairs) < fuel ->
    parseMetadata_loop fuel (pre ++ gap ++ renderPairs pairs) (length pre)
      metadata
    = foldl (fun m kv => JsObject.set kv.1 kv.2 m) metadata pairs.
Proof.
  induction 1 as [|[key value] pairs [Hkey Hvalue] Hrest IH];
    intros pre gap fuel metadata Hne Hgap Hfuel; [done|].
  cbn [fst snd] in Hkey, Hvalue.
  set (tail := match pairs with [] => [] | _ => 32%N :: renderPairs pairs end).
  assert (Hrender : renderPairs ((key, value) :: pairs)
                    = key ++ 61%N :: value ++ tail) by done.
  set (block := pre ++ gap ++ renderPairs ((key, value) :: pairs)).
  assert (Hblock : block = (pre ++ gap) ++ key ++ 61%N :: value ++ tail).
  { subst block. by rewrite Hrender, <- app_assoc. }
  assert (HkeyStart : Js.scanWhile isSpace block (length pre)
                      = length (pre ++ gap)).
  { destruct Hgap as [->| ->].
    - rewrite app_nil_r. rewrite Hblock, app_nil_r.
      rewrite scanWhile_app.
      rewrite runLength_zero; [lia|].
      intros c t Hc. by apply (plainKey_head key _ c t Hkey Hc).
    - rewrite Hblock.
      rewrite (scanWhile_here isSpace _ (length pre) 32).
      + replace (S (length pre)) with (length (pre ++ [32%N]))
          by (rewrite length_app; simpl; lia).
        rewrite scanWhile_app.
        rewrite runLength_zero; [rewrite length_app; simpl; lia|].
        intros c t Hc. by apply (plainKey_head key _ c t Hkey Hc).
      + rewrite <- app_assoc. rewrite lookup_app_r by lia.
        by rewrite Nat.sub_diag.
      + done. }
  assert (HkeyEnd : Js.scanWhile KEY_CHAR_REGEX block (length (pre ++ gap))
                    = length (pre ++ gap) + length key).
  { rewrite Hblock, scanWhile_app. f_equal.
    apply runLength_exact; [by destruct Hkey|]. by intros c t [= <- _]. }
  assert (Heq : equalsAfterRun block (length pre) = true).
  { unfold equalsAfterRun. rewrite HkeyStart, HkeyEnd. apply charIs_lookup.
    rewrite Hblock. rewrite lookup_app_r by lia.
    replace (length (pre ++ gap) + length key - length (pre ++ gap))
      with (length key) by lia.
    rewrite lookup_app_r by lia. by rewrite Nat.sub_diag. }
  destruct fuel as [|fuel]; [lia|].
  rewrite (parseMetadata_loop_pair fuel block (length pre) metadata Heq).
  cbv zeta. rewrite HkeyStart, HkeyEnd.
  set (valueStart := length (pre ++ gap) + length key + 1).
  assert (Hdrop : drop valueStart block = value ++ tail).
  { subst valueStart. rewrite Hblock.
    replace ((pre ++ gap) ++ key ++ 61%N :: value ++ tail)
      with (((pre ++ gap) ++ key ++ [61%N]) ++ value ++ tail)
      by (by rewrite <- !app_assoc).
    replace (length (pre ++ gap) + length key + 1)
      with (length ((pre ++ gap) ++ key ++ [61%N]))
      by (rewrite !length_app; simpl; lia).
    apply drop_app_length. }
  assert (Hslice : Js.slice block (length (pre ++ gap))
                     (length (pre ++ gap) + length key) = key).
  { apply slice_of_drop; [|done]. rewrite Hblock, drop_app_length.
    f_equal. rewrite <- drop_drop, drop_app_length. by rewrite drop_app_length. }
  rewrite Hslice.
  assert (Hnext : readValue_loop block (drop valueStart block) valueStart
                    (0, 0, 0) = valueStart + length value).
  { rewrite Hdrop, (readValue_loop_plain block value Hvalue).
    subst tail. destruct pairs as [|[key' value'] pairs']; [done|].
    cbn [readValue_loop]. rewrite bumpDepth_space. cbn [isSpace N.eqb Pos.eqb andb depthZero Nat.eqb].
    assert (Hk : isKeyAhead block (valueStart + length value + 1) = true);
      [|by rewrite Hk].
    rewrite <- equalsAfterRun_isKeyAhead, equalsAfterRun_drop.
    replace (valueStart + length value + 1)
      with (valueStart + (length value + 1)) by lia.
    rewrite <- drop_drop, Hdrop.
    replace (value ++ 32%N :: renderPairs ((key', value') :: pairs'))
      with ((value ++ [32%N]) ++ renderPairs ((key', value') :: pairs'))
      by (by rewrite <- app_assoc).
    replace (length value + 1) with (length (value ++ [32%N]))
      by (rewrite length_app; simpl; lia).
    rewrite drop_app_length. apply renderPairs_start.
    by apply list.Forall_cons in Hrest as [[? _] _]. }
  rewrite readValue_unfold. cbn [fst snd]. rewrite Hnext.
  assert (Hval : Js.slice block valueStart (valueStart + length value) = value).
  { apply slice_of_drop; [|done]. rewrite Hdrop. f_equal.
    rewrite <- drop_drop, Hdrop. by rewrite drop_app_length. }
  rewrite Hval, (trimEnd_plain value Hvalue), (trim_plain value Hvalue).
  cbn [foldl fst snd].
  destruct (decide (pairs = [])) as [Hnil|Hcons].
  - subst pairs. cbn [foldl]. destruct fuel as [|fuel]; [done|].
    rewrite parseMetadata_loop_round.
    assert (Hlen : length block = valueStart + length value).
    { rewrite Hblock. subst tail valueStart.
      rewrite !length_app. simpl. rewrite length_app. simpl. lia. }
    by rewrite (proj2 (Nat.leb_le (length block) (valueStart + length value)))
      by lia.
  - assert (Htail : tail = 32%N :: renderPairs pairs)
      by (subst tail; by destruct pairs).
    assert (Hblock' : block
                      = ((pre ++ gap) ++ key ++ 61%N :: value) ++ [32%N]
                        ++ renderPairs pairs).
    { rewrite Hblock, Htail. by rewrite <- !app_assoc. }
    replace (valueStart + length value)
      with (length ((pre ++ gap) ++ key ++ 61%N :: value))
      by (subst valueStart; rewrite !length_app; simpl; lia).
    rewrite Hblock'. apply IH; [done|by right|].
    rewrite Hrender, Htail in Hfuel.
    rewrite !length_app in Hfuel. simpl in Hfuel.
    rewrite !length_app in Hfuel. simpl in Hfuel. simpl. lia.
Qed.

Lemma foldl_set_fresh (pairs : list (jsstring * jsstring)) :
  forall (metadata : JsObject.t jsstring),
    NoDup (metadata.*1 ++ pairs.*1) ->
    JsObject.protoKey ∉ pairs.*1 ->
    foldl (fun m kv => JsObject.set kv.1 kv.2 m) metadata pairs
    = metadata ++ pairs.
Proof.
  induction pairs as [|[key value] pairs IH]; intros metadata Hnd Hproto.
  - by rewrite app_nil_r.
  - cbn [foldl fst snd]. rewrite fmap_cons in Hnd, Hproto. cbn [fst] in Hnd, Hproto.
    apply not_elem_of_cons in Hproto as [Hkey Hproto].
    assert (Hfresh : key ∉ metadata.*1).
    { apply list.NoDup_app in Hnd as (_ & Hdis & _). intros Hin.
      apply (Hdis key Hin). by left. }
    unfold JsObject.set at 2. rewrite decide_False by done.
    unfold JsObject.has. rewrite bool_decide_eq_false_2 by done.
    rewrite IH; [by rewrite <- app_assoc| |done].
    rewrite fmap_app, <- app_assoc. done.
Qed.

(** Pairs written out as [key=value] with one space between them are read
    back as they were written: [parseMetadata] sets the keys to their
    values in the order of the text, and when the keys are all different
    and none is [__proto__] the metadata is the list of the pairs. *)
Theorem parseMetadata_renderPairs (pairs : list (jsstring * jsstring)) :
  Forall (fun kv => plainKey kv.1 /\ plainValue kv.2) pairs ->
  parseMetadata (renderPairs pairs)
  = foldl (fun m kv => JsObject.set kv.1 kv.2 m) JsObject.empty pairs
  /\ (NoDup pairs.*1 -> JsObject.protoKey ∉ pairs.*1 ->
      parseMetadata (renderPairs pairs) = pairs).
Proof.
  intros Hpairs.
  assert (Hparse : parseMetadata (renderPairs pairs)
                   = foldl (fun m kv => JsObject.set kv.1 kv.2 m)
                           JsObject.empty pairs).
  { destruct (decide (pairs = [])) as [->|Hne]; [done|].
    unfold parseMetadata.
    apply (parseMetadata_loop_render pairs Hpairs [] []); [done|by left|].
    simpl. lia. }
  split; [done|]. intros Hnd Hproto. rewrite Hparse.
  by apply (foldl_set_fresh pairs []).
Qed.

Lemma parseMetadata_renderPairs_witness :
  parseMetadata (js "user=ada req.id=7f3 q=a=b")
  = [(js "user", js "ada"); (js "req.id", js "7f3"); (js "q", js "a=b")].
Proof.
  refine (proj2 (parseMetadata_renderPairs
                   [(js "user", js "ada"); (js "req.id", js "7f3");
                    (js "q", js "a=b")] _) _ _).
  - repeat constructor; vm_compute; try discriminate; reflexivity.
  - vm_compute. repeat constructor; vm_compute; intros H; 
      repeat (apply elem_of_cons in H as [H|H]; [discriminate|]);
      by apply elem_of_nil in H.
  - intros H. vm_compute in H.
    repeat (apply elem_of_cons in H as [H|H]; [discriminate|]).
    by apply elem_of_nil in H.
Defined.
